(** * HexCrypt: Intel HEX codec and ARC4 cipher pass

    A shallow embedding of [arcfour.c] (src/unnamed/part_000) and of the
    two revisions of [ihex.h]: the ordered-record revision (src/ihex.h),
    which keeps a [std::vector<HexRecord>], and the address-keyed
    revision (src/unnamed/part_001), which keeps a
    [std::map<uint32_t, std::vector<uint8_t>>].

    Conventions.  A [uint8_t] is a [Z] in [0, 256) with the wrap-around
    written [mod 256]; a [uint16_t] and a [uint32_t] likewise.  A C array
    is a [list Z] read with [rd] and written with [wr].  Characters are
    [ascii]; a stream is the list of the characters still to be read.  An
    exception is a value of type [error] returned on the left of a sum. *)

From Stdlib Require Import ZArith List Ascii String Lia Bool Sorted Permutation
  DecimalString.
Import ListNotations.
Local Open Scope Z_scope.

(** ** Arrays of bytes *)

Definition byte_ok (x : Z) : Prop := 0 <= x < 256.

(** [a[i]] *)
Definition rd (a : list Z) (i : Z) : Z := nth (Z.to_nat i) a 0.

Fixpoint wr_nat (a : list Z) (i : nat) (v : Z) : list Z :=
  match a, i with
  | [], _ => []
  | _ :: t, O => v :: t
  | h :: t, S i' => h :: wr_nat t i' v
  end.

(** [a[i] = v] *)
Definition wr (a : list Z) (i : Z) (v : Z) : list Z := wr_nat a (Z.to_nat i) v.

(** ** arcfour.c *)

Module Arcfour.

(** The three statements [t = state[i]; state[i] = state[j]; state[j] = t]. *)
Definition swap (state : list Z) (i j : Z) : list Z :=
  let t := rd state i in
  let state := wr state i (rd state j) in
  wr state j t.

(** [for (i = 0; i < 256; ++i) state[i] = i;] *)
Definition identity_state : list Z := map Z.of_nat (seq 0 256).

(** The second loop of [arcfour_key_setup], [n] iterations left. *)
Fixpoint key_setup_loop (n : nat) (i j : Z) (state key : list Z) (len : Z)
  : list Z :=
  match n with
  | O => state
  | S n' =>
      let j := (j + rd state i + rd key (i mod len)) mod 256 in
      let state := swap state i j in
      key_setup_loop n' (i + 1) j state key len
  end.

Definition arcfour_key_setup (key : list Z) (len : Z) : list Z :=
  key_setup_loop 256 0 0 identity_state key len.

(** The loop of [arcfour_generate_stream] from given values of the two
    index counters; [n] iterations left.  It returns the counters, the
    state and the bytes written to [out]. *)
Fixpoint generate_from (n : nat) (i j : Z) (state : list Z)
  : Z * Z * list Z * list Z :=
  match n with
  | O => (i, j, state, [])
  | S n' =>
      let i := (i + 1) mod 256 in
      let j := (j + rd state i) mod 256 in
      let state := swap state i j in
      let o := rd state ((rd state i + rd state j) mod 256) in
      let '(i', j', state', out) := generate_from n' i j state in
      (i', j', state', o :: out)
  end.

(** [arcfour_generate_stream(state, out, len)]: the counters are locals
    of the function, set to zero by the [for] initialiser
    [idx = 0, i = 0, j = 0], and are lost when it returns.  The result is
    the state array and the [len] bytes of [out]. *)
Definition arcfour_generate_stream (state : list Z) (len : nat)
  : list Z * list Z :=
  let '(_, _, state', out) := generate_from len 0 0 state in
  (state', out).

End Arcfour.

(** ** ihex.h: what the two revisions share *)

(** The arguments of the [ParseError] constructor. *)
Record ParseError := mkParseError {
  pe_line : Z;
  pe_column : Z;
  pe_message : string;
  pe_data : list ascii
}.

(** What [Parse] can throw: [std::ios_base::failure] or [ParseError]. *)
Inductive error :=
| ios_failure
| parse_error (e : ParseError).

(** [(uint8_t) c] *)
Definition ord (c : ascii) : Z := Z.of_N (N_of_ascii c).

(** [(char) n] *)
Definition chr (n : Z) : ascii := ascii_of_N (Z.to_N n).

Definition LF : ascii := chr 10.
Definition CR : ascii := chr 13.

(** [input.getline(line, n)] with [room] the number of characters that
    may still be stored: the characters stored in [line], [gcount()] and
    the rest of the stream; [None] when [failbit] is raised, which throws
    since the stream was configured with [exceptions(failbit | badbit)].
    In order: end of input stops the extraction; a newline is extracted
    and counted but not stored; a full buffer raises [failbit]. *)
Fixpoint getline_scan (room : nat) (s : list ascii) {struct s}
  : option (list ascii * Z * list ascii) :=
  match s with
  | [] => Some ([], 0, [])
  | c :: s' =>
      if Ascii.eqb c LF then Some ([], 1, s')
      else match room with
           | O => None
           | S room' =>
               match getline_scan room' s' with
               | Some (line, gcount, rest) => Some (c :: line, gcount + 1, rest)
               | None => None
               end
           end
  end.

(** [char line[1026]; input.getline(line, sizeof(line))]: nothing
    extracted at the end of the input raises [failbit]. *)
Definition getline (s : list ascii) : option (list ascii * Z * list ascii) :=
  match s with
  | [] => None
  | _ => getline_scan 1025 s
  end.

(** The conversion loop [for (i = 1; i < length; i++)] of [Parse].  [cs]
    holds the characters [line[i]], ..., [line[length - 1]] still to be
    visited; [buffer] holds the completed bytes [buffer[0 .. byte)], so
    that [byte] is its length; [cur] is the half-built [buffer[byte]].
    The result is the buffer and the sum, or the [ParseError] thrown. *)
Fixpoint convert (cs : list ascii) (i len l : Z) (line : list ascii)
  (buffer : list Z) (cur sum : Z) : ParseError + (list Z * Z) :=
  match cs with
  | [] => inr (buffer, sum)
  | c :: cs' =>
      let nibble := ord c in
      let next (nibble : Z) :=
        if Z.odd i then
          convert cs' (i + 1) len l line buffer nibble sum
        else
          let b := Z.lor ((Z.shiftl cur 4) mod 256) nibble in
          convert cs' (i + 1) len l line (buffer ++ [b]) b ((sum + b) mod 256)
      in
      if (ord "0" <=? nibble) && (nibble <=? ord "9") then
        next (nibble - ord "0")
      else if (ord "a" <=? nibble) && (nibble <=? ord "f") then
        next (nibble - (ord "a" - 10))
      else if (ord "A" <=? nibble) && (nibble <=? ord "F") then
        next (nibble - (ord "A" - 10))
      else if (nibble =? ord CR) && (i =? len - 1) then
        inr (buffer, sum)
      else
        inl (mkParseError l i "not an hexadecimal character" line)
  end.

(** The part of the body of the loop of [Parse] that both revisions
    have, from the test on the length of the line to the test on the
    declared count: the bytes of the record, or the [ParseError]. *)
Definition line_bytes (l : Z) (line : list ascii) (len : Z)
  : ParseError + list Z :=
  if (len <? 10) || negb (Ascii.eqb (nth 0 line zero) ":") then
    inl (mkParseError l 0 "not starting with ':' or too short" line)
  else
    match convert (firstn (Z.to_nat (len - 1)) (tl line)) 1 len l line [] 0 0 with
    | inl e => inl e
    | inr (buffer, sum) =>
        if negb (sum =? 0) then
          inl (mkParseError l (len - 2) "checksum error" line)
        else
          let count := rd buffer 0 in
          if negb (count + 5 =? Z.of_nat (List.length buffer)) then
            inl (mkParseError l 2 "mismatched length" line)
          else inr buffer
    end.

(** The two characters written for one byte. *)
Definition hex_digit (n : Z) : ascii :=
  if n <? 10 then chr (n + ord "0") else chr (n + (ord "A" - 10)).

Definition put_byte (b : Z) : list ascii :=
  [hex_digit (Z.shiftr b 4); hex_digit (Z.land b 15)].

(** [data[i] ^= stream[i]] for [i] below [data.size()]. *)
Fixpoint xor_stream (data stream : list Z) : list Z :=
  match data, stream with
  | d :: data', s :: stream' => (Z.lxor d s) mod 256 :: xor_stream data' stream'
  | _, _ => data
  end.

(** ** ihex.h, ordered-record revision ([std::vector<HexRecord>]) *)

Module Ordered.

Record HexRecord := mkHexRecord {
  size : Z;
  address : Z;
  type : Z;
  data : list Z;
  checksum : Z
}.

(** The constructor [HexRecord(uint8_t* data)]. *)
Definition HexRecord_of (buffer : list Z) : HexRecord :=
  let size := rd buffer 0 in
  {| size := size;
     address := Z.lor (Z.shiftl (rd buffer 1) 8) (rd buffer 2);
     type := rd buffer 3;
     checksum := rd buffer (size + 4);
     data := firstn (Z.to_nat size) (skipn 4 buffer) |}.

(** [HexRecord::operator==] *)
Definition HexRecord_eq (a b : HexRecord) : bool :=
  if negb (size a =? size b) then false
  else if negb (address a =? address b) then false
  else if negb (type a =? type b) then false
  else if negb (checksum a =? checksum b) then false
  else true.

(** [HexRecord::UpdateChecksum] *)
Definition UpdateChecksum (r : HexRecord) : HexRecord :=
  let c := (size r + Z.shiftr (address r) 8 + Z.land (address r) 255 + type r) mod 256 in
  let c := fold_left (fun c i => (c + i) mod 256) (data r) c in
  {| size := size r; address := address r; type := type r; data := data r;
     checksum := (- c) mod 256 |}.

(** [HexRecord::Generate]: the bytes copied to [buffer], then the
    characters written.  [data[i]] is read for [i] below [size]. *)
Definition record_buffer (r : HexRecord) : list Z :=
  [size r; (Z.shiftr (address r) 8) mod 256; (address r) mod 256; type r]
    ++ firstn (Z.to_nat (size r)) (data r) ++ [checksum r].

Definition HexRecord_Generate (r : HexRecord) : list ascii :=
  ":"%char :: flat_map put_byte (record_buffer r) ++ [CR; LF].

Definition IntelHex := list HexRecord.

(** [std::vector<HexRecord>::operator==], which [IntelHex::operator==]
    calls: the same number of elements, equal one by one. *)
Fixpoint IntelHex_eq (a b : IntelHex) : bool :=
  match a, b with
  | [], [] => true
  | x :: a', y :: b' => HexRecord_eq x y && IntelHex_eq a' b'
  | _, _ => false
  end.

(** The loop of [IntelHex::Parse]; [fuel] bounds the number of lines. *)
Fixpoint Parse_loop (fuel : nat) (l : Z) (fData : IntelHex) (input : list ascii)
  : error + IntelHex :=
  match fuel with
  | O => inl ios_failure
  | S fuel' =>
      match getline input with
      | None => inl ios_failure
      | Some (line, gcount, rest) =>
          match line_bytes l line (gcount - 1) with
          | inl e => inl (parse_error e)
          | inr buffer =>
              let r := HexRecord_of buffer in
              let fData := fData ++ [r] in
              if type r =? 1 then inr fData
              else Parse_loop fuel' (l + 1) fData rest
          end
      end
  end.

(** [IntelHex::Parse]: every line read takes at least one character of
    the input, so that the fuel given is never used up. *)
Definition Parse (input : list ascii) : error + IntelHex :=
  Parse_loop (S (List.length input)) 1 [] input.

(** [IntelHex::Generate] *)
Definition Generate (fData : IntelHex) : list ascii :=
  flat_map HexRecord_Generate fData.

(** The loop of [IntelHex::Cipher]. *)
Fixpoint Cipher_loop (state : list Z) (fData : IntelHex) : IntelHex :=
  match fData with
  | [] => []
  | line :: rest =>
      let '(state, stream) :=
        Arcfour.arcfour_generate_stream state (List.length (data line)) in
      let line := {| size := size line; address := address line;
                     type := type line; checksum := checksum line;
                     data := xor_stream (data line) stream |} in
      UpdateChecksum line :: Cipher_loop state rest
  end.

(** [IntelHex::Cipher(key, len)] *)
Definition Cipher (key : list Z) (len : Z) (fData : IntelHex) : IntelHex :=
  let state := Arcfour.arcfour_key_setup key len in
  let '(state, _) := Arcfour.arcfour_generate_stream state 256 in
  Cipher_loop state fData.

End Ordered.

(** ** ihex.h, address-keyed revision ([std::map<uint32_t, std::vector<uint8_t>>]) *)

Module Keyed.

(** A [std::map] is kept as the list of its pairs in ascending order of
    the keys, which is the order its iterators follow. *)
Definition IntelHex := list (Z * list Z).

(** [std::map::insert]: nothing is inserted when the key is present. *)
Fixpoint map_insert (k : Z) (v : list Z) (m : IntelHex) : IntelHex :=
  match m with
  | [] => [(k, v)]
  | (k', v') :: m' =>
      if k <? k' then (k, v) :: m
      else if k =? k' then m
      else (k', v') :: map_insert k v m'
  end.

(** [std::map::find] *)
Fixpoint map_find (k : Z) (m : IntelHex) : option (list Z) :=
  match m with
  | [] => None
  | (k', v') :: m' => if k =? k' then Some v' else map_find k m'
  end.

(** [std::vector<uint8_t>::operator==] *)
Fixpoint vector_eq (a b : list Z) : bool :=
  match a, b with
  | [], [] => true
  | x :: a', y :: b' => (x =? y) && vector_eq a' b'
  | _, _ => false
  end.

(** [std::map::operator==], which [IntelHex::operator==] calls: the same
    number of pairs, equal one by one in the order of the keys. *)
Fixpoint IntelHex_eq (a b : IntelHex) : bool :=
  match a, b with
  | [], [] => true
  | (k, v) :: a', (k', v') :: b' =>
      (k =? k') && vector_eq v v' && IntelHex_eq a' b'
  | _, _ => false
  end.

(** The loop of [IntelHex::Parse]; [fuel] bounds the number of lines. *)
Fixpoint Parse_loop (fuel : nat) (l extended : Z) (fData : IntelHex)
  (input : list ascii) : error + IntelHex :=
  match fuel with
  | O => inl ios_failure
  | S fuel' =>
      match getline input with
      | None => inl ios_failure
      | Some (line, gcount, rest) =>
          match line_bytes l line (gcount - 1) with
          | inl e => inl (parse_error e)
          | inr buffer =>
              let count := rd buffer 0 in
              let offset := Z.lor (Z.shiftl (rd buffer 1) 8) (rd buffer 2) in
              let type := rd buffer 3 in
              if type =? 0 then
                let first := Z.lor extended offset in
                let second := firstn (Z.to_nat count) (skipn 4 buffer) in
                Parse_loop fuel' (l + 1) extended (map_insert first second fData) rest
              else if type =? 1 then
                if negb (count =? 0) then
                  inl (parse_error
                         (mkParseError l 9 "end-of-file record has data" line))
                else inr fData
              else if type =? 4 then
                if negb (count =? 2) then
                  inl (parse_error
                         (mkParseError l 9 "wrong size for extended address record" line))
                else
                  let extended :=
                    (Z.lor (Z.shiftl (rd buffer 4) 24) (Z.shiftl (rd buffer 5) 16))
                      mod 2 ^ 32 in
                  Parse_loop fuel' (l + 1) extended fData rest
              else
                inl (parse_error (mkParseError l 8 "unhandled record type" line))
          end
      end
  end.

(** [IntelHex::Parse]: [fData.clear(); uint32_t extended = 0;] and the
    loop from line 1. *)
Definition Parse (input : list ascii) : error + IntelHex :=
  Parse_loop (S (List.length input)) 1 0 [] input.

(** The printing loop of [IntelHex::WriteRecord]: each byte is written
    and subtracted from [buffer[length + 4]], which is written last. *)
Fixpoint write_loop (buffer : list Z) (chk : Z) : list ascii :=
  match buffer with
  | [] => put_byte chk
  | b :: buffer' => put_byte b ++ write_loop buffer' ((chk - b) mod 256)
  end.

(** [IntelHex::WriteRecord(output, type, address, data)] *)
Definition WriteRecord (type address : Z) (data : list Z) : list ascii :=
  let length := Z.of_nat (List.length data) in
  let buffer :=
    [length mod 256; (Z.shiftr address 8) mod 256; address mod 256; type] ++ data in
  ":"%char :: write_loop buffer 0 ++ [CR; LF].

(** The loop of [IntelHex::Generate]; the [uint32_t] key is converted to
    the [uint16_t] parameter of [WriteRecord]. *)
Fixpoint Generate_loop (extended : Z) (fData : IntelHex) : list ascii :=
  match fData with
  | [] => []
  | (first, second) :: rest =>
      if negb (Z.land first 0xffff0000 =? extended) then
        let xaddr := [(Z.shiftr first 24) mod 256; (Z.shiftr first 16) mod 256] in
        WriteRecord 4 0 xaddr
          ++ WriteRecord 0 (first mod 2 ^ 16) second
          ++ Generate_loop (Z.land first 0xffff0000) rest
      else
        WriteRecord 0 (first mod 2 ^ 16) second ++ Generate_loop extended rest
  end.

(** [IntelHex::Generate] *)
Definition Generate (fData : IntelHex) : list ascii :=
  Generate_loop 0 fData ++ WriteRecord 1 0 [].

(** The loop of [IntelHex::Cipher]. *)
Fixpoint Cipher_loop (state : list Z) (fData : IntelHex) : IntelHex :=
  match fData with
  | [] => []
  | (first, second) :: rest =>
      let '(state, stream) :=
        Arcfour.arcfour_generate_stream state (List.length second) in
      (first, xor_stream second stream) :: Cipher_loop state rest
  end.

(** [IntelHex::Cipher(key, len)] *)
Definition Cipher (key : list Z) (len : Z) (fData : IntelHex) : IntelHex :=
  let state := Arcfour.arcfour_key_setup key len in
  let '(state, _) := Arcfour.arcfour_generate_stream state 256 in
  Cipher_loop state fData.

End Keyed.

(** ** ihex.h: the text of a [ParseError], and what is sent to [std::cerr] *)

(** [stream << n] for an [int]. *)
Definition decimal (n : Z) : list ascii :=
  list_ascii_of_string (NilZero.string_of_int (Z.to_int n)).

(** [stream << s] for a [const char*]: the characters before the first
    null character. *)
Fixpoint c_str (s : list ascii) : list ascii :=
  match s with
  | [] => []
  | c :: s' => if Ascii.eqb c zero then [] else c :: c_str s'
  end.

(** [ParseError::what]: the text that the constructor builds. *)
Definition what (e : ParseError) : list ascii :=
  list_ascii_of_string "Parse error at " ++ decimal (pe_line e) ++ [":"%char]
    ++ decimal (pe_column e) ++ list_ascii_of_string ": "
    ++ c_str (list_ascii_of_string (pe_message e)) ++ [LF]
    ++ c_str (pe_data e) ++ [LF]
    ++ repeat " "%char (Z.to_nat (pe_column e)) ++ ["^"%char].

(** One statement [std::cerr << ...] of [Read], [Write] or [main].  The
    text of [std::ios_base::failure::what] is left to the C++ library
    and is not part of the message kept here. *)
Inductive diagnostic :=
| cant_read_input
| parse_diagnostic (text : list ascii)
| cant_write_output
| usage (argv0 : string)
| error_reading_keyfile.

(** ** ihex.h, ordered-record revision: [Read] and [Write] *)

Module OrderedFile.

Import Ordered.

(** The loop of [IntelHex::Parse] with the state it leaves: the
    exception thrown, if any, and [fData] as it is then. *)
Fixpoint Parse_run (fuel : nat) (l : Z) (fData : IntelHex) (input : list ascii)
  : option error * IntelHex :=
  match fuel with
  | O => (Some ios_failure, fData)
  | S fuel' =>
      match getline input with
      | None => (Some ios_failure, fData)
      | Some (line, gcount, rest) =>
          match line_bytes l line (gcount - 1) with
          | inl e => (Some (parse_error e), fData)
          | inr buffer =>
              let r := HexRecord_of buffer in
              let fData := fData ++ [r] in
              if type r =? 1 then (None, fData)
              else Parse_run fuel' (l + 1) fData rest
          end
      end
  end.

(** [IntelHex::Read(filename)]; [file] is the content of the file, if it
    can be opened.  The result, the state of the object and the
    messages sent to [std::cerr]. *)
Definition Read (file : option (list ascii)) (fData : IntelHex)
  : bool * IntelHex * list diagnostic :=
  match file with
  | None => (false, fData, [cant_read_input])
  | Some input =>
      match Parse_run (S (List.length input)) 1 [] input with
      | (None, fData) => (true, fData, [])
      | (Some ios_failure, fData) => (false, fData, [cant_read_input])
      | (Some (parse_error e), fData) => (false, fData, [parse_diagnostic (what e)])
      end
  end.

(** [IntelHex::Write(filename)]; [writable] tells whether the file can
    be opened for writing.  The result, the content written, if any,
    and the messages sent to [std::cerr]. *)
Definition Write (writable : bool) (fData : IntelHex)
  : bool * option (list ascii) * list diagnostic :=
  if writable then (true, Some (Generate fData), [])
  else (false, None, [cant_write_output]).

End OrderedFile.

(** ** ihex.h, address-keyed revision: [Read] and [Write] *)

Module KeyedFile.

Import Keyed.

(** The loop of [IntelHex::Parse] with the state it leaves: the
    exception thrown, if any, and [fData] as it is then. *)
Fixpoint Parse_run (fuel : nat) (l extended : Z) (fData : IntelHex)
  (input : list ascii) : option error * IntelHex :=
  match fuel with
  | O => (Some ios_failure, fData)
  | S fuel' =>
      match getline input with
      | None => (Some ios_failure, fData)
      | Some (line, gcount, rest) =>
          match line_bytes l line (gcount - 1) with
          | inl e => (Some (parse_error e), fData)
          | inr buffer =>
              let count := rd buffer 0 in
              let offset := Z.lor (Z.shiftl (rd buffer 1) 8) (rd buffer 2) in
              let type := rd buffer 3 in
              if type =? 0 then
                let first := Z.lor extended offset in
                let second := firstn (Z.to_nat count) (skipn 4 buffer) in
                Parse_run fuel' (l + 1) extended (map_insert first second fData) rest
              else if type =? 1 then
                if negb (count =? 0) then
                  (Some (parse_error
                           (mkParseError l 9 "end-of-file record has data" line)),
                   fData)
                else (None, fData)
              else if type =? 4 then
                if negb (count =? 2) then
                  (Some (parse_error
                           (mkParseError l 9 "wrong size for extended address record"
                              line)),
                   fData)
                else
                  let extended :=
                    (Z.lor (Z.shiftl (rd buffer 4) 24) (Z.shiftl (rd buffer 5) 16))
                      mod 2 ^ 32 in
                  Parse_run fuel' (l + 1) extended fData rest
              else
                (Some (parse_error (mkParseError l 8 "unhandled record type" line)),
                 fData)
          end
      end
  end.

(** [IntelHex::Read(filename)]; [file] is the content of the file, if it
    can be opened. *)
Definition Read (file : option (list ascii)) (fData : IntelHex)
  : bool * IntelHex * list diagnostic :=
  match file with
  | None => (false, fData, [cant_read_input])
  | Some input =>
      match Parse_run (S (List.length input)) 1 0 [] input with
      | (None, fData) => (true, fData, [])
      | (Some ios_failure, fData) => (false, fData, [cant_read_input])
      | (Some (parse_error e), fData) => (false, fData, [parse_diagnostic (what e)])
      end
  end.

(** [IntelHex::Write(filename)]; [writable] tells whether the file can
    be opened for writing. *)
Definition Write (writable : bool) (fData : IntelHex)
  : bool * option (list ascii) * list diagnostic :=
  if writable then (true, Some (Generate fData), [])
  else (false, None, [cant_write_output]).

End KeyedFile.

(** ** The programs: hexcrypt's [main] and the test's [runs] *)

(** The class [IntelHex] as the programs use it, whichever revision of
    ihex.h is included. *)
Record IntelHexClass := {
  object : Type;
  fresh : object;
  Read : option (list ascii) -> object -> bool * object * list diagnostic;
  Write : bool -> object -> bool * option (list ascii) * list diagnostic;
  Cipher : list Z -> Z -> object -> object;
  equal : object -> object -> bool
}.

Definition OrderedIntelHex : IntelHexClass := {|
  object := Ordered.IntelHex;
  fresh := [];
  Read := OrderedFile.Read;
  Write := OrderedFile.Write;
  Cipher := Ordered.Cipher;
  equal := Ordered.IntelHex_eq
|}.

Definition KeyedIntelHex : IntelHexClass := {|
  object := Keyed.IntelHex;
  fresh := [];
  Read := KeyedFile.Read;
  Write := KeyedFile.Write;
  Cipher := Keyed.Cipher;
  equal := Keyed.IntelHex_eq
|}.

(** The files: the content of those that can be opened for reading, and
    which names can be opened for writing. *)
Record filesystem := {
  content : string -> option (list ascii);
  writable : string -> bool
}.

(** The files after [written], if any, has been written to [name]. *)
Definition store_file (fs : filesystem) (name : string)
  (written : option (list ascii)) : filesystem :=
  match written with
  | None => fs
  | Some text =>
      {| content := fun n => if String.eqb n name then Some text else content fs n;
         writable := writable fs |}
  end.

Module Hexcrypt.

(** How [main] ends: the exit status with what was sent to [std::cerr]
    and the files left; or undefined behaviour, for an empty key file,
    on which [arcfour_key_setup] divides by zero. *)
Inductive outcome :=
| exited (status : Z) (cerr : list diagnostic) (fs : filesystem)
| undefined.

(** [main(argc, argv)] with [argc] the length of [argv]. *)
Definition main (H : IntelHexClass) (argv : list string) (fs : filesystem)
  : outcome :=
  match argv with
  | [argv0; argv1; argv2; argv3] =>
      let '(_, file, cerr) := Read H (content fs argv1) (fresh H) in
      match content fs argv2 with
      | None => exited (-2) (cerr ++ [error_reading_keyfile]) fs
      | Some keyfile =>
          let size := Z.of_nat (List.length keyfile) in
          if size =? 0 then undefined
          else
            let key := map ord keyfile in
            let file := Cipher H key size file in
            let '(_, written, cerr') := Write H (writable fs argv3) file in
            exited 0 (cerr ++ cerr') (store_file fs argv3 written)
      end
  | _ => exited (-1) [usage (nth 0 argv EmptyString)] fs
  end.

End Hexcrypt.

Module Test.





(** The key of the tests: the 17 characters and the null character that
    ends the string literal, 18 bytes. *)
Definition key : list Z :=
  map ord (list_ascii_of_string "I'm an unsafe key") ++ [0].


End Test.

(** * Properties *)

(** ** Predicates used in the statements *)

(** A state array of [arcfour]: 256 bytes. *)
Definition state_ok (state : list Z) : Prop :=
  List.length state = 256%nat /\ Forall byte_ok state.

(** Two successive calls of [arcfour_generate_stream], for [n1] and then
    [n2] bytes: the final state and the bytes of both calls. *)
Definition generate_twice (state : list Z) (n1 n2 : nat) : list Z * list Z :=
  let '(state1, out1) := Arcfour.arcfour_generate_stream state n1 in
  let '(state2, out2) := Arcfour.arcfour_generate_stream state1 n2 in
  (state2, out1 ++ out2).

(** The text of a line or a file. *)
Definition text (s : string) : list ascii := list_ascii_of_string s.

(** The value of a hexadecimal digit, as the conversion loop of [Parse]
    computes it. *)
Definition nibble_of (c : ascii) : option Z :=
  let nibble := ord c in
  if (ord "0" <=? nibble) && (nibble <=? ord "9") then Some (nibble - ord "0")
  else if (ord "a" <=? nibble) && (nibble <=? ord "f") then Some (nibble - (ord "a" - 10))
  else if (ord "A" <=? nibble) && (nibble <=? ord "F") then Some (nibble - (ord "A" - 10))
  else None.

Definition sum_bytes (l : list Z) : Z := fold_right Z.add 0 l.

(** The characters of the line written for the bytes of a record, up to
    the carriage return. *)
Definition written_line (bytes : list Z) : list ascii :=
  ":"%char :: flat_map put_byte bytes ++ [CR].

(** The bytes of a record that [Parse] accepts: bytes, of sum zero
    modulo 256, as many as the first of them says. *)
Definition record_bytes_ok (bytes : list Z) : Prop :=
  Forall byte_ok bytes /\ sum_bytes bytes mod 256 = 0
  /\ rd bytes 0 + 5 = Z.of_nat (List.length bytes).

(** A payload that fits a record: at most 255 bytes. *)
Definition payload_ok (v : list Z) : Prop :=
  Forall byte_ok v /\ (List.length v <= 255)%nat.

(** An image of the address-keyed revision: the keys are 32-bit
    addresses in ascending order, each with a payload. *)
Definition image_ok (m : Keyed.IntelHex) : Prop :=
  StronglySorted Z.lt (map fst m)
  /\ Forall (fun kv => 0 <= fst kv < 2 ^ 32 /\ payload_ok (snd kv)) m.

(** The bytes [WriteRecord] puts in its buffer, the checksum it ends
    with included. *)
Definition written_bytes (type address : Z) (data : list Z) : list Z :=
  let header :=
    [Z.of_nat (List.length data) mod 256; Z.shiftr address 8 mod 256;
     address mod 256; type] in
  header ++ data ++ [(0 - sum_bytes (header ++ data)) mod 256].

(** A record of the ordered revision as [Parse] builds it: fields in
    range, as many payload bytes as [size] says, and a checksum that
    brings the sum of the bytes of the record to zero modulo 256. *)
Definition record_ok (r : Ordered.HexRecord) : Prop :=
  byte_ok (Ordered.size r) /\ 0 <= Ordered.address r < 2 ^ 16
  /\ byte_ok (Ordered.type r) /\ Forall byte_ok (Ordered.data r)
  /\ Z.of_nat (List.length (Ordered.data r)) = Ordered.size r
  /\ byte_ok (Ordered.checksum r)
  /\ sum_bytes (Ordered.record_buffer r) mod 256 = 0.

(** An image of the ordered revision as [Parse] returns it: the records
    read, the last of which is the first of type 1. *)
Definition decoded (image : Ordered.IntelHex) : Prop :=
  Forall record_ok image
  /\ exists front last,
       image = front ++ [last]
       /\ Forall (fun r => Ordered.type r <> 1) front
       /\ Ordered.type last = 1.

(** A line of text with its CR LF terminator. *)
Definition text_line (s : string) : list ascii := text s ++ [CR; LF].

(** The records of a file of the address-keyed revision, before the
    end-of-file record. *)
Inductive record :=
| Data (address : Z) (payload : list Z)
| ExtendedLinearAddress (b0 b1 : Z).

Definition record_valid (r : record) : Prop :=
  match r with
  | Data address payload => 0 <= address < 2 ^ 16 /\ payload_ok payload
  | ExtendedLinearAddress b0 b1 => byte_ok b0 /\ byte_ok b1
  end.

(** The line of a record, as [WriteRecord] writes it. *)
Definition write_record (r : record) : list ascii :=
  match r with
  | Data address payload => Keyed.WriteRecord 0 address payload
  | ExtendedLinearAddress b0 b1 => Keyed.WriteRecord 4 0 [b0; b1]
  end.

(** What the records say is stored, in the words of the specification:
    an extended-address record sets the bank to [(b0 << 24) | (b1 << 16)],
    a data record is inserted at [bank | address]. *)
Fixpoint store (bank : Z) (image : Keyed.IntelHex) (rs : list record)
  : Keyed.IntelHex :=
  match rs with
  | [] => image
  | Data address payload :: rs' =>
      store bank (Keyed.map_insert (Z.lor bank address) payload image) rs'
  | ExtendedLinearAddress b0 b1 :: rs' =>
      store (Z.lor (Z.shiftl b0 24) (Z.shiftl b1 16)) image rs'
  end.

(** The bytes and the sum that the conversion loop of [Parse] finds on a
    line of [len] characters, or the error it throws. *)
Definition decoded_bytes (l : Z) (line : list ascii) (len : Z)
  : ParseError + (list Z * Z) :=
  convert (firstn (Z.to_nat (len - 1)) (tl line)) 1 len l line [] 0 0.

(** The error thrown by the test [sum != 0]. *)
Definition checksum_error (l : Z) (line : list ascii) (len : Z) : ParseError :=
  mkParseError l (len - 2) "checksum error" line.

(** The state of the conversion loop after the hexadecimal digits
    [digits], the first of them in column [i]. *)
Fixpoint feed (digits : list ascii) (i : Z) (buffer : list Z) (cur sum : Z)
  : list Z * Z * Z :=
  match digits with
  | [] => (buffer, cur, sum)
  | c :: digits' =>
      match nibble_of c with
      | None => (buffer, cur, sum)
      | Some n =>
          if Z.odd i then feed digits' (i + 1) buffer n sum
          else
            let b := Z.lor (Z.shiftl cur 4 mod 256) n in
            feed digits' (i + 1) (buffer ++ [b]) b ((sum + b) mod 256)
      end
  end.

(** A digit as [Generate] writes it. *)
Definition upper_hex (c : ascii) : bool :=
  let n := ord c in
  ((ord "0" <=? n) && (n <=? ord "9")) || ((ord "A" <=? n) && (n <=? ord "F")).

(** A line in the form [Generate] writes, up to the line feed: a colon,
    an even number of uppercase hexadecimal digits, a carriage return. *)
Definition canonical_line (line : list ascii) : Prop :=
  exists digits,
    line = ":"%char :: digits ++ [CR]
    /\ forallb upper_hex digits = true
    /\ Nat.even (List.length digits) = true.

(** The file made of the given lines, each followed by a line feed. *)
Definition join_lines (lines : list (list ascii)) : list ascii :=
  flat_map (fun line => line ++ [LF]) lines.

(** Overwriting, as the specification words it for two data records at
    the same address: the later record replaces the earlier one. *)
Definition duplicate_overwrites : Prop :=
  forall address p1 p2,
    0 <= address < 2 ^ 16 -> payload_ok p1 -> payload_ok p2 ->
    Keyed.Parse (Keyed.WriteRecord 0 address p1 ++ Keyed.WriteRecord 0 address p2
                   ++ Keyed.WriteRecord 1 0 [])
    = inr [(address, p2)].

(** The lines that the specification expects for one data record at
    address 0 with payload 01 02: the checksum written is 0C. *)
Definition spec_scenario_output : list ascii :=
  text_line ":0200000001020C" ++ text_line ":00000001FF".


(** ** Further definitions used in the statements *)

(** What [Parse] returns or throws, from the state it leaves. *)
Definition result_of {A : Type} (r : option error * A) : error + A :=
  match r with
  | (None, fData) => inr fData
  | (Some e, _) => inl e
  end.

(** The bank after the records [rs], in the words of the specification
    as for [store]. *)
Fixpoint bank_after (bank : Z) (rs : list record) : Z :=
  match rs with
  | [] => bank
  | Data _ _ :: rs' => bank_after bank rs'
  | ExtendedLinearAddress b0 b1 :: rs' =>
      bank_after (Z.lor (Z.shiftl b0 24) (Z.shiftl b1 16)) rs'
  end.


(** The column that a [ParseError] reports is that of a character of
    the line reported which is not a hexadecimal digit. *)
Definition reports_column (e : ParseError) : Prop :=
  1 <= pe_column e
  /\ exists c, nth_error (pe_data e) (Z.to_nat (pe_column e)) = Some c
               /\ nibble_of c = None.

(** The place of an error thrown by the loop of [Parse] started at line
    [l] on the input [s]. *)
Definition error_place (l : Z) (s : list ascii) (e : ParseError) : Prop :=
  (exists lines rest,
     s = join_lines lines ++ pe_data e ++ rest
     /\ l + Z.of_nat (List.length lines) = pe_line e
     /\ Forall (Forall (fun c => c <> LF)) lines
     /\ Forall (fun c => c <> LF) (pe_data e)
     /\ (rest = [] \/ exists rest', rest = LF :: rest'))
  /\ (pe_message e = "not an hexadecimal character"%string -> reports_column e).


(** What [Read] sends to [std::cerr] when the reading ends at the head
    of [rest], at line [l]: the input is at its end, or the line is one
    that the tests made on every line reject. *)
Definition first_line_diagnostic (l : Z) (rest : list ascii) : option diagnostic :=
  match getline rest with
  | None => Some cant_read_input
  | Some (line, gcount, _) =>
      match line_bytes l line (gcount - 1) with
      | inl e => Some (parse_diagnostic (what e))
      | inr _ => None
      end
  end.


(** The image of the address-keyed revision for the records of the
    ordered revision: what the address-keyed [Parse] does with the
    fields of a data record and of an extended-address record. *)
Fixpoint replay (extended : Z) (image : Keyed.IntelHex) (records : Ordered.IntelHex)
  : Keyed.IntelHex :=
  match records with
  | [] => image
  | r :: records' =>
      if Ordered.type r =? 0 then
        replay extended
          (Keyed.map_insert (Z.lor extended (Ordered.address r)) (Ordered.data r) image)
          records'
      else if Ordered.type r =? 4 then
        replay
          ((Z.lor (Z.shiftl (rd (Ordered.data r) 0) 24)
                  (Z.shiftl (rd (Ordered.data r) 1) 16)) mod 2 ^ 32)
          image records'
      else replay extended image records'
  end.
(** ** Bytes and arrays *)

Lemma byte_ok_mod (x : Z) : byte_ok (x mod 256).
Proof. unfold byte_ok. apply Z.mod_pos_bound. lia. Qed.

Lemma byte_cases (P : Z -> Prop) :
  Forall P (map Z.of_nat (seq 0 256)) -> forall b, byte_ok b -> P b.
Proof.
  intros H b [Hlo Hhi]. rewrite Forall_forall in H. apply H.
  apply in_map_iff. exists (Z.to_nat b). split; [lia |].
  apply in_seq. lia.
Qed.

Lemma nibble_cases (P : Z -> Prop) :
  Forall P (map Z.of_nat (seq 0 16)) -> forall n, 0 <= n < 16 -> P n.
Proof.
  intros H n [Hlo Hhi]. rewrite Forall_forall in H. apply H.
  apply in_map_iff. exists (Z.to_nat n). split; [lia |].
  apply in_seq. lia.
Qed.

Lemma byte_ok_lxor (a b : Z) : byte_ok a -> byte_ok b -> byte_ok (Z.lxor a b).
Proof.
  intros [Ha Ha'] [Hb Hb']. unfold byte_ok. split.
  - apply Z.lxor_nonneg. lia.
  - destruct (Z.eq_dec (Z.lxor a b) 0) as [E | E]; [lia |].
    assert (Hnn : 0 <= Z.lxor a b) by (apply Z.lxor_nonneg; lia).
    change 256 with (2 ^ 8). apply Z.log2_lt_pow2; [lia |].
    assert (Hl : forall x, 0 <= x < 256 -> Z.log2 x < 8).
    { intros x Hx. destruct (Z.eq_dec x 0) as [-> | Hx0]; [reflexivity |].
      apply Z.log2_lt_pow2; lia. }
    pose proof (Z.log2_lxor a b Ha Hb).
    pose proof (Hl a (conj Ha Ha')). pose proof (Hl b (conj Hb Hb')). lia.
Qed.

Lemma lxor_cancel (d s : Z) :
  byte_ok d -> byte_ok s -> Z.lxor (Z.lxor d s mod 256) s mod 256 = d.
Proof.
  intros Hd Hs. pose proof (byte_ok_lxor d s Hd Hs) as Hx.
  rewrite (Z.mod_small (Z.lxor d s)) by exact Hx.
  rewrite Z.lxor_assoc, Z.lxor_nilpotent, Z.lxor_0_r.
  apply Z.mod_small. exact Hd.
Qed.

Lemma wr_nat_length (a : list Z) (i : nat) (v : Z) :
  List.length (wr_nat a i v) = List.length a.
Proof.
  revert i. induction a as [| h t IH]; intros [| i]; simpl; auto.
Qed.

Lemma wr_nat_Forall (P : Z -> Prop) (a : list Z) (i : nat) (v : Z) :
  P v -> Forall P a -> Forall P (wr_nat a i v).
Proof.
  intros Hv Ha. revert i.
  induction Ha as [| h t Hh Ht IH]; intros [| i]; simpl; auto.
Qed.

Lemma rd_Forall (P : Z -> Prop) (a : list Z) (i : Z) :
  Forall P a -> (Z.to_nat i < List.length a)%nat -> P (rd a i).
Proof.
  intros Ha Hi. unfold rd. rewrite Forall_forall in Ha.
  apply Ha. apply nth_In. exact Hi.
Qed.

(** ** The keystream generator *)

Section Keystream.

Import Arcfour.

Lemma rd_state (state : list Z) (i : Z) :
  state_ok state -> 0 <= i < 256 -> byte_ok (rd state i).
Proof.
  intros [Hlen Hall] Hi. apply rd_Forall; [exact Hall | lia].
Qed.

Lemma swap_ok (state : list Z) (i j : Z) :
  state_ok state -> 0 <= i < 256 -> 0 <= j < 256 -> state_ok (swap state i j).
Proof.
  intros Hs Hi Hj. pose proof (rd_state state i Hs Hi).
  pose proof (rd_state state j Hs Hj). destruct Hs as [Hlen Hall].
  unfold swap, wr. split.
  - now rewrite !wr_nat_length.
  - apply wr_nat_Forall; [assumption |]. apply wr_nat_Forall; assumption.
Qed.

Lemma identity_state_ok : state_ok identity_state.
Proof.
  split; [reflexivity |]. unfold identity_state.
  apply Forall_forall. intros x Hx. apply in_map_iff in Hx.
  destruct Hx as [k [<- Hk]]. apply in_seq in Hk. unfold byte_ok. lia.
Qed.

Lemma key_setup_loop_ok (n : nat) :
  forall i j state key len,
    state_ok state -> 0 <= i -> i + Z.of_nat n <= 256 ->
    state_ok (key_setup_loop n i j state key len).
Proof.
  induction n as [| n IH]; intros i j state key len Hs Hi Hn; simpl.
  - exact Hs.
  - apply IH; [| lia | lia].
    apply swap_ok; [exact Hs | lia |]. apply Z.mod_pos_bound. lia.
Qed.

Lemma arcfour_key_setup_ok (key : list Z) (len : Z) :
  state_ok (arcfour_key_setup key len).
Proof.
  unfold arcfour_key_setup.
  apply key_setup_loop_ok; [apply identity_state_ok | lia | simpl; lia].
Qed.

Lemma generate_from_ok (n : nat) :
  forall i j state i' j' state' out,
    state_ok state ->
    generate_from n i j state = (i', j', state', out) ->
    state_ok state' /\ Forall byte_ok out /\ List.length out = n.
Proof.
  induction n as [| n IH]; intros i j state i' j' state' out Hs H; simpl in H.
  - inversion H; subst. auto.
  - set (i1 := (i + 1) mod 256) in *.
    set (j1 := (j + rd state i1) mod 256) in *.
    assert (Hi1 : 0 <= i1 < 256) by (apply Z.mod_pos_bound; lia).
    assert (Hj1 : 0 <= j1 < 256) by (apply Z.mod_pos_bound; lia).
    pose proof (swap_ok state i1 j1 Hs Hi1 Hj1) as Hs1.
    destruct (generate_from n i1 j1 (swap state i1 j1))
      as [[[i2 j2] state2] out2] eqn:E.
    inversion H; subst.
    destruct (IH _ _ _ _ _ _ _ Hs1 E) as [Hs2 [Ho2 Hl2]].
    split; [exact Hs2 |]. split; [| simpl; now rewrite Hl2].
    constructor; [| exact Ho2].
    apply rd_state; [exact Hs1 |]. apply Z.mod_pos_bound. lia.
Qed.

Lemma arcfour_generate_stream_ok (state : list Z) (len : nat) :
  forall state' out,
    state_ok state ->
    arcfour_generate_stream state len = (state', out) ->
    state_ok state' /\ Forall byte_ok out /\ List.length out = len.
Proof.
  intros state' out Hs H. unfold arcfour_generate_stream in H.
  destruct (generate_from len 0 0 state) as [[[i' j'] s'] o'] eqn:E.
  inversion H; subst. eapply generate_from_ok; eauto.
Qed.

(** With the two counters handed on from one call to the next, two
    calls do produce what one call for the total length produces. *)
Lemma generate_from_app (n1 n2 : nat) :
  forall i j state,
    generate_from (n1 + n2) i j state =
    let '(i1, j1, state1, out1) := generate_from n1 i j state in
    let '(i2, j2, state2, out2) := generate_from n2 i1 j1 state1 in
    (i2, j2, state2, out1 ++ out2).
Proof.
  induction n1 as [| n1 IH]; intros i j state.
  - simpl. now destruct (generate_from n2 i j state) as [[[? ?] ?] ?].
  - simpl. rewrite IH.
    destruct (generate_from n1 _ _ _) as [[[i1 j1] state1] out1].
    now destruct (generate_from n2 i1 j1 state1) as [[[? ?] ?] ?].
Qed.

End Keystream.

(** ** The conversion loop *)

Lemma byte_cases_bool (f : Z -> bool) :
  forallb f (map Z.of_nat (seq 0 256)) = true -> forall b, byte_ok b -> f b = true.
Proof.
  intros H b Hb. revert b Hb. apply byte_cases.
  apply Forall_forall. intros x Hx. rewrite forallb_forall in H. now apply H.
Qed.

Lemma nibble_cases_bool (f : Z -> bool) :
  forallb f (map Z.of_nat (seq 0 16)) = true -> forall n, 0 <= n < 16 -> f n = true.
Proof.
  intros H n Hn. revert n Hn. apply nibble_cases.
  apply Forall_forall. intros x Hx. rewrite forallb_forall in H. now apply H.
Qed.

Lemma nibble_of_range (c : ascii) (n : Z) : nibble_of c = Some n -> 0 <= n < 16.
Proof.
  unfold nibble_of. cbv zeta.
  change (ord "0") with 48; change (ord "9") with 57; change (ord "a") with 97;
  change (ord "f") with 102; change (ord "A") with 65; change (ord "F") with 70.
  destruct ((48 <=? ord c) && (ord c <=? 57)) eqn:E1;
    [| destruct ((97 <=? ord c) && (ord c <=? 102)) eqn:E2;
       [| destruct ((65 <=? ord c) && (ord c <=? 70)) eqn:E3]];
    intros H; inversion H; subst; clear H; lia.
Qed.

Lemma byte_ok_pack (cur n : Z) :
  0 <= n < 16 -> byte_ok (Z.lor (Z.shiftl cur 4 mod 256) n).
Proof.
  intros Hn. pose proof (byte_ok_mod (Z.shiftl cur 4)) as Hb.
  generalize dependent (Z.shiftl cur 4 mod 256). intros x Hx.
  pose proof (byte_cases_bool
    (fun x => forallb (fun n => (0 <=? Z.lor x n) && (Z.lor x n <? 256))
                (map Z.of_nat (seq 0 16)))
    ltac:(vm_compute; reflexivity) x Hx) as H.
  cbv beta in H. rewrite forallb_forall in H.
  assert (Hin : In n (map Z.of_nat (seq 0 16))).
  { apply in_map_iff. exists (Z.to_nat n). split; [lia |]. apply in_seq. lia. }
  specialize (H n Hin). unfold byte_ok. lia.
Qed.

Section Convert.

Variables (len l : Z) (line : list ascii).

Lemma convert_hex_odd c cs i buffer cur sum n :
  nibble_of c = Some n -> Z.odd i = true ->
  convert (c :: cs) i len l line buffer cur sum
  = convert cs (i + 1) len l line buffer n sum.
Proof.
  intros H Hi. unfold nibble_of in H. cbv zeta in H. cbn [convert]. cbv zeta.
  rewrite Hi.
  destruct ((ord "0" <=? ord c) && (ord c <=? ord "9"));
    [| destruct ((ord "a" <=? ord c) && (ord c <=? ord "f"));
       [| destruct ((ord "A" <=? ord c) && (ord c <=? ord "F"))]];
    inversion H; reflexivity.
Qed.

Lemma convert_hex_even c cs i buffer cur sum n :
  nibble_of c = Some n -> Z.odd i = false ->
  convert (c :: cs) i len l line buffer cur sum
  = let b := Z.lor (Z.shiftl cur 4 mod 256) n in
    convert cs (i + 1) len l line (buffer ++ [b]) b ((sum + b) mod 256).
Proof.
  intros H Hi. unfold nibble_of in H. cbv zeta in H. cbn [convert]. cbv zeta.
  rewrite Hi.
  destruct ((ord "0" <=? ord c) && (ord c <=? ord "9"));
    [| destruct ((ord "a" <=? ord c) && (ord c <=? ord "f"));
       [| destruct ((ord "A" <=? ord c) && (ord c <=? ord "F"))]];
    inversion H; reflexivity.
Qed.

Lemma convert_not_hex c cs i buffer cur sum :
  nibble_of c = None ->
  convert (c :: cs) i len l line buffer cur sum
  = if (ord c =? ord CR) && (i =? len - 1) then inr (buffer, sum)
    else inl (mkParseError l i "not an hexadecimal character" line).
Proof.
  intros H. unfold nibble_of in H. cbv zeta in H. cbn [convert]. cbv zeta.
  destruct ((ord "0" <=? ord c) && (ord c <=? ord "9"));
    [| destruct ((ord "a" <=? ord c) && (ord c <=? ord "f"));
       [| destruct ((ord "A" <=? ord c) && (ord c <=? ord "F"))]];
    try discriminate; reflexivity.
Qed.

(** At an odd column the half-built byte is about to be overwritten. *)
Lemma convert_odd_cur cs i buffer cur cur' sum :
  Z.odd i = true ->
  convert cs i len l line buffer cur sum = convert cs i len l line buffer cur' sum.
Proof.
  intros Hi. destruct cs as [| c cs]; [reflexivity |].
  destruct (nibble_of c) as [n |] eqn:E.
  - now rewrite !(convert_hex_odd _ _ _ _ _ _ n E Hi).
  - now rewrite !convert_not_hex by exact E.
Qed.

Lemma sum_bytes_app (a b : list Z) : sum_bytes (a ++ b) = sum_bytes a + sum_bytes b.
Proof. induction a as [| x a IH]; simpl; [reflexivity | rewrite IH; lia]. Qed.

(** What the loop maintains: the buffer holds bytes, and [sum] is their
    sum modulo 256. *)
Lemma convert_inv cs :
  forall i buffer cur sum buffer' sum',
    convert cs i len l line buffer cur sum = inr (buffer', sum') ->
    Forall byte_ok buffer -> sum = sum_bytes buffer mod 256 ->
    Forall byte_ok buffer' /\ sum' = sum_bytes buffer' mod 256.
Proof.
  induction cs as [| c cs IH]; intros i buffer cur sum buffer' sum' H Hb Hs.
  - simpl in H. inversion H; subst. auto.
  - destruct (nibble_of c) as [n |] eqn:E.
    + pose proof (nibble_of_range c n E) as Hn.
      destruct (Z.odd i) eqn:Hi.
      * rewrite (convert_hex_odd _ _ _ _ _ _ n E Hi) in H. eapply IH; eauto.
      * rewrite (convert_hex_even _ _ _ _ _ _ n E Hi) in H. cbv zeta in H.
        eapply IH; [exact H | |].
        -- apply Forall_app. split; [exact Hb |].
           constructor; [now apply byte_ok_pack | constructor].
        -- rewrite sum_bytes_app. simpl. subst sum.
           rewrite Z.add_0_r. now rewrite Zplus_mod_idemp_l.
    + rewrite convert_not_hex in H by exact E.
      destruct ((ord c =? ord CR) && (i =? len - 1)); [| discriminate].
      inversion H; subst. auto.
Qed.

End Convert.

(** ** One line *)

Lemma line_bytes_inv (l : Z) (line : list ascii) (len : Z) (buffer : list Z) :
  line_bytes l line len = inr buffer ->
  Forall byte_ok buffer /\ sum_bytes buffer mod 256 = 0
  /\ rd buffer 0 + 5 = Z.of_nat (List.length buffer).
Proof.
  unfold line_bytes. intros H.
  destruct ((len <? 10) || negb (Ascii.eqb (nth 0 line zero) ":")); [discriminate |].
  destruct (convert _ 1 len l line [] 0 0) as [e | [buf sum]] eqn:E; [discriminate |].
  destruct (sum =? 0) eqn:Hsum; [| discriminate]. cbn [negb] in H. cbv zeta in H.
  destruct (rd buf 0 + 5 =? Z.of_nat (List.length buf)) eqn:Hc; [| discriminate].
  cbn [negb] in H. inversion H; subst buf; clear H.
  destruct (convert_inv len l line _ _ _ _ _ _ _ E (Forall_nil _) eq_refl) as [Hb Hs].
  apply Z.eqb_eq in Hsum. apply Z.eqb_eq in Hc. subst sum. auto.
Qed.

Lemma put_byte_read (b : Z) :
  byte_ok b ->
  nibble_of (hex_digit (Z.shiftr b 4)) = Some (Z.shiftr b 4)
  /\ nibble_of (hex_digit (Z.land b 15)) = Some (Z.land b 15)
  /\ Z.lor (Z.shiftl (Z.shiftr b 4) 4 mod 256) (Z.land b 15) = b.
Proof.
  intros Hb.
  pose proof (byte_cases_bool
    (fun b =>
       match nibble_of (hex_digit (Z.shiftr b 4)), nibble_of (hex_digit (Z.land b 15)) with
       | Some n1, Some n2 =>
           (n1 =? Z.shiftr b 4) && (n2 =? Z.land b 15)
           && (Z.lor (Z.shiftl (Z.shiftr b 4) 4 mod 256) (Z.land b 15) =? b)
       | _, _ => false
       end) ltac:(vm_compute; reflexivity) b Hb) as H.
  cbv beta in H.
  destruct (nibble_of (hex_digit (Z.shiftr b 4))) as [n1 |]; [| discriminate].
  destruct (nibble_of (hex_digit (Z.land b 15))) as [n2 |]; [| discriminate].
  apply andb_prop in H. destruct H as [H H3]. apply andb_prop in H.
  destruct H as [H1 H2]. apply Z.eqb_eq in H1, H2, H3. now subst.
Qed.

Lemma hex_digit_plain (n : Z) :
  0 <= n < 16 ->
  hex_digit n <> LF /\ hex_digit n <> CR /\ hex_digit n <> ":"%char.
Proof.
  intros Hn.
  pose proof (nibble_cases_bool
    (fun n => negb (Ascii.eqb (hex_digit n) LF) && negb (Ascii.eqb (hex_digit n) CR)
              && negb (Ascii.eqb (hex_digit n) ":"))
    ltac:(vm_compute; reflexivity) n Hn) as H.
  cbv beta in H. apply andb_prop in H. destruct H as [H H3].
  apply andb_prop in H. destruct H as [H1 H2].
  rewrite negb_true_iff in H1, H2, H3. rewrite Ascii.eqb_neq in H1, H2, H3. auto.
Qed.

Lemma nibbles_of_byte (b : Z) :
  byte_ok b -> 0 <= Z.shiftr b 4 < 16 /\ 0 <= Z.land b 15 < 16.
Proof.
  intros Hb.
  pose proof (byte_cases_bool
    (fun b => (0 <=? Z.shiftr b 4) && (Z.shiftr b 4 <? 16)
              && (0 <=? Z.land b 15) && (Z.land b 15 <? 16))
    ltac:(vm_compute; reflexivity) b Hb) as H.
  cbv beta in H. lia.
Qed.

Lemma put_bytes_plain (bytes : list Z) :
  Forall byte_ok bytes ->
  Forall (fun c => c <> LF) (flat_map put_byte bytes).
Proof.
  induction 1 as [| b bytes Hb _ IH]; simpl; [constructor |].
  destruct (nibbles_of_byte b Hb) as [H1 H2].
  constructor; [apply hex_digit_plain, H1 |].
  constructor; [apply hex_digit_plain, H2 | exact IH].
Qed.

Lemma put_bytes_length (bytes : list Z) :
  List.length (flat_map put_byte bytes) = (2 * List.length bytes)%nat.
Proof. induction bytes as [| b bytes IH]; simpl; [reflexivity | rewrite IH; lia]. Qed.

(** Reading back the characters written for a sequence of bytes. *)
Lemma convert_put_bytes (len l : Z) (line : list ascii) (bytes : list Z) :
  forall tail i buffer cur sum,
    Z.odd i = true -> Forall byte_ok bytes -> byte_ok sum ->
    convert (flat_map put_byte bytes ++ tail) i len l line buffer cur sum
    = convert tail (i + 2 * Z.of_nat (List.length bytes)) len l line
        (buffer ++ bytes) 0 ((sum + sum_bytes bytes) mod 256).
Proof.
  induction bytes as [| b bytes IH]; intros tail i buffer cur sum Hi Hb Hs.
  - simpl. rewrite app_nil_r, !Z.add_0_r, (Z.mod_small sum) by exact Hs.
    now apply convert_odd_cur.
  - inversion Hb as [| ? ? Hb1 Hb2]; subst.
    destruct (put_byte_read b Hb1) as [E1 [E2 E3]].
    cbn [flat_map put_byte app].
    rewrite (convert_hex_odd _ _ _ _ _ _ _ _ _ _ E1 Hi).
    assert (Hi1 : Z.odd (i + 1) = false).
    { rewrite Z.odd_add, Hi. reflexivity. }
    rewrite (convert_hex_even _ _ _ _ _ _ _ _ _ _ E2 Hi1). cbv zeta. rewrite E3.
    assert (Hi2 : Z.odd (i + 1 + 1) = true).
    { rewrite Z.odd_add, Hi1. reflexivity. }
    rewrite IH by (try assumption; apply byte_ok_mod).
    rewrite <- app_assoc. cbn [app]. f_equal.
    + simpl List.length. lia.
    + simpl. rewrite Zplus_mod_idemp_l. f_equal. lia.
Qed.

Lemma getline_scan_line (line rest : list ascii) :
  forall room,
    Forall (fun c => c <> LF) line -> (List.length line <= room)%nat ->
    getline_scan room (line ++ LF :: rest)
    = Some (line, Z.of_nat (List.length line) + 1, rest).
Proof.
  induction line as [| c line IH]; intros room Hl Hr.
  - cbn [app getline_scan]. now rewrite Ascii.eqb_refl.
  - inversion Hl as [| ? ? Hc Hl']; subst. simpl in Hr.
    destruct room as [| room]; [lia |].
    cbn [app getline_scan]. apply Ascii.eqb_neq in Hc. rewrite Hc.
    rewrite IH by (try assumption; lia). f_equal. f_equal. f_equal.
    simpl List.length. lia.
Qed.

Lemma getline_line (line rest : list ascii) :
  Forall (fun c => c <> LF) line -> (List.length line <= 1025)%nat ->
  getline (line ++ LF :: rest) = Some (line, Z.of_nat (List.length line) + 1, rest).
Proof.
  intros Hl Hr. unfold getline.
  destruct (line ++ LF :: rest) eqn:E; [now destruct line |].
  rewrite <- E. now apply getline_scan_line.
Qed.

Lemma getline_scan_shorter (s : list ascii) :
  forall room line gcount rest,
    getline_scan room s = Some (line, gcount, rest) ->
    (List.length rest <= List.length s)%nat
    /\ (s <> [] -> (List.length rest < List.length s)%nat).
Proof.
  induction s as [| c s IH]; intros room line gcount rest H; simpl in H.
  - inversion H; subst. split; [lia | congruence].
  - destruct (Ascii.eqb c LF).
    + inversion H; subst. simpl. split; [lia | intros _; lia].
    + destruct room as [| room]; [discriminate |].
      destruct (getline_scan room s) as [[[line' g'] rest'] |] eqn:E; [| discriminate].
      inversion H; subst. destruct (IH _ _ _ _ E) as [Hle _].
      simpl. split; [lia | intros _; lia].
Qed.

Lemma getline_shorter (s line rest : list ascii) (gcount : Z) :
  getline s = Some (line, gcount, rest) -> (List.length rest < List.length s)%nat.
Proof.
  unfold getline. destruct s as [| c s]; [discriminate |]. intros H.
  apply getline_scan_shorter in H. apply H. discriminate.
Qed.

Lemma record_bytes_length (bytes : list Z) :
  record_bytes_ok bytes -> (5 <= List.length bytes <= 260)%nat.
Proof.
  intros [Hb [_ Hc]]. destruct bytes as [| b bytes]; [simpl in Hc; unfold rd in Hc; simpl in Hc; lia |].
  inversion Hb as [| ? ? Hb1 _]; subst. unfold rd in Hc. simpl nth in Hc.
  unfold byte_ok in Hb1. lia.
Qed.

Lemma getline_written (bytes : list Z) (rest : list ascii) :
  record_bytes_ok bytes ->
  getline (":"%char :: flat_map put_byte bytes ++ [CR; LF] ++ rest)
  = Some (written_line bytes, Z.of_nat (List.length (written_line bytes)) + 1, rest).
Proof.
  intros Hok. pose proof (record_bytes_length bytes Hok) as Hlen.
  destruct Hok as [Hb _].
  change (":"%char :: flat_map put_byte bytes ++ [CR; LF] ++ rest)
    with (":"%char :: flat_map put_byte bytes ++ [CR] ++ LF :: rest).
  rewrite app_assoc, app_comm_cons. apply getline_line.
  - constructor; [intros E; vm_compute in E; discriminate |].
    apply Forall_app. split; [now apply put_bytes_plain |].
    constructor; [intros E; vm_compute in E; discriminate | constructor].
  - simpl. rewrite length_app, put_bytes_length. simpl. lia.
Qed.

Lemma line_bytes_written (l : Z) (bytes : list Z) :
  record_bytes_ok bytes ->
  line_bytes l (written_line bytes)
    (Z.of_nat (List.length (written_line bytes)) + 1 - 1) = inr bytes.
Proof.
  intros Hok. pose proof (record_bytes_length bytes Hok) as Hlen.
  destruct Hok as [Hb [Hs Hc]].
  assert (Hl : List.length (written_line bytes) = (2 * List.length bytes + 2)%nat).
  { unfold written_line. simpl. rewrite length_app, put_bytes_length. simpl. lia. }
  rewrite Hl. unfold line_bytes.
  replace (Z.of_nat (2 * List.length bytes + 2) + 1 - 1 <? 10) with false
    by (symmetry; apply Z.ltb_ge; lia).
  cbn [written_line nth tl orb]. rewrite Ascii.eqb_refl. cbn [negb].
  rewrite firstn_all2 by (rewrite length_app, put_bytes_length; simpl; lia).
  rewrite convert_put_bytes by (try assumption; try reflexivity; unfold byte_ok; lia).
  rewrite convert_not_hex by reflexivity.
  rewrite Z.eqb_refl. cbn [andb app].
  replace (1 + 2 * Z.of_nat (List.length bytes)
           =? Z.of_nat (2 * List.length bytes + 2) + 1 - 1 - 1) with true
    by (symmetry; apply Z.eqb_eq; lia).
  rewrite Z.add_0_l, Hs. cbn [Z.eqb negb]. cbv zeta.
  replace (rd bytes 0 + 5 =? Z.of_nat (List.length bytes)) with true
    by (symmetry; apply Z.eqb_eq; exact Hc).
  reflexivity.
Qed.

(** ** Addresses *)

Lemma testbit_above (a k n : Z) :
  0 <= a < 2 ^ k -> k <= n -> Z.testbit a n = false.
Proof.
  intros [Ha Hk] Hn. destruct (Z.eq_dec a 0) as [-> | Hz]; [apply Z.bits_0 |].
  apply Z.bits_above_log2; [exact Ha |].
  assert (Z.log2 a < k); [| lia].
  apply Z.log2_lt_pow2; lia.
Qed.

Ltac tb_step :=
  match goal with
  | |- context [Z.testbit (Z.lor _ _) _] => rewrite Z.lor_spec
  | |- context [Z.testbit (Z.land _ _) _] => rewrite Z.land_spec
  | |- context [Z.testbit (_ mod 2 ^ _) _] => rewrite Z.testbit_mod_pow2 by lia
  | |- context [Z.testbit (Z.ones _) _] => rewrite Z.testbit_ones by lia
  | |- context [Z.testbit (Z.shiftl ?a ?k) ?m] =>
      destruct (Z.lt_ge_cases m 0);
      [ rewrite (Z.testbit_neg_r (Z.shiftl a k) m) by lia
      | rewrite (Z.shiftl_spec a k m) by lia ]
  | |- context [Z.testbit (Z.shiftr ?a ?k) ?m] =>
      destruct (Z.lt_ge_cases m 0);
      [ rewrite (Z.testbit_neg_r (Z.shiftr a k) m) by lia
      | rewrite (Z.shiftr_spec a k m) by lia ]
  end.

Ltac tb_leaf n :=
  match goal with
  | |- context [Z.testbit ?a ?m] =>
      lazymatch m with n => fail | _ => idtac end;
      first [ replace m with n by lia
            | rewrite (Z.testbit_neg_r a m) by lia ]
  | |- context [?a <? ?b] => destruct (Z.ltb_spec a b)
  | |- context [?a <=? ?b] => destruct (Z.leb_spec a b)
  end.

(** Equality of two integers shown bit by bit; [a] is the one variable
    of the equation, below [2 ^ k]. *)
Ltac bits a k H :=
  let n := fresh "n" in let Hn := fresh "Hn" in
  apply Z.bits_inj'; intros n Hn;
  repeat tb_step; repeat tb_leaf n;
  cbn [andb orb]; rewrite ?andb_false_r, ?orb_false_r, ?andb_true_r, ?orb_false_l;
  try reflexivity; try lia;
  try (rewrite (testbit_above a k n H) by lia; reflexivity);
  try (destruct (Z.testbit a n); reflexivity).

Lemma bank_of_key (first : Z) :
  0 <= first < 2 ^ 32 ->
  Z.lor (Z.shiftl (Z.shiftr first 24 mod 256) 24)
        (Z.shiftl (Z.shiftr first 16 mod 256) 16) mod 2 ^ 32
  = Z.land first 0xffff0000.
Proof.
  intros H. change 0xffff0000 with (Z.shiftl (Z.ones 16) 16).
  change 256 with (2 ^ 8). bits first 32 H.
Qed.

Lemma lor_range (k a b : Z) :
  0 <= k -> 0 <= a < 2 ^ k -> 0 <= b < 2 ^ k -> 0 <= Z.lor a b < 2 ^ k.
Proof.
  intros Hk Ha Hb.
  assert (Hnn : 0 <= Z.lor a b) by (apply Z.lor_nonneg; lia).
  split; [exact Hnn |].
  destruct (Z.eq_dec (Z.lor a b) 0) as [-> | Hz]; [lia |].
  apply Z.log2_lt_pow2; [lia |]. rewrite Z.log2_lor by lia.
  assert (Hl : forall x, 0 <= x < 2 ^ k -> x <> 0 -> Z.log2 x < k).
  { intros x Hx Hx0. apply Z.log2_lt_pow2; lia. }
  destruct (Z.eq_dec a 0) as [-> | Ha0]; destruct (Z.eq_dec b 0) as [-> | Hb0];
    try (now elim Hz); change (Z.log2 0) with 0.
  - pose proof (Hl b Hb Hb0). pose proof (Z.log2_nonneg b). lia.
  - pose proof (Hl a Ha Ha0). pose proof (Z.log2_nonneg a). lia.
  - pose proof (Hl a Ha Ha0). pose proof (Hl b Hb Hb0). lia.
Qed.

Lemma offset_in_range (b1 b2 : Z) :
  byte_ok b1 -> byte_ok b2 -> 0 <= Z.lor (Z.shiftl b1 8) b2 < 2 ^ 16.
Proof.
  intros H1 H2. unfold byte_ok in *. apply lor_range; [lia | | lia].
  rewrite Z.shiftl_mul_pow2 by lia. lia.
Qed.

(** ** The address-keyed revision: reading what was written *)

Section KeyedLines.

Import Keyed.

Lemma address_bytes (a : Z) :
  0 <= a < 2 ^ 16 -> Z.lor (Z.shiftl (Z.shiftr a 8 mod 256) 8) (a mod 256) = a.
Proof. intros H. change 256 with (2 ^ 8). bits a 16 H. Qed.

Lemma write_loop_bytes (buffer : list Z) :
  forall chk, byte_ok chk ->
    write_loop buffer chk
    = flat_map put_byte (buffer ++ [(chk - sum_bytes buffer) mod 256]).
Proof.
  induction buffer as [| b buffer IH]; intros chk Hc.
  - simpl. rewrite Z.sub_0_r, Z.mod_small by exact Hc. reflexivity.
  - cbn [write_loop app flat_map]. rewrite IH by apply byte_ok_mod.
    f_equal. f_equal. f_equal. f_equal. cbn [sum_bytes fold_right].
    rewrite Zminus_mod_idemp_l. f_equal. unfold sum_bytes. lia.
Qed.

Lemma WriteRecord_written (type address : Z) (data : list Z) :
  WriteRecord type address data
  = ":"%char :: flat_map put_byte (written_bytes type address data) ++ [CR; LF].
Proof.
  unfold WriteRecord, written_bytes. cbv zeta.
  rewrite write_loop_bytes by (unfold byte_ok; lia).
  now rewrite <- app_assoc.
Qed.

Lemma written_bytes_ok (type address : Z) (data : list Z) :
  byte_ok type -> payload_ok data ->
  record_bytes_ok (written_bytes type address data).
Proof.
  intros Ht [Hd Hl]. unfold written_bytes. cbv zeta.
  set (header := [_; _; _; _]).
  assert (Hh : Forall byte_ok header).
  { subst header. repeat constructor; try apply byte_ok_mod; apply Ht. }
  repeat split.
  - apply Forall_app. split; [exact Hh |]. apply Forall_app. split; [exact Hd |].
    constructor; [apply byte_ok_mod | constructor].
  - rewrite app_assoc, sum_bytes_app.
    replace (sum_bytes [(0 - sum_bytes (header ++ data)) mod 256])
      with ((0 - sum_bytes (header ++ data)) mod 256) by (simpl; lia).
    rewrite Zplus_mod_idemp_r.
    replace (sum_bytes (header ++ data) + (0 - sum_bytes (header ++ data)))
      with 0 by lia.
    reflexivity.
  - subst header. unfold rd. cbn [app Z.to_nat nth]. cbn [List.length].
    rewrite length_app. cbn [List.length]. rewrite Z.mod_small by lia. lia.
Qed.

Lemma written_payload (type address : Z) (data : list Z) :
  payload_ok data ->
  firstn (Z.to_nat (rd (written_bytes type address data) 0))
    (skipn 4 (written_bytes type address data)) = data.
Proof.
  intros [_ Hl]. unfold written_bytes, rd. cbn [app Z.to_nat nth skipn].
  rewrite Z.mod_small by lia. rewrite Nat2Z.id.
  rewrite firstn_app, Nat.sub_diag, firstn_all. cbn [firstn]. apply app_nil_r.
Qed.

Lemma written_rd1 type address data :
  rd (written_bytes type address data) 1 = Z.shiftr address 8 mod 256.
Proof. reflexivity. Qed.

Lemma written_rd2 type address data :
  rd (written_bytes type address data) 2 = address mod 256.
Proof. reflexivity. Qed.

Lemma written_rd3 type address data :
  rd (written_bytes type address data) 3 = type.
Proof. reflexivity. Qed.

Variables (fuel : nat) (l extended : Z) (fData : IntelHex) (rest : list ascii).

Lemma Parse_written type address data :
  byte_ok type -> payload_ok data ->
  getline (WriteRecord type address data ++ rest)
  = Some (written_line (written_bytes type address data),
          Z.of_nat (List.length (written_line (written_bytes type address data))) + 1,
          rest)
  /\ line_bytes l (written_line (written_bytes type address data))
       (Z.of_nat (List.length (written_line (written_bytes type address data))) + 1 - 1)
     = inr (written_bytes type address data).
Proof.
  intros Ht Hd. pose proof (written_bytes_ok type address data Ht Hd) as Hok.
  split.
  - rewrite WriteRecord_written. cbn [app]. rewrite <- app_assoc.
    now apply getline_written.
  - now apply line_bytes_written.
Qed.

Lemma Parse_data_record address data :
  0 <= address < 2 ^ 16 -> payload_ok data ->
  Parse_loop (S fuel) l extended fData (WriteRecord 0 address data ++ rest)
  = Parse_loop fuel (l + 1) extended
      (map_insert (Z.lor extended address) data fData) rest.
Proof.
  intros Ha Hd.
  destruct (Parse_written 0 address data ltac:(unfold byte_ok; lia) Hd) as [Hg Hb].
  cbn [Parse_loop]. rewrite Hg, Hb. cbv zeta.
  rewrite written_payload by exact Hd.
  rewrite written_rd1, written_rd2, written_rd3, address_bytes by exact Ha.
  reflexivity.
Qed.

Lemma Parse_eof_record :
  Parse_loop (S fuel) l extended fData (WriteRecord 1 0 [] ++ rest) = inr fData.
Proof.
  assert (Hd : payload_ok []) by (split; [constructor | simpl; lia]).
  destruct (Parse_written 1 0 [] ltac:(unfold byte_ok; lia) Hd) as [Hg Hb].
  cbn [Parse_loop]. rewrite Hg, Hb. reflexivity.
Qed.

Lemma Parse_extended_record b0 b1 :
  byte_ok b0 -> byte_ok b1 ->
  Parse_loop (S fuel) l extended fData (WriteRecord 4 0 [b0; b1] ++ rest)
  = Parse_loop fuel (l + 1)
      (Z.lor (Z.shiftl b0 24) (Z.shiftl b1 16) mod 2 ^ 32) fData rest.
Proof.
  intros H0 H1.
  assert (Hd : payload_ok [b0; b1]) by (split; [auto | simpl; lia]).
  destruct (Parse_written 4 0 [b0; b1] ltac:(unfold byte_ok; lia) Hd) as [Hg Hb].
  cbn [Parse_loop]. rewrite Hg, Hb. reflexivity.
Qed.

End KeyedLines.

(** ** The address-keyed revision: the map and the decoded image *)

Section KeyedImage.

Import Keyed.

Lemma key_split (first : Z) :
  0 <= first < 2 ^ 32 ->
  Z.lor (Z.land first 0xffff0000) (first mod 2 ^ 16) = first.
Proof.
  intros H. change 0xffff0000 with (Z.shiftl (Z.ones 16) 16). bits first 32 H.
Qed.

Lemma map_insert_last (k : Z) (v : list Z) (m : IntelHex) :
  Forall (fun kv => fst kv < k) m -> map_insert k v m = m ++ [(k, v)].
Proof.
  induction 1 as [| [k' v'] m Hk _ IH]; [reflexivity |].
  simpl in Hk. cbn [map_insert app].
  destruct (Z.ltb_spec k k'); [lia |].
  destruct (Z.eqb_spec k k'); [lia |]. now rewrite IH.
Qed.

Lemma map_insert_keys (k : Z) (v : list Z) (m : IntelHex) (P : Z -> Prop) :
  P k -> Forall P (map fst m) -> Forall P (map fst (map_insert k v m)).
Proof.
  intros Hk. induction m as [| [k' v'] m IH]; intros Hm.
  - repeat constructor. exact Hk.
  - cbn [map_insert]. inversion Hm as [| ? ? Hk' Hm']; subst.
    destruct (k <? k'); [constructor; assumption |].
    destruct (k =? k'); [exact Hm |].
    cbn [map fst]. constructor; [exact Hk' | now apply IH].
Qed.

Lemma map_insert_sorted (k : Z) (v : list Z) (m : IntelHex) :
  StronglySorted Z.lt (map fst m) ->
  StronglySorted Z.lt (map fst (map_insert k v m)).
Proof.
  induction m as [| [k' v'] m IH]; intros Hm.
  - repeat constructor.
  - cbn [map_insert]. cbn [map fst] in Hm.
    inversion Hm as [| ? ? Hs Hall]; subst.
    destruct (Z.ltb_spec k k').
    + cbn [map fst]. constructor; [exact Hm |].
      constructor; [assumption |].
      eapply Forall_impl; [| exact Hall]. intros; cbv beta in *; lia.
    + destruct (Z.eqb_spec k k'); [exact Hm |].
      cbn [map fst]. constructor; [now apply IH |].
      apply map_insert_keys; [lia | exact Hall].
Qed.

Lemma map_insert_ok (k : Z) (v : list Z) (m : IntelHex) :
  0 <= k < 2 ^ 32 -> payload_ok v -> image_ok m -> image_ok (map_insert k v m).
Proof.
  intros Hk Hv [Hs Ha]. split; [now apply map_insert_sorted |].
  clear Hs. induction Ha as [| [k' v'] m Hkv Ha IH]; cbn [map_insert].
  - constructor; [split; assumption | constructor].
  - destruct (k <? k').
    + constructor; [split; assumption |]. constructor; assumption.
    + destruct (k =? k'); constructor; assumption.
Qed.

Lemma map_find_below (k : Z) (m : IntelHex) :
  Forall (fun k' => k < k') (map fst m) -> map_find k m = None.
Proof.
  induction m as [| [k' v'] m IH]; intros H; [reflexivity |].
  cbn [map fst] in H. inversion H; subst. cbn [map_find].
  destruct (Z.eqb_spec k k'); [lia | now apply IH].
Qed.

Lemma sorted_tail_above (k k' : Z) (m : IntelHex) :
  Forall (Z.lt k') (map fst m) -> k < k' -> Forall (fun x => k < x) (map fst m).
Proof.
  intros H Hk. eapply Forall_impl; [| exact H]. intros; cbv beta in *; lia.
Qed.

(** A key that is present keeps its payload: the second record is the
    one dropped. *)
Lemma map_insert_present (k : Z) (v v' : list Z) (m : IntelHex) :
  StronglySorted Z.lt (map fst m) ->
  map_find k m = Some v' -> map_insert k v m = m.
Proof.
  induction m as [| [k' v''] m IH]; intros Hs Hf; [discriminate |].
  cbn [map_find] in Hf. cbn [map_insert]. cbn [map fst] in Hs.
  inversion Hs as [| ? ? Hs' Hall]; subst.
  destruct (Z.eqb_spec k k') as [-> | Hne].
  - now rewrite Z.ltb_irrefl.
  - destruct (Z.ltb_spec k k') as [Hlt | Hge].
    + rewrite map_find_below in Hf; [discriminate |].
      now apply (sorted_tail_above k k').
    + now rewrite IH.
Qed.

Lemma map_find_insert (k : Z) (v : list Z) (m : IntelHex) :
  StronglySorted Z.lt (map fst m) ->
  map_find k (map_insert k v m)
  = match map_find k m with Some v' => Some v' | None => Some v end.
Proof.
  induction m as [| [k' v'] m IH]; intros Hs.
  - simpl. now rewrite Z.eqb_refl.
  - cbn [map fst] in Hs. inversion Hs as [| ? ? Hs' Hall]; subst.
    cbn [map_insert map_find].
    destruct (Z.ltb_spec k k').
    + cbn [map_find]. rewrite Z.eqb_refl.
      destruct (Z.eqb_spec k k'); [lia |].
      rewrite map_find_below; [reflexivity |].
      now apply (sorted_tail_above k k').
    + destruct (Z.eqb_spec k k') as [-> | Hne].
      * cbn [map_find]. now rewrite Z.eqb_refl.
      * cbn [map_find]. destruct (Z.eqb_spec k k'); [lia | now apply IH].
Qed.

Lemma Forall_firstn (P : Z -> Prop) (n : nat) (l : list Z) :
  Forall P l -> Forall P (firstn n l).
Proof.
  intros H. rewrite <- (firstn_skipn n l) in H. now apply Forall_app in H.
Qed.

Lemma Forall_skipn (P : Z -> Prop) (n : nat) (l : list Z) :
  Forall P l -> Forall P (skipn n l).
Proof.
  intros H. rewrite <- (firstn_skipn n l) in H. now apply Forall_app in H.
Qed.

Lemma firstn_skipn_payload (buffer : list Z) (count : Z) :
  Forall byte_ok buffer -> byte_ok count ->
  payload_ok (firstn (Z.to_nat count) (skipn 4 buffer)).
Proof.
  intros Hb [Hc Hc']. split.
  - now apply Forall_firstn, Forall_skipn.
  - rewrite length_firstn. lia.
Qed.

Lemma record_bytes_rd (buffer : list Z) (i : Z) :
  record_bytes_ok buffer -> 0 <= i < 5 -> byte_ok (rd buffer i).
Proof.
  intros Hok Hi. pose proof (record_bytes_length buffer Hok).
  destruct Hok as [Hb _]. apply rd_Forall; [exact Hb | lia].
Qed.

Lemma Keyed_Parse_loop_ok (fuel : nat) :
  forall l extended fData input image,
    Parse_loop fuel l extended fData input = inr image ->
    image_ok fData -> 0 <= extended < 2 ^ 32 -> image_ok image.
Proof.
  induction fuel as [| fuel IH]; intros l extended fData input image H Hm He;
    [discriminate |].
  cbn [Parse_loop] in H.
  destruct (getline input) as [[[line gcount] rest] |]; [| discriminate].
  destruct (line_bytes l line (gcount - 1)) as [e | buffer] eqn:Hl; [discriminate |].
  apply line_bytes_inv in Hl. fold (record_bytes_ok buffer) in Hl.
  cbv zeta in H.
  destruct (rd buffer 3 =? 0).
  - eapply IH; [exact H | | exact He].
    apply map_insert_ok; [| | exact Hm].
    + apply lor_range; [lia | exact He |].
      pose proof (offset_in_range (rd buffer 1) (rd buffer 2)
        ltac:(apply record_bytes_rd; [exact Hl | lia])
        ltac:(apply record_bytes_rd; [exact Hl | lia])). lia.
    + apply firstn_skipn_payload; [apply Hl |].
      apply record_bytes_rd; [exact Hl | lia].
  - destruct (rd buffer 3 =? 1).
    + destruct (rd buffer 0 =? 0); cbn [negb] in H; [| discriminate].
      inversion H; subst. exact Hm.
    + destruct (rd buffer 3 =? 4); [| discriminate].
      destruct (rd buffer 0 =? 2); cbn [negb] in H; [| discriminate].
      eapply IH; [exact H | exact Hm |]. apply Z.mod_pos_bound. lia.
Qed.

Lemma Keyed_Parse_ok (input : list ascii) (image : IntelHex) :
  Parse input = inr image -> image_ok image.
Proof.
  intros H. eapply Keyed_Parse_loop_ok; [exact H | | lia].
  split; constructor.
Qed.

Lemma WriteRecord_length (type address : Z) (data : list Z) (rest : list ascii) :
  (List.length rest < List.length (WriteRecord type address data ++ rest))%nat.
Proof. unfold WriteRecord. cbv zeta. rewrite length_app. simpl. lia. Qed.

(** Reading what [Generate] writes for the pairs [rest], from the state
    in which the pairs [acc] before them have been read. *)
Lemma Parse_Generate_loop (rest : IntelHex) :
  forall acc extended fuel l,
    image_ok (acc ++ rest) ->
    (List.length (Generate_loop extended rest ++ WriteRecord 1 0 []) < fuel)%nat ->
    Parse_loop fuel l extended acc (Generate_loop extended rest ++ WriteRecord 1 0 [])
    = inr (acc ++ rest).
Proof.
  induction rest as [| [first second] rest IH]; intros acc extended fuel l Hok Hf.
  - destruct fuel as [| fuel]; [lia |]. cbn [Generate_loop app].
    rewrite <- (app_nil_r (WriteRecord 1 0 [])), Parse_eof_record.
    now rewrite app_nil_r.
  - destruct Hok as [Hs Ha].
    assert (Hkv : 0 <= first < 2 ^ 32 /\ payload_ok second).
    { rewrite Forall_app in Ha. destruct Ha as [_ Ha].
      inversion Ha; subst. assumption. }
    destruct Hkv as [Hk Hv].
    assert (Hlast : map_insert first second acc = acc ++ [(first, second)]).
    { apply map_insert_last. rewrite map_app in Hs. cbn [map fst] in Hs.
      clear - Hs. induction acc as [| [k v] acc IHa]; [constructor |].
      cbn [map fst app] in Hs. inversion Hs as [| ? ? Hs' Hall]; subst.
      constructor; [| now apply IHa].
      rewrite Forall_app in Hall. destruct Hall as [_ Hall].
      inversion Hall; subst. assumption. }
    assert (Hok' : image_ok ((acc ++ [(first, second)]) ++ rest)).
    { rewrite <- app_assoc. split; assumption. }
    assert (Hm : 0 <= first mod 2 ^ 16 < 2 ^ 16) by (apply Z.mod_pos_bound; lia).
    cbn [Generate_loop] in *.
    destruct (Z.land first 0xffff0000 =? extended) eqn:E; cbn [negb] in *.
    + apply Z.eqb_eq in E. subst extended. rewrite <- app_assoc in Hf. rewrite <- app_assoc.
      pose proof (WriteRecord_length 0 (first mod 2 ^ 16) second
                    (Generate_loop (Z.land first 0xffff0000) rest
                       ++ WriteRecord 1 0 [])) as Hlen.
      destruct fuel as [| fuel]; [lia |].
      rewrite Parse_data_record by assumption.
      rewrite key_split, Hlast by exact Hk.
      rewrite IH by (try assumption; lia). now rewrite <- app_assoc.
    + rewrite <- !app_assoc in Hf. rewrite <- !app_assoc.
      pose proof (WriteRecord_length 0 (first mod 2 ^ 16) second
                    (Generate_loop (Z.land first 0xffff0000) rest ++ WriteRecord 1 0 []))
        as Hlen.
      pose proof (WriteRecord_length 4 0
                    [Z.shiftr first 24 mod 256; Z.shiftr first 16 mod 256]
                    (WriteRecord 0 (first mod 2 ^ 16) second
                       ++ Generate_loop (Z.land first 0xffff0000) rest
                       ++ WriteRecord 1 0 [])) as Hlen'.
      destruct fuel as [| [| fuel]]; [lia | lia |].
      rewrite Parse_extended_record by apply byte_ok_mod.
      rewrite bank_of_key by exact Hk.
      rewrite Parse_data_record by assumption.
      rewrite key_split, Hlast by exact Hk.
      rewrite IH by (try assumption; lia). now rewrite <- app_assoc.
Qed.

(** Decoding what was encoded gives the image back. *)
Lemma Keyed_Parse_Generate (image : IntelHex) :
  image_ok image -> Parse (Generate image) = inr image.
Proof.
  intros Hok. unfold Parse, Generate.
  apply (Parse_Generate_loop image [] 0); [exact Hok | lia].
Qed.

End KeyedImage.

(** ** The ordered revision: records *)

Section OrderedRecords.

Import Ordered.

Lemma byte_pair_cases_bool (f : Z -> Z -> bool) :
  forallb (fun x => forallb (f x) (map Z.of_nat (seq 0 256)))
    (map Z.of_nat (seq 0 256)) = true ->
  forall b1 b2, byte_ok b1 -> byte_ok b2 -> f b1 b2 = true.
Proof.
  intros H b1 b2 H1 H2.
  pose proof (byte_cases_bool _ H b1 H1) as H'. cbv beta in H'.
  exact (byte_cases_bool _ H' b2 H2).
Qed.

Lemma address_fields (b1 b2 : Z) :
  byte_ok b1 -> byte_ok b2 ->
  let a := Z.lor (Z.shiftl b1 8) b2 in
  Z.shiftr a 8 mod 256 = b1 /\ a mod 256 = b2
  /\ Z.shiftr a 8 = b1 /\ Z.land a 255 = b2.
Proof.
  intros H1 H2.
  pose proof (byte_pair_cases_bool
    (fun b1 b2 =>
       let a := Z.lor (Z.shiftl b1 8) b2 in
       (Z.shiftr a 8 mod 256 =? b1) && (a mod 256 =? b2)
       && (Z.shiftr a 8 =? b1) && (Z.land a 255 =? b2))
    ltac:(vm_compute; reflexivity) b1 b2 H1 H2) as H.
  cbv beta zeta in H. cbv zeta. lia.
Qed.

Lemma last_split (tl : list Z) (n : nat) :
  List.length tl = S n -> tl = firstn n tl ++ [nth n tl 0].
Proof.
  revert n. induction tl as [| x tl IH]; intros n Hl; [discriminate |].
  destruct n as [| n].
  - destruct tl; [reflexivity | discriminate].
  - cbn [firstn nth app]. f_equal. apply IH. simpl in Hl. lia.
Qed.

Lemma HexRecord_of_buffer (buffer : list Z) :
  record_bytes_ok buffer ->
  record_buffer (HexRecord_of buffer) = buffer /\ record_ok (HexRecord_of buffer).
Proof.
  intros Hok. pose proof (record_bytes_length buffer Hok) as Hlen.
  destruct Hok as [Hb [Hs Hc]].
  destruct buffer as [| b0 [| b1 [| b2 [| b3 tl]]]]; try (simpl in Hlen; lia).
  unfold rd in Hc. cbn [Z.to_nat nth List.length] in Hc.
  inversion Hb as [| ? ? H0 Hb0]; subst. inversion Hb0 as [| ? ? H1 Hb1]; subst.
  inversion Hb1 as [| ? ? H2 Hb2]; subst. inversion Hb2 as [| ? ? H3 Htl]; subst.
  assert (Hn : List.length tl = S (Z.to_nat b0)) by (unfold byte_ok in H0; lia).
  destruct (address_fields b1 b2 H1 H2) as [A1 [A2 _]]. cbv zeta in A1, A2.
  pose proof (last_split tl (Z.to_nat b0) Hn) as Htl'.
  assert (Hck : rd (b0 :: b1 :: b2 :: b3 :: tl) (b0 + 4) = nth (Z.to_nat b0) tl 0).
  { unfold rd. replace (Z.to_nat (b0 + 4)) with (S (S (S (S (Z.to_nat b0))))).
    - reflexivity.
    - unfold byte_ok in H0. lia. }
  assert (Hbuf : record_buffer (HexRecord_of (b0 :: b1 :: b2 :: b3 :: tl))
                 = b0 :: b1 :: b2 :: b3 :: tl).
  { unfold record_buffer, HexRecord_of. cbv zeta.
    cbn [size address type data checksum].
    change (rd (b0 :: b1 :: b2 :: b3 :: tl) 0) with b0.
    change (rd (b0 :: b1 :: b2 :: b3 :: tl) 1) with b1.
    change (rd (b0 :: b1 :: b2 :: b3 :: tl) 2) with b2.
    change (rd (b0 :: b1 :: b2 :: b3 :: tl) 3) with b3.
    rewrite Hck, A1, A2. cbn [skipn app]. rewrite firstn_firstn, Nat.min_id.
    now rewrite <- Htl'. }
  split; [exact Hbuf |].
  unfold record_ok. rewrite Hbuf.
  unfold HexRecord_of. cbv zeta. cbn [size address type data checksum].
  change (rd (b0 :: b1 :: b2 :: b3 :: tl) 0) with b0.
  change (rd (b0 :: b1 :: b2 :: b3 :: tl) 1) with b1.
  change (rd (b0 :: b1 :: b2 :: b3 :: tl) 2) with b2.
  change (rd (b0 :: b1 :: b2 :: b3 :: tl) 3) with b3.
  rewrite Hck. cbn [skipn].
  repeat split; try apply H0; try apply H3; try assumption.
  - apply Z.lor_nonneg. rewrite Z.shiftl_nonneg. unfold byte_ok in *. lia.
  - apply offset_in_range; assumption.
  - now apply Forall_firstn.
  - rewrite length_firstn. unfold byte_ok in H0. lia.
  - rewrite Forall_forall in Htl. apply Htl. apply nth_In. lia.
  - rewrite Forall_forall in Htl. apply Htl. apply nth_In. lia.
Qed.

Lemma record_buffer_ok (r : HexRecord) :
  record_ok r ->
  record_bytes_ok (record_buffer r) /\ HexRecord_of (record_buffer r) = r.
Proof.
  intros [Hsz [Ha [Ht [Hd [Hl [Hc Hs]]]]]].
  destruct r as [sz a t d c]. cbn [size address type data checksum] in *.
  assert (Hf : firstn (Z.to_nat sz) d = d) by (apply firstn_all2; lia).
  split.
  - unfold record_bytes_ok, record_buffer in *.
    cbn [size address type data checksum] in *. rewrite Hf in *.
    repeat split.
    + repeat constructor; try apply byte_ok_mod; try apply Hsz; try apply Ht.
      apply Forall_app. split; [exact Hd | now constructor].
    + exact Hs.
    + unfold rd. cbn [app Z.to_nat nth List.length].
      rewrite length_app. cbn [List.length]. lia.
  - unfold HexRecord_of, record_buffer. cbv zeta.
    cbn [size address type data checksum]. rewrite Hf.
    change (rd ([sz; Z.shiftr a 8 mod 256; a mod 256; t] ++ d ++ [c]) 0) with sz.
    change (rd ([sz; Z.shiftr a 8 mod 256; a mod 256; t] ++ d ++ [c]) 1)
      with (Z.shiftr a 8 mod 256).
    change (rd ([sz; Z.shiftr a 8 mod 256; a mod 256; t] ++ d ++ [c]) 2)
      with (a mod 256).
    change (rd ([sz; Z.shiftr a 8 mod 256; a mod 256; t] ++ d ++ [c]) 3) with t.
    rewrite address_bytes by exact Ha. cbn [app skipn].
    f_equal.
    + rewrite <- Hl, Nat2Z.id, firstn_app, Nat.sub_diag, firstn_all.
      cbn [firstn]. apply app_nil_r.
    + unfold rd. replace (Z.to_nat (sz + 4)) with (S (S (S (S (List.length d)))))
        by (unfold byte_ok in Hsz; lia).
      cbn [nth]. rewrite app_nth2 by lia. now rewrite Nat.sub_diag.
Qed.

Lemma fold_checksum (data : list Z) :
  forall c, fold_left (fun c i => (c + i) mod 256) data (c mod 256)
            = (c + sum_bytes data) mod 256.
Proof.
  induction data as [| d data IH]; intros c.
  - simpl. now rewrite Z.add_0_r.
  - cbn [fold_left]. rewrite Zplus_mod_idemp_l, IH. f_equal.
    simpl. lia.
Qed.

(** On a record built by [Parse], [UpdateChecksum] finds the checksum
    the record has, whatever was stored before. *)
Lemma UpdateChecksum_ok (r : HexRecord) (c : Z) :
  record_ok r ->
  UpdateChecksum {| size := size r; address := address r; type := type r;
                    data := data r; checksum := c |} = r.
Proof.
  intros [Hsz [Ha [Ht [Hd [Hl [Hc Hs]]]]]].
  destruct r as [sz a t d ck]. cbn [size address type data checksum] in *.
  unfold UpdateChecksum. cbn [size address type data checksum].
  f_equal. rewrite fold_checksum.
  unfold record_buffer in Hs. cbn [size address type data checksum] in Hs.
  rewrite firstn_all2 in Hs by lia.
  rewrite !sum_bytes_app in Hs. cbn [sum_bytes fold_right] in Hs.
  change (fold_right Z.add 0 d) with (sum_bytes d) in Hs.
  change 255 with (Z.ones 8). rewrite Z.land_ones by lia.
  assert (Hsh : Z.shiftr a 8 mod 256 = Z.shiftr a 8).
  { apply Z.mod_small. rewrite Z.shiftr_div_pow2 by lia.
    split; [apply Z.div_pos; lia | apply Z.div_lt_upper_bound; lia]. }
  rewrite Hsh in Hs. change (2 ^ 8) with 256.
  unfold byte_ok in Hc.
  set (S := sz + Z.shiftr a 8 + a mod 256 + t + sum_bytes d).
  assert (HS : (S + ck) mod 256 = 0).
  { rewrite <- Hs. f_equal. unfold S. lia. }
  clear - HS Hc.
  symmetry. apply Z.mod_unique with (q := S / 256 - (S + ck) / 256); [lia |].
  pose proof (Z.div_mod (S + ck) 256 ltac:(lia)).
  pose proof (Z.div_mod S 256 ltac:(lia)). lia.
Qed.

End OrderedRecords.

(** ** The ordered revision: the decoded image *)

Section OrderedImage.

Import Ordered.

Lemma Parse_loop_decoded (fuel : nat) :
  forall l fData input image,
    Parse_loop fuel l fData input = inr image ->
    exists front last,
      image = fData ++ front ++ [last]
      /\ Forall record_ok (front ++ [last])
      /\ Forall (fun r => type r <> 1) front /\ type last = 1.
Proof.
  induction fuel as [| fuel IH]; intros l fData input image H; [discriminate |].
  cbn [Parse_loop] in H.
  destruct (getline input) as [[[line gcount] rest] |]; [| discriminate].
  destruct (line_bytes l line (gcount - 1)) as [e | buffer] eqn:Hl; [discriminate |].
  apply line_bytes_inv in Hl. fold (record_bytes_ok buffer) in Hl.
  destruct (HexRecord_of_buffer buffer Hl) as [_ Hr].
  cbv zeta in H. destruct (Z.eqb_spec (type (HexRecord_of buffer)) 1) as [E | E].
  - inversion H; subst. exists [], (HexRecord_of buffer).
    split; [reflexivity |]. split; [cbn [app]; constructor; [exact Hr | constructor] |].
    split; [constructor | exact E].
  - apply IH in H. destruct H as [front [last [HI [Hok [Hfr Hla]]]]].
    exists (HexRecord_of buffer :: front), last. repeat split.
    + rewrite HI, <- app_assoc. reflexivity.
    + cbn [app]. constructor; assumption.
    + constructor; assumption.
    + exact Hla.
Qed.

Lemma Parse_decoded (input : list ascii) (image : IntelHex) :
  Parse input = inr image -> decoded image.
Proof.
  intros H. apply Parse_loop_decoded in H.
  destruct H as [front [last [HI [Hok [Hfr Hla]]]]]. cbn [app] in HI. subst image.
  split; [exact Hok |]. exists front, last. auto.
Qed.

Lemma HexRecord_Generate_length (r : HexRecord) (rest : list ascii) :
  (List.length rest < List.length (HexRecord_Generate r ++ rest))%nat.
Proof. unfold HexRecord_Generate. rewrite length_app. simpl. lia. Qed.

Lemma Parse_written_record (fuel : nat) (l : Z) (fData : IntelHex)
  (r : HexRecord) (rest : list ascii) :
  record_ok r ->
  Parse_loop (S fuel) l fData (HexRecord_Generate r ++ rest)
  = if type r =? 1 then inr (fData ++ [r])
    else Parse_loop fuel (l + 1) (fData ++ [r]) rest.
Proof.
  intros Hr. destruct (record_buffer_ok r Hr) as [Hok Hof].
  cbn [Parse_loop]. unfold HexRecord_Generate. cbn [app]. rewrite <- app_assoc.
  rewrite getline_written, line_bytes_written by exact Hok.
  cbv zeta. now rewrite Hof.
Qed.

Lemma Parse_Generate_records (front : IntelHex) :
  forall fData last fuel l,
    Forall record_ok (front ++ [last]) ->
    Forall (fun r => type r <> 1) front -> type last = 1 ->
    (List.length (Generate (front ++ [last])) < fuel)%nat ->
    Parse_loop fuel l fData (Generate (front ++ [last]))
    = inr (fData ++ front ++ [last]).
Proof.
  induction front as [| r front IH]; intros fData last fuel l Hok Hfr Hla Hf.
  - cbn [app Generate flat_map] in *. destruct fuel as [| fuel]; [lia |].
    inversion Hok; subst. rewrite Parse_written_record by assumption.
    now rewrite Hla.
  - cbn [app Generate flat_map] in *. fold (Generate (front ++ [last])) in *.
    inversion Hok; subst. inversion Hfr; subst.
    pose proof (HexRecord_Generate_length r (Generate (front ++ [last]))).
    destruct fuel as [| fuel]; [lia |].
    rewrite Parse_written_record by assumption.
    destruct (Z.eqb_spec (type r) 1); [contradiction |].
    rewrite IH by (try assumption; lia). now rewrite <- app_assoc.
Qed.

(** Decoding what was encoded gives the image back. *)
Lemma Ordered_Parse_Generate (image : IntelHex) :
  decoded image -> Parse (Generate image) = inr image.
Proof.
  intros [Hok [front [last [-> [Hfr Hla]]]]]. unfold Parse.
  now apply (Parse_Generate_records front []); try lia.
Qed.

End OrderedImage.

(** ** The cipher pass *)

Lemma xor_stream_length (data stream : list Z) :
  List.length (xor_stream data stream) = List.length data.
Proof.
  revert stream. induction data as [| d data IH]; intros [| s stream]; simpl; auto.
Qed.

Lemma xor_stream_bytes (data stream : list Z) :
  Forall byte_ok data -> Forall byte_ok (xor_stream data stream).
Proof.
  intros Hd. revert stream.
  induction Hd as [| d data Hd1 Hd IH]; intros [| s stream]; simpl; auto.
  constructor; [apply byte_ok_mod | apply IH].
Qed.

Lemma xor_stream_twice (data stream : list Z) :
  Forall byte_ok data -> Forall byte_ok stream ->
  xor_stream (xor_stream data stream) stream = data.
Proof.
  intros Hd. revert stream.
  induction Hd as [| d data Hd1 Hd IH]; intros [| s stream] Hs; simpl; auto.
  inversion Hs; subst. rewrite lxor_cancel by assumption. now rewrite IH.
Qed.

Section CipherTwice.

Lemma Keyed_Cipher_loop_twice (image : Keyed.IntelHex) :
  forall state, state_ok state ->
    Forall (fun kv => Forall byte_ok (snd kv)) image ->
    Keyed.Cipher_loop state (Keyed.Cipher_loop state image) = image.
Proof.
  induction image as [| [first second] image IH]; intros st Hs Hi; [reflexivity |].
  inversion Hi as [| ? ? Hd Hi']; subst. cbn [snd] in Hd.
  cbn [Keyed.Cipher_loop].
  destruct (Arcfour.arcfour_generate_stream st (List.length second))
    as [st' stream] eqn:E.
  cbn [Keyed.Cipher_loop]. rewrite xor_stream_length, E.
  destruct (arcfour_generate_stream_ok _ _ _ _ Hs E) as [Hs' [Ho _]].
  rewrite xor_stream_twice by assumption. now rewrite IH.
Qed.

Lemma UpdateChecksum_data (r : Ordered.HexRecord) :
  Ordered.data (Ordered.UpdateChecksum r) = Ordered.data r.
Proof. reflexivity. Qed.

Lemma UpdateChecksum_size (r : Ordered.HexRecord) :
  Ordered.size (Ordered.UpdateChecksum r) = Ordered.size r.
Proof. reflexivity. Qed.

Lemma UpdateChecksum_address (r : Ordered.HexRecord) :
  Ordered.address (Ordered.UpdateChecksum r) = Ordered.address r.
Proof. reflexivity. Qed.

Lemma UpdateChecksum_type (r : Ordered.HexRecord) :
  Ordered.type (Ordered.UpdateChecksum r) = Ordered.type r.
Proof. reflexivity. Qed.

Lemma Ordered_Cipher_loop_twice (image : Ordered.IntelHex) :
  forall state, state_ok state ->
    Forall record_ok image ->
    Ordered.Cipher_loop state (Ordered.Cipher_loop state image) = image.
Proof.
  induction image as [| r image IH]; intros st Hs Hi; [reflexivity |].
  inversion Hi as [| ? ? Hr Hi']; subst.
  cbn [Ordered.Cipher_loop].
  destruct (Arcfour.arcfour_generate_stream st (List.length (Ordered.data r)))
    as [st' stream] eqn:E.
  cbn [Ordered.Cipher_loop].
  rewrite !UpdateChecksum_data, !UpdateChecksum_size, !UpdateChecksum_address,
    !UpdateChecksum_type.
  cbn [Ordered.size Ordered.address Ordered.type Ordered.data Ordered.checksum].
  rewrite xor_stream_length, E.
  destruct (arcfour_generate_stream_ok _ _ _ _ Hs E) as [Hs' [Ho _]].
  rewrite xor_stream_twice by (try assumption; apply Hr).
  rewrite UpdateChecksum_ok by exact Hr. now rewrite IH.
Qed.

End CipherTwice.

(** ** The fuel of [Parse] *)

(** Every line read takes at least one character, so that the loops run
    the same with any fuel above the length of the input: the fuel that
    [Parse] gives is never used up. *)
Lemma Ordered_Parse_loop_fuel (fuel1 : nat) :
  forall fuel2 l fData input,
    (List.length input < fuel1)%nat -> (List.length input < fuel2)%nat ->
    Ordered.Parse_loop fuel1 l fData input = Ordered.Parse_loop fuel2 l fData input.
Proof.
  induction fuel1 as [| fuel1 IH]; intros fuel2 l fData input H1 H2; [lia |].
  destruct fuel2 as [| fuel2]; [lia |]. cbn [Ordered.Parse_loop].
  destruct (getline input) as [[[line gcount] rest] |] eqn:Hg; [| reflexivity].
  apply getline_shorter in Hg.
  destruct (line_bytes l line (gcount - 1)); [reflexivity |]. cbv zeta.
  destruct (Ordered.type _ =? 1); [reflexivity |]. apply IH; lia.
Qed.

Lemma Keyed_Parse_loop_fuel (fuel1 : nat) :
  forall fuel2 l extended fData input,
    (List.length input < fuel1)%nat -> (List.length input < fuel2)%nat ->
    Keyed.Parse_loop fuel1 l extended fData input
    = Keyed.Parse_loop fuel2 l extended fData input.
Proof.
  induction fuel1 as [| fuel1 IH]; intros fuel2 l extended fData input H1 H2; [lia |].
  destruct fuel2 as [| fuel2]; [lia |]. cbn [Keyed.Parse_loop].
  destruct (getline input) as [[[line gcount] rest] |] eqn:Hg; [| reflexivity].
  apply getline_shorter in Hg.
  destruct (line_bytes l line (gcount - 1)) as [e | buffer]; [reflexivity |]. cbv zeta.
  destruct (rd buffer 3 =? 0); [apply IH; lia |].
  destruct (rd buffer 3 =? 1); [reflexivity |].
  destruct (rd buffer 3 =? 4); [| reflexivity].
  destruct (negb (rd buffer 0 =? 2)); [reflexivity | apply IH; lia].
Qed.

(** * The claims *)

(** ** Keystream resumption *)

(** C4 (fails on the code).  Two successive calls of
    [arcfour_generate_stream] do not produce the bytes of one call for
    the total length: each call sets both index counters to zero again.
    From the state set up for the key "Key", one call for two bytes
    gives EB 9F, the first two bytes of the ARC4 keystream of that key,
    while two calls for one byte each give EB 55; and after the 256
    bytes that [Cipher] discards, the next call gives A2 where one call
    for 257 bytes ends with 92. *)
Theorem generate_stream_restarts_counters :
  let state := Arcfour.arcfour_key_setup [75; 101; 121] 3 in
  snd (Arcfour.arcfour_generate_stream state 2) = [235; 159]
  /\ snd (generate_twice state 1 1) = [235; 85]
  /\ generate_twice state 1 1 <> Arcfour.arcfour_generate_stream state 2
  /\ skipn 256 (snd (Arcfour.arcfour_generate_stream state 257)) = [146]
  /\ skipn 256 (snd (generate_twice state 256 1)) = [162]
  /\ generate_twice state 256 1 <> Arcfour.arcfour_generate_stream state 257.
Proof.
  cbv zeta. repeat split; try (vm_compute; reflexivity).
  - intros H. apply (f_equal snd) in H. vm_compute in H. discriminate.
  - intros H. apply (f_equal (fun p => skipn 256 (snd p))) in H.
    vm_compute in H. discriminate.
Qed.

(** ** The cipher pass is its own inverse *)

(** C1.  For a key of [len] bytes, [len] at least 1, and the image
    decoded from any input, two cipher passes with the key give the
    image back, in the ordered revision (fields, payload and checksum of
    every record) and in the address-keyed revision. *)
Theorem cipher_involution (key : list Z) (len : Z) (input : list ascii) :
  1 <= len <= Z.of_nat (List.length key) ->
  (forall image, Ordered.Parse input = inr image ->
     Ordered.Cipher key len (Ordered.Cipher key len image) = image)
  /\ (forall image, Keyed.Parse input = inr image ->
        Keyed.Cipher key len (Keyed.Cipher key len image) = image).
Proof.
  intros _.
  pose proof (arcfour_key_setup_ok key len) as Hs.
  destruct (Arcfour.arcfour_generate_stream (Arcfour.arcfour_key_setup key len) 256)
    as [state discarded] eqn:E.
  destruct (arcfour_generate_stream_ok _ _ _ _ Hs E) as [Hs' _].
  split; intros image H.
  - apply Parse_decoded in H. destruct H as [Hok _].
    unfold Ordered.Cipher. rewrite E. now apply Ordered_Cipher_loop_twice.
  - apply Keyed_Parse_ok in H. destruct H as [_ Hok].
    unfold Keyed.Cipher. rewrite E. apply Keyed_Cipher_loop_twice; [exact Hs' |].
    eapply Forall_impl; [| exact Hok]. intros kv [_ [Hb _]]. exact Hb.
Qed.

Lemma cipher_involution_witness :
  let key := [75; 101; 121] in
  let input := text_line ":021234000102B5" ++ text_line ":00000001FF" in
  1 <= 3 <= Z.of_nat (List.length key)
  /\ (exists image, Ordered.Parse input = inr image
        /\ Ordered.Cipher key 3 (Ordered.Cipher key 3 image) = image)
  /\ (exists image, Keyed.Parse input = inr image
        /\ Keyed.Cipher key 3 (Keyed.Cipher key 3 image) = image).
Proof.
  cbv zeta.
  assert (H : 1 <= 3 <= Z.of_nat (List.length [75; 101; 121])) by (simpl; lia).
  split; [exact H |].
  destruct (cipher_involution [75; 101; 121] 3
              (text_line ":021234000102B5" ++ text_line ":00000001FF") H)
    as [Ho Hk].
  split.
  - eexists. split; [vm_compute; reflexivity |]. apply Ho. vm_compute. reflexivity.
  - eexists. split; [vm_compute; reflexivity |]. apply Hk. vm_compute. reflexivity.
Defined.

(** ** What the cipher pass touches *)

(** In the address-keyed revision the cipher pass keeps every address
    and the length of every payload: the extended-address and
    end-of-file records, which [Generate] writes from the addresses, are
    those of the plain image. *)
Lemma Keyed_Cipher_loop_keys (image : Keyed.IntelHex) :
  forall state,
    map fst (Keyed.Cipher_loop state image) = map fst image
    /\ map (fun kv => List.length (snd kv)) (Keyed.Cipher_loop state image)
       = map (fun kv => List.length (snd kv)) image.
Proof.
  induction image as [| [first second] image IH]; intros state; [split; reflexivity |].
  cbn [Keyed.Cipher_loop].
  destruct (Arcfour.arcfour_generate_stream state (List.length second)) as [st stream].
  destruct (IH st) as [IH1 IH2]. cbn [map fst snd].
  now rewrite IH1, IH2, xor_stream_length.
Qed.

(** In the ordered revision the cipher pass keeps the size, the address
    and the type of every record. *)
Lemma Ordered_Cipher_loop_fields (image : Ordered.IntelHex) :
  forall state,
    map (fun r => (Ordered.size r, Ordered.address r, Ordered.type r))
      (Ordered.Cipher_loop state image)
    = map (fun r => (Ordered.size r, Ordered.address r, Ordered.type r)) image.
Proof.
  induction image as [| r image IH]; intros state; [reflexivity |].
  cbn [Ordered.Cipher_loop].
  destruct (Arcfour.arcfour_generate_stream state (List.length (Ordered.data r)))
    as [st stream].
  cbn [map]. now rewrite IH.
Qed.

(** C3 (fails on the code).  The ordered revision exclusive-ORs the
    payload of every record, whatever its type.  The file made of the
    extended-address record [:02000004ABCD82] and an end-of-file record
    is decoded to two records; after the cipher pass with the key "Key"
    the payload AB CD of the record of type 4 has become 09 29, and the
    upper address bits written are 0929.  The address-keyed revision
    decodes the same bank with a data record to the key ABCD1234, which
    the pass keeps. *)
Theorem ordered_cipher_alters_extended_address :
  let key := [75; 101; 121] in
  let input := text_line ":02000004ABCD82" ++ text_line ":00000001FF" in
  let ela := Ordered.mkHexRecord 2 0 4 [171; 205] 130 in
  let eof := Ordered.mkHexRecord 0 0 1 [] 255 in
  Ordered.Parse input = inr [ela; eof]
  /\ Ordered.Cipher key 3 [ela; eof] = [Ordered.mkHexRecord 2 0 4 [9; 41] 200; eof]
  /\ Ordered.Generate (Ordered.Cipher key 3 [ela; eof])
     = text_line ":020000040929C8" ++ text_line ":00000001FF"
  /\ Keyed.Parse (text_line ":02000004ABCD82" ++ text_line ":021234000102B5"
                    ++ text_line ":00000001FF")
     = inr [(0xABCD1234, [1; 2])]
  /\ map fst (Keyed.Cipher key 3 [(0xABCD1234, [1; 2])]) = [0xABCD1234].
Proof. cbv zeta. repeat split; vm_compute; reflexivity. Qed.

(** ** Equality of images *)



(** In the ordered revision two images compare equal exactly when they
    have as many records and the records agree, one by one, on size,
    address, type and checksum; the payload is not looked at. *)
Lemma Ordered_IntelHex_eq_iff (a b : Ordered.IntelHex) :
  Ordered.IntelHex_eq a b = true
  <-> Forall2 (fun x y =>
                 Ordered.size x = Ordered.size y
                 /\ Ordered.address x = Ordered.address y
                 /\ Ordered.type x = Ordered.type y
                 /\ Ordered.checksum x = Ordered.checksum y) a b.
Proof.
  revert b. induction a as [| x a IH]; intros [| y b]; simpl; split;
    try discriminate; try (intros H; inversion H; fail); try constructor.
  - apply andb_prop in H. destruct H as [Hx _]. unfold Ordered.HexRecord_eq in Hx.
    destruct (Z.eqb_spec (Ordered.size x) (Ordered.size y)); [| discriminate].
    destruct (Z.eqb_spec (Ordered.address x) (Ordered.address y)); [| discriminate].
    destruct (Z.eqb_spec (Ordered.type x) (Ordered.type y)); [| discriminate].
    destruct (Z.eqb_spec (Ordered.checksum x) (Ordered.checksum y)); [| discriminate].
    auto.
  - apply andb_prop in H. destruct H as [_ Ha]. now apply IH.
  - intros H. inversion H as [| ? ? ? ? [H1 [H2 [H3 H4]]] Hab]; subst.
    apply andb_true_intro. split; [| now apply IH].
    unfold Ordered.HexRecord_eq. rewrite H1, H2, H3, H4, !Z.eqb_refl. reflexivity.
Qed.

(** C8 (fails on the code).  [HexRecord::operator==] does not compare the
    payloads.  The files whose data lines are [:020000000102FB] and
    [:020000000201FB] are both accepted, their images compare equal in
    the ordered revision, and their payloads differ; the address-keyed
    revision tells them apart. *)
Theorem ordered_equality_ignores_payload :
  let input1 := text_line ":020000000102FB" ++ text_line ":00000001FF" in
  let input2 := text_line ":020000000201FB" ++ text_line ":00000001FF" in
  let eof := Ordered.mkHexRecord 0 0 1 [] 255 in
  let image1 := [Ordered.mkHexRecord 2 0 0 [1; 2] 251; eof] in
  let image2 := [Ordered.mkHexRecord 2 0 0 [2; 1] 251; eof] in
  Ordered.Parse input1 = inr image1
  /\ Ordered.Parse input2 = inr image2
  /\ Ordered.IntelHex_eq image1 image2 = true
  /\ map Ordered.data image1 <> map Ordered.data image2
  /\ Keyed.Parse input1 = inr [(0, [1; 2])]
  /\ Keyed.Parse input2 = inr [(0, [2; 1])]
  /\ Keyed.IntelHex_eq [(0, [1; 2])] [(0, [2; 1])] = false.
Proof.
  cbv zeta. repeat split; try (vm_compute; reflexivity).
  intros H. vm_compute in H. discriminate.
Qed.

(** ** Extended addresses *)

Lemma bank_in_range (b0 b1 : Z) :
  byte_ok b0 -> byte_ok b1 ->
  0 <= Z.lor (Z.shiftl b0 24) (Z.shiftl b1 16) < 2 ^ 32.
Proof.
  unfold byte_ok. intros H0 H1.
  apply lor_range; [lia | |]; rewrite Z.shiftl_mul_pow2 by lia; lia.
Qed.

Lemma write_record_length (r : record) (rest : list ascii) :
  (List.length rest < List.length (write_record r ++ rest))%nat.
Proof. destruct r; apply WriteRecord_length. Qed.

Lemma Parse_records (rs : list record) :
  forall fuel l bank image,
    Forall record_valid rs ->
    (List.length (flat_map write_record rs ++ Keyed.WriteRecord 1 0 []) < fuel)%nat ->
    Keyed.Parse_loop fuel l bank image
      (flat_map write_record rs ++ Keyed.WriteRecord 1 0 [])
    = inr (store bank image rs).
Proof.
  induction rs as [| r rs IH]; intros fuel l bank image Hv Hf.
  - destruct fuel as [| fuel]; [lia |]. cbn [flat_map app store].
    rewrite <- (app_nil_r (Keyed.WriteRecord 1 0 [])). apply Parse_eof_record.
  - inversion Hv as [| ? ? Hr Hv']; subst.
    cbn [flat_map] in *. rewrite <- app_assoc in *.
    pose proof (write_record_length r
                  (flat_map write_record rs ++ Keyed.WriteRecord 1 0 [])) as Hlen.
    destruct fuel as [| fuel]; [lia |].
    destruct r as [address payload | b0 b1]; cbn [write_record store] in *.
    + destruct Hr as [Ha Hp]. rewrite Parse_data_record by assumption.
      apply IH; [exact Hv' | lia].
    + destruct Hr as [H0 H1]. rewrite Parse_extended_record by assumption.
      rewrite Z.mod_small by now apply bank_in_range.
      apply IH; [exact Hv' | lia].
Qed.

Lemma Parse_records_file (rs : list record) :
  Forall record_valid rs ->
  Keyed.Parse (flat_map write_record rs ++ Keyed.WriteRecord 1 0 [])
  = inr (store 0 [] rs).
Proof.
  intros Hv. unfold Keyed.Parse. apply Parse_records; [exact Hv | lia].
Qed.

(** C5, as amended.  Decoding starts with the bank at zero; an
    extended-address record with payload [b0, b1] sets the bank to
    [(b0 << 24) | (b1 << 16)]; a data record at the 16-bit address [a] is
    inserted at [bank | a].  After the line [:02000004ABCD82] a data
    record at 1234 is stored at ABCD1234. *)
Theorem extended_address_application :
  (forall rs, Forall record_valid rs ->
     Keyed.Parse (flat_map write_record rs ++ Keyed.WriteRecord 1 0 [])
     = inr (store 0 [] rs))
  /\ Keyed.Parse (text_line ":02000004ABCD82" ++ text_line ":021234000102B5"
                    ++ text_line ":00000001FF")
     = inr [(0xABCD1234, [1; 2])].
Proof.
  split; [exact Parse_records_file | vm_compute; reflexivity].
Qed.

Lemma extended_address_application_witness :
  let rs := [ExtendedLinearAddress 0xAB 0xCD; Data 0x1234 [1; 2]] in
  Forall record_valid rs
  /\ flat_map write_record rs ++ Keyed.WriteRecord 1 0 []
     = text_line ":02000004ABCD82" ++ text_line ":021234000102B5"
         ++ text_line ":00000001FF"
  /\ store 0 [] rs = [(0xABCD1234, [1; 2])]
  /\ Keyed.Parse (flat_map write_record rs ++ Keyed.WriteRecord 1 0 [])
     = inr (store 0 [] rs).
Proof.
  cbv zeta.
  assert (Hv : Forall record_valid [ExtendedLinearAddress 0xAB 0xCD; Data 0x1234 [1; 2]]).
  { constructor; [split; unfold byte_ok; lia |].
    constructor; [| constructor].
    split; [lia |]. split; [| simpl; lia].
    constructor; [unfold byte_ok; lia |].
    constructor; [unfold byte_ok; lia | constructor]. }
  split; [exact Hv |]. split; [vm_compute; reflexivity |].
  split; [vm_compute; reflexivity |].
  exact (proj1 extended_address_application _ Hv).
Defined.

(** C5 as stated fails.  The line that the specification gives for the
    extended-address record, [:02000004ABCD00DF], is rejected: its eight
    bytes sum to 5D, and nothing is stored. *)
Lemma spec_extended_address_line_rejected :
  Keyed.Parse (text_line ":02000004ABCD00DF" ++ text_line ":021234000102B5"
                 ++ text_line ":00000001FF")
  = inl (parse_error
           (mkParseError 1 16 "checksum error" (text ":02000004ABCD00DF" ++ [CR]))).
Proof. vm_compute. reflexivity. Qed.

(** ** Duplicate addresses *)

(** C9 as stated fails.  Two data records at address 0, with payloads
    01 and then 02: the image holds 01. *)
Lemma duplicate_not_overwritten :
  Keyed.Parse (text_line ":0100000001FE" ++ text_line ":0100000002FD"
                 ++ text_line ":00000001FF")
  = inr [(0, [1])]
  /\ ~ duplicate_overwrites.
Proof.
  split; [vm_compute; reflexivity |].
  intros H. specialize (H 0 [1] [2]).
  assert (Hp : forall x, byte_ok x -> payload_ok [x]).
  { intros x Hx. split; [constructor; [exact Hx | constructor] | simpl; lia]. }
  specialize (H ltac:(lia) (Hp 1 ltac:(unfold byte_ok; lia))
                (Hp 2 ltac:(unfold byte_ok; lia))).
  vm_compute in H. discriminate.
Qed.

(** C9, as amended.  A data record whose absolute address is already
    in the image is dropped: the image is left as it was, with the
    payload stored first, no error is raised and decoding goes on with
    the next line.  A file of two data records at the same address is
    decoded to the payload of the first. *)
Theorem duplicate_address_keeps_first :
  (forall fuel l extended fData rest address payload stored,
     0 <= address < 2 ^ 16 -> payload_ok payload ->
     StronglySorted Z.lt (map fst fData) ->
     Keyed.map_find (Z.lor extended address) fData = Some stored ->
     Keyed.Parse_loop (S fuel) l extended fData
       (Keyed.WriteRecord 0 address payload ++ rest)
     = Keyed.Parse_loop fuel (l + 1) extended fData rest)
  /\ (forall address p1 p2,
        0 <= address < 2 ^ 16 -> payload_ok p1 -> payload_ok p2 ->
        Keyed.Parse (Keyed.WriteRecord 0 address p1 ++ Keyed.WriteRecord 0 address p2
                       ++ Keyed.WriteRecord 1 0 [])
        = inr [(address, p1)]).
Proof.
  split.
  - intros fuel l extended fData rest address payload stored Ha Hp Hs Hf.
    rewrite Parse_data_record by assumption.
    now rewrite (map_insert_present _ _ stored) by assumption.
  - intros address p1 p2 Ha H1 H2.
    pose proof (Parse_records_file [Data address p1; Data address p2]) as H.
    cbn [flat_map write_record app] in H. rewrite app_nil_r in H.
    rewrite <- app_assoc in H. rewrite H by (constructor; [split; assumption |];
                                         constructor; [split; assumption | constructor]).
    cbn [store Keyed.map_insert]. rewrite Z.lor_0_l.
    now rewrite Z.ltb_irrefl, Z.eqb_refl.
Qed.

Lemma duplicate_address_keeps_first_witness :
  let eof := Keyed.WriteRecord 1 0 [] in
  (0 <= 0 < 2 ^ 16 /\ payload_ok [1] /\ payload_ok [2]
   /\ StronglySorted Z.lt (map fst [(0, [1])])
   /\ Keyed.map_find (Z.lor 0 0) [(0, [1])] = Some [1])
  /\ Keyed.Parse_loop 2 2 0 [(0, [1])] (Keyed.WriteRecord 0 0 [2] ++ eof)
     = Keyed.Parse_loop 1 3 0 [(0, [1])] eof
  /\ Keyed.Parse (Keyed.WriteRecord 0 0 [1] ++ Keyed.WriteRecord 0 0 [2] ++ eof)
     = inr [(0, [1])].
Proof.
  cbv zeta.
  assert (Ha : 0 <= 0 < 2 ^ 16) by lia.
  assert (H1 : payload_ok [1]).
  { split; [constructor; [unfold byte_ok; lia | constructor] | simpl; lia]. }
  assert (H2 : payload_ok [2]).
  { split; [constructor; [unfold byte_ok; lia | constructor] | simpl; lia]. }
  assert (Hs : StronglySorted Z.lt (map fst [(0, [1])])).
  { simpl. constructor; constructor. }
  assert (Hf : Keyed.map_find (Z.lor 0 0) [(0, [1])] = Some [1]) by reflexivity.
  split; [exact (conj Ha (conj H1 (conj H2 (conj Hs Hf)))) |]. split.
  - exact (proj1 duplicate_address_keeps_first 1%nat 2 0 [(0, [1])]
             (Keyed.WriteRecord 1 0 []) 0 [2] [1] Ha H2 Hs Hf).
  - exact (proj2 duplicate_address_keeps_first 0 [1] [2] Ha H1 H2).
Defined.

(** ** The end-to-end scenario *)

(** C7 as stated fails.  The image of the scenario is encoded with the
    checksum FB, not 0C. *)
Lemma scenario_checksum_is_not_0C :
  Keyed.Generate [(0, [1; 2])] <> spec_scenario_output
  /\ Keyed.Generate [(0, [1; 2])]
     = text_line ":020000000102FB" ++ text_line ":00000001FF".
Proof.
  split; [| vm_compute; reflexivity].
  intros H. vm_compute in H. discriminate.
Qed.

Lemma checksum_determined (s ck : Z) :
  byte_ok ck -> (s + ck) mod 256 = 0 -> ck = (- s) mod 256.
Proof.
  intros Hc H. apply Z.mod_unique with (q := - ((s + ck) / 256)); [left; exact Hc |].
  pose proof (Z.div_mod (s + ck) 256 ltac:(lia)). lia.
Qed.

(** C7, as amended.  An image with one data record at address 0 and
    payload 01 02 is encoded as [:020000000102FB] CR LF followed by
    [:00000001FF] CR LF: in the address-keyed revision, which writes the
    end-of-file record itself, and in the ordered revision for the
    image decoded from any file, with an end-of-file record of size 0 at
    address 0. *)
Theorem scenario_encoding :
  Keyed.Generate [(0, [1; 2])]
  = text_line ":020000000102FB" ++ text_line ":00000001FF"
  /\ (forall input r e,
        Ordered.Parse input = inr [r; e] ->
        Ordered.address r = 0 -> Ordered.type r = 0 -> Ordered.data r = [1; 2] ->
        Ordered.size e = 0 -> Ordered.address e = 0 ->
        Ordered.Generate [r; e]
        = text_line ":020000000102FB" ++ text_line ":00000001FF").
Proof.
  split; [vm_compute; reflexivity |].
  intros input r e H Ha Ht Hd Hes Hea.
  apply Parse_decoded in H. destruct H as [Hok [front [last [Hfl [_ Hla]]]]].
  assert (Hlast : last = e).
  { destruct front as [| x [| y front]]; cbn [app] in Hfl; inversion Hfl; subst;
      try reflexivity.
    destruct front; discriminate. }
  subst last.
  inversion Hok as [| ? ? Hr Hok']; subst. inversion Hok' as [| ? ? He _]; subst.
  destruct r as [rs ra rt rd rc]. destruct e as [es ea et ed ec].
  cbn [Ordered.size Ordered.address Ordered.type Ordered.data Ordered.checksum] in *.
  subst ra rt rd es ea et.
  destruct Hr as [_ [_ [_ [_ [Hl [Hc Hs]]]]]].
  destruct He as [_ [_ [_ [_ [Hl' [Hc' Hs']]]]]].
  cbn [Ordered.size Ordered.address Ordered.type Ordered.data Ordered.checksum] in *.
  simpl List.length in Hl. subst rs.
  destruct ed as [| ? ?]; [| simpl in Hl'; lia].
  unfold Ordered.record_buffer, sum_bytes in Hs, Hs'.
  cbn [Ordered.size Ordered.address Ordered.type Ordered.data Ordered.checksum] in *.
  change (Z.of_nat 2) with 2 in *.
  change (firstn (Z.to_nat 2) [1; 2]) with [1; 2] in Hs.
  change (firstn (Z.to_nat 0) []) with (@nil Z) in Hs'.
  change (Z.shiftr 0 8 mod 256) with 0 in Hs, Hs'.
  change (0 mod 256) with 0 in Hs, Hs'.
  cbn [app fold_right] in Hs, Hs'.
  assert (Hrc : rc = (- (5)) mod 256).
  { apply (checksum_determined 5 rc); [exact Hc |]. rewrite <- Hs. f_equal. lia. }
  assert (Hec : ec = (- (1)) mod 256).
  { apply (checksum_determined 1 ec); [exact Hc' |]. rewrite <- Hs'. f_equal. lia. }
  subst rc ec. vm_compute. reflexivity.
Qed.

Lemma scenario_encoding_witness :
  let input := text_line ":020000000102FB" ++ text_line ":00000001FF" in
  let r := Ordered.mkHexRecord 2 0 0 [1; 2] 251 in
  let e := Ordered.mkHexRecord 0 0 1 [] 255 in
  Ordered.Parse input = inr [r; e]
  /\ Ordered.Generate [r; e] = input.
Proof.
  cbv zeta.
  assert (H : Ordered.Parse (text_line ":020000000102FB" ++ text_line ":00000001FF")
              = inr [Ordered.mkHexRecord 2 0 0 [1; 2] 251;
                     Ordered.mkHexRecord 0 0 1 [] 255])
    by (vm_compute; reflexivity).
  split; [exact H |].
  exact (proj2 scenario_encoding _ _ _ H eq_refl eq_refl eq_refl eq_refl eq_refl).
Defined.

(** ** Checksum enforcement *)

Lemma convert_error (len l : Z) (line : list ascii) (cs : list ascii) :
  forall i buffer cur sum e,
    convert cs i len l line buffer cur sum = inl e ->
    pe_message e = "not an hexadecimal character"%string.
Proof.
  induction cs as [| c cs IH]; intros i buffer cur sum e H; [discriminate |].
  destruct (nibble_of c) as [n |] eqn:E.
  - destruct (Z.odd i) eqn:Hi.
    + rewrite (convert_hex_odd _ _ _ _ _ _ _ _ _ n E Hi) in H. eauto.
    + rewrite (convert_hex_even _ _ _ _ _ _ _ _ _ n E Hi) in H. cbv zeta in H. eauto.
  - rewrite convert_not_hex in H by exact E.
    destruct ((ord c =? ord CR) && (i =? len - 1)); [discriminate |].
    inversion H; subst. reflexivity.
Qed.

(** A line whose bytes do not sum to zero is rejected with the checksum
    error. *)
Lemma line_bytes_checksum (l : Z) (line : list ascii) (len : Z)
  (buffer : list Z) (sum : Z) :
  10 <= len -> nth 0 line zero = ":"%char ->
  decoded_bytes l line len = inr (buffer, sum) ->
  sum_bytes buffer mod 256 <> 0 ->
  line_bytes l line len = inl (checksum_error l line len).
Proof.
  intros Hlen Hc Hd Hs. unfold line_bytes. unfold decoded_bytes in Hd.
  replace (len <? 10) with false by (symmetry; apply Z.ltb_ge; lia).
  rewrite Hc, Ascii.eqb_refl. cbn [negb orb]. rewrite Hd.
  destruct (convert_inv _ _ _ _ _ _ _ _ _ _ Hd (Forall_nil _) eq_refl) as [_ Hsum].
  destruct (Z.eqb_spec sum 0) as [E | E]; [congruence | reflexivity].
Qed.

(** The message "checksum error" is that of no other failure. *)
Lemma line_bytes_checksum_only (l : Z) (line : list ascii) (len : Z) (e : ParseError) :
  line_bytes l line len = inl e ->
  pe_message e = "checksum error"%string ->
  e = checksum_error l line len
  /\ exists buffer sum,
       decoded_bytes l line len = inr (buffer, sum)
       /\ sum_bytes buffer mod 256 <> 0.
Proof.
  unfold line_bytes, decoded_bytes. intros H Hm.
  destruct ((len <? 10) || negb (Ascii.eqb (nth 0 line zero) ":")).
  { inversion H; subst. discriminate. }
  destruct (convert _ 1 len l line [] 0 0) as [e' | [buffer sum]] eqn:E.
  { inversion H; subst. apply convert_error in E. rewrite E in Hm. discriminate. }
  destruct (convert_inv _ _ _ _ _ _ _ _ _ _ E (Forall_nil _) eq_refl) as [_ Hsum].
  destruct (Z.eqb_spec sum 0) as [Hz | Hz]; cbn [negb] in H.
  - cbv zeta in H.
    destruct (rd buffer 0 + 5 =? Z.of_nat (List.length buffer)); cbn [negb] in H;
      [discriminate |].
    inversion H; subst e. discriminate.
  - inversion H; subst e. split; [reflexivity |].
    exists buffer, sum. split; [reflexivity | congruence].
Qed.

Lemma Ordered_Parse_loop_checksum_only (fuel : nat) :
  forall l fData input e,
    Ordered.Parse_loop fuel l fData input = inl (parse_error e) ->
    pe_message e = "checksum error"%string ->
    exists buffer sum,
      decoded_bytes (pe_line e) (pe_data e) (pe_column e + 2) = inr (buffer, sum)
      /\ sum_bytes buffer mod 256 <> 0.
Proof.
  induction fuel as [| fuel IH]; intros l fData input e H Hm; [discriminate |].
  cbn [Ordered.Parse_loop] in H.
  destruct (getline input) as [[[line gcount] rest] |]; [| discriminate].
  destruct (line_bytes l line (gcount - 1)) as [e' | buffer] eqn:Hl.
  - inversion H; subst e'.
    destruct (line_bytes_checksum_only _ _ _ _ Hl Hm) as [-> Hex].
    cbn [checksum_error pe_line pe_data pe_column].
    now replace (gcount - 1 - 2 + 2) with (gcount - 1) by lia.
  - cbv zeta in H. destruct (Ordered.type (Ordered.HexRecord_of buffer) =? 1);
      [discriminate | eauto].
Qed.

Lemma Keyed_Parse_loop_checksum_only (fuel : nat) :
  forall l extended fData input e,
    Keyed.Parse_loop fuel l extended fData input = inl (parse_error e) ->
    pe_message e = "checksum error"%string ->
    exists buffer sum,
      decoded_bytes (pe_line e) (pe_data e) (pe_column e + 2) = inr (buffer, sum)
      /\ sum_bytes buffer mod 256 <> 0.
Proof.
  induction fuel as [| fuel IH]; intros l extended fData input e H Hm;
    [discriminate |].
  cbn [Keyed.Parse_loop] in H.
  destruct (getline input) as [[[line gcount] rest] |]; [| discriminate].
  destruct (line_bytes l line (gcount - 1)) as [e' | buffer] eqn:Hl.
  - inversion H; subst e'.
    destruct (line_bytes_checksum_only _ _ _ _ Hl Hm) as [-> Hex].
    cbn [checksum_error pe_line pe_data pe_column].
    now replace (gcount - 1 - 2 + 2) with (gcount - 1) by lia.
  - cbv zeta in H. destruct (rd buffer 3 =? 0); [eauto |].
    destruct (rd buffer 3 =? 1).
    { destruct (rd buffer 0 =? 0); cbn [negb] in H; [discriminate |].
      inversion H; subst e. discriminate. }
    destruct (rd buffer 3 =? 4).
    { destruct (rd buffer 0 =? 2); cbn [negb] in H; [eauto |].
      inversion H; subst e. discriminate. }
    inversion H; subst e. discriminate.
Qed.

(** C6.  At any turn of the loop of [Parse], in both revisions, when
    the line just read passes the test on its length and first
    character and the bytes decoded from it do not sum to zero modulo
    256, [Parse] throws the [ParseError] whose message is
    "checksum error"; and whenever [Parse] throws a [ParseError] with
    that message, the bytes decoded from the line it reports do not sum
    to zero: no other failure is reported with it. *)
Theorem checksum_enforced :
  (forall fuel l fData input line gcount rest buffer sum,
     getline input = Some (line, gcount, rest) ->
     10 <= gcount - 1 -> nth 0 line zero = ":"%char ->
     decoded_bytes l line (gcount - 1) = inr (buffer, sum) ->
     sum_bytes buffer mod 256 <> 0 ->
     Ordered.Parse_loop (S fuel) l fData input
     = inl (parse_error (checksum_error l line (gcount - 1))))
  /\ (forall fuel l extended fData input line gcount rest buffer sum,
        getline input = Some (line, gcount, rest) ->
        10 <= gcount - 1 -> nth 0 line zero = ":"%char ->
        decoded_bytes l line (gcount - 1) = inr (buffer, sum) ->
        sum_bytes buffer mod 256 <> 0 ->
        Keyed.Parse_loop (S fuel) l extended fData input
        = inl (parse_error (checksum_error l line (gcount - 1))))
  /\ (forall input e,
        Ordered.Parse input = inl (parse_error e) ->
        pe_message e = "checksum error"%string ->
        exists buffer sum,
          decoded_bytes (pe_line e) (pe_data e) (pe_column e + 2) = inr (buffer, sum)
          /\ sum_bytes buffer mod 256 <> 0)
  /\ (forall input e,
        Keyed.Parse input = inl (parse_error e) ->
        pe_message e = "checksum error"%string ->
        exists buffer sum,
          decoded_bytes (pe_line e) (pe_data e) (pe_column e + 2) = inr (buffer, sum)
          /\ sum_bytes buffer mod 256 <> 0).
Proof.
  repeat split.
  - intros fuel l fData input line gcount rest buffer sum Hg Hlen Hc Hd Hs.
    cbn [Ordered.Parse_loop]. rewrite Hg.
    now rewrite (line_bytes_checksum _ _ _ _ _ Hlen Hc Hd Hs).
  - intros fuel l extended fData input line gcount rest buffer sum Hg Hlen Hc Hd Hs.
    cbn [Keyed.Parse_loop]. rewrite Hg.
    now rewrite (line_bytes_checksum _ _ _ _ _ Hlen Hc Hd Hs).
  - intros input e. apply Ordered_Parse_loop_checksum_only.
  - intros input e. apply Keyed_Parse_loop_checksum_only.
Qed.

Lemma checksum_enforced_witness :
  let input := text_line ":00000001FE" in
  let line := text ":00000001FE" ++ [CR] in
  let e := checksum_error 1 line (13 - 1) in
  (getline input = Some (line, 13, [])
   /\ 10 <= 13 - 1 /\ nth 0 line zero = ":"%char
   /\ decoded_bytes 1 line (13 - 1) = inr ([0; 0; 0; 1; 254], 255)
   /\ sum_bytes [0; 0; 0; 1; 254] mod 256 <> 0)
  /\ Ordered.Parse_loop 1 1 [] input = inl (parse_error e)
  /\ Keyed.Parse_loop 1 1 0 [] input = inl (parse_error e)
  /\ (Ordered.Parse input = inl (parse_error e)
      /\ pe_message e = "checksum error"%string
      /\ exists buffer sum,
           decoded_bytes (pe_line e) (pe_data e) (pe_column e + 2) = inr (buffer, sum)
           /\ sum_bytes buffer mod 256 <> 0)
  /\ (Keyed.Parse input = inl (parse_error e)
      /\ pe_message e = "checksum error"%string
      /\ exists buffer sum,
           decoded_bytes (pe_line e) (pe_data e) (pe_column e + 2) = inr (buffer, sum)
           /\ sum_bytes buffer mod 256 <> 0).
Proof.
  cbv zeta.
  assert (Hg : getline (text_line ":00000001FE")
               = Some (text ":00000001FE" ++ [CR], 13, [])) by (vm_compute; reflexivity).
  assert (Hlen : 10 <= 13 - 1) by lia.
  assert (Hc : nth 0 (text ":00000001FE" ++ [CR]) zero = ":"%char) by reflexivity.
  assert (Hd : decoded_bytes 1 (text ":00000001FE" ++ [CR]) (13 - 1)
               = inr ([0; 0; 0; 1; 254], 255)) by (vm_compute; reflexivity).
  assert (Hs : sum_bytes [0; 0; 0; 1; 254] mod 256 <> 0)
    by (vm_compute; discriminate).
  assert (Ho : Ordered.Parse (text_line ":00000001FE")
               = inl (parse_error
                        (checksum_error 1 (text ":00000001FE" ++ [CR]) (13 - 1))))
    by (vm_compute; reflexivity).
  assert (Hk : Keyed.Parse (text_line ":00000001FE")
               = inl (parse_error
                        (checksum_error 1 (text ":00000001FE" ++ [CR]) (13 - 1))))
    by (vm_compute; reflexivity).
  destruct checksum_enforced as [T1 [T2 [T3 T4]]].
  split; [exact (conj Hg (conj Hlen (conj Hc (conj Hd Hs)))) |].
  split; [exact (T1 0%nat 1 [] _ _ _ _ _ _ Hg Hlen Hc Hd Hs) |].
  split; [exact (T2 0%nat 1 0 [] _ _ _ _ _ _ Hg Hlen Hc Hd Hs) |].
  split.
  - split; [exact Ho |]. split; [reflexivity |]. exact (T3 _ _ Ho eq_refl).
  - split; [exact Hk |]. split; [reflexivity |]. exact (T4 _ _ Hk eq_refl).
Defined.

(** ** An unpaired last digit *)

Lemma convert_feed (len l : Z) (line : list ascii) (digits : list ascii) :
  forall tail i buffer cur sum,
    Forall (fun c => nibble_of c <> None) digits ->
    convert (digits ++ tail) i len l line buffer cur sum
    = let '(buffer', cur', sum') := feed digits i buffer cur sum in
      convert tail (i + Z.of_nat (List.length digits)) len l line buffer' cur' sum'.
Proof.
  induction digits as [| c digits IH]; intros tail i buffer cur sum Hd.
  - cbn [app feed List.length]. now rewrite Z.add_0_r.
  - inversion Hd as [| ? ? Hc Hd']; subst.
    destruct (nibble_of c) as [n |] eqn:E; [| contradiction].
    cbn [app feed]. rewrite E.
    replace (i + Z.of_nat (List.length (c :: digits)))
      with (i + 1 + Z.of_nat (List.length digits)) by (simpl List.length; lia).
    destruct (Z.odd i) eqn:Hi.
    + rewrite (convert_hex_odd _ _ _ _ _ _ _ _ _ n E Hi). now apply IH.
    + rewrite (convert_hex_even _ _ _ _ _ _ _ _ _ n E Hi). cbv zeta. now apply IH.
Qed.

Lemma odd_column (n : nat) : Nat.even n = true -> Z.odd (1 + Z.of_nat n) = true.
Proof.
  intros H. apply Nat.even_spec in H. destruct H as [k ->].
  rewrite Z.odd_add. change (Z.odd 1) with true.
  assert (E : Z.odd (Z.of_nat (2 * k)) = false).
  { rewrite <- Z.negb_even. apply negb_false_iff. apply Z.even_spec.
    exists (Z.of_nat k). lia. }
  now rewrite E.
Qed.

(** The tests of [line_bytes] after the conversion. *)
Lemma line_bytes_tests (l : Z) (line : list ascii) (len : Z) :
  10 <= len -> nth 0 line zero = ":"%char ->
  line_bytes l line len
  = match decoded_bytes l line len with
    | inl e => inl e
    | inr (buffer, sum) =>
        if negb (sum =? 0) then inl (checksum_error l line len)
        else if negb (rd buffer 0 + 5 =? Z.of_nat (List.length buffer))
             then inl (mkParseError l 2 "mismatched length" line)
             else inr buffer
    end.
Proof.
  intros Hlen Hc. unfold line_bytes, decoded_bytes.
  replace (len <? 10) with false by (symmetry; apply Z.ltb_ge; lia).
  now rewrite Hc, Ascii.eqb_refl.
Qed.

Lemma line_bytes_accepts (l : Z) (line : list ascii) (len : Z) (buffer : list Z) :
  line_bytes l line len = inr buffer ->
  10 <= len /\ nth 0 line zero = ":"%char
  /\ exists sum, decoded_bytes l line len = inr (buffer, sum)
                 /\ sum = 0 /\ rd buffer 0 + 5 = Z.of_nat (List.length buffer).
Proof.
  unfold line_bytes, decoded_bytes. intros H.
  destruct (Z.ltb_spec len 10); [discriminate |].
  destruct (Ascii.eqb_spec (nth 0 line zero) ":"); [| discriminate].
  cbn [negb orb] in H.
  destruct (convert _ 1 len l line [] 0 0) as [e' | [buf sum]]; [discriminate |].
  destruct (Z.eqb_spec sum 0); [| discriminate]. cbn [negb] in H. cbv zeta in H.
  destruct (Z.eqb_spec (rd buf 0 + 5) (Z.of_nat (List.length buf))); [| discriminate].
  cbn [negb] in H. inversion H; subst. repeat split; try assumption; try lia.
  exists 0. auto.
Qed.

Section OddDigit.

Variables (l : Z) (digits : list ascii) (h : ascii).
Hypothesis digits_hex : Forall (fun c => nibble_of c <> None) digits.
Hypothesis digits_even : Nat.even (List.length digits) = true.
Hypothesis h_hex : nibble_of h <> None.

Let n := Z.of_nat (List.length digits).

Lemma decoded_plain :
  decoded_bytes l (":"%char :: digits) (n + 1)
  = let '(buffer, _, sum) := feed digits 1 [] 0 0 in inr (buffer, sum).
Proof.
  unfold decoded_bytes. cbn [tl].
  rewrite firstn_all2 by (subst n; lia).
  rewrite <- (app_nil_r digits) at 1. rewrite convert_feed by exact digits_hex.
  now destruct (feed digits 1 [] 0 0) as [[buffer cur] sum].
Qed.

Lemma decoded_odd :
  decoded_bytes l (":"%char :: digits ++ [h]) (n + 2)
  = let '(buffer, _, sum) := feed digits 1 [] 0 0 in inr (buffer, sum).
Proof.
  unfold decoded_bytes. cbn [tl].
  rewrite firstn_all2 by (rewrite length_app; simpl; subst n; lia).
  rewrite convert_feed by exact digits_hex.
  destruct (feed digits 1 [] 0 0) as [[buffer cur] sum].
  destruct (nibble_of h) as [k |] eqn:E; [| contradiction].
  now rewrite (convert_hex_odd _ _ _ _ _ _ _ _ _ k E (odd_column _ digits_even)).
Qed.

Lemma decoded_plain_CR :
  decoded_bytes l (":"%char :: digits ++ [CR]) (n + 2)
  = let '(buffer, _, sum) := feed digits 1 [] 0 0 in inr (buffer, sum).
Proof.
  unfold decoded_bytes. cbn [tl].
  rewrite firstn_all2 by (rewrite length_app; simpl; subst n; lia).
  rewrite convert_feed by exact digits_hex.
  destruct (feed digits 1 [] 0 0) as [[buffer cur] sum].
  rewrite convert_not_hex by reflexivity. rewrite Z.eqb_refl. cbn [andb].
  fold n. now replace (1 + n =? n + 2 - 1) with true by (symmetry; apply Z.eqb_eq; lia).
Qed.

Lemma decoded_odd_CR :
  decoded_bytes l (":"%char :: digits ++ [h; CR]) (n + 3)
  = let '(buffer, _, sum) := feed digits 1 [] 0 0 in inr (buffer, sum).
Proof.
  unfold decoded_bytes. cbn [tl].
  rewrite firstn_all2 by (rewrite length_app; simpl; subst n; lia).
  rewrite convert_feed by exact digits_hex.
  destruct (feed digits 1 [] 0 0) as [[buffer cur] sum].
  destruct (nibble_of h) as [k |] eqn:E; [| contradiction].
  rewrite (convert_hex_odd _ _ _ _ _ _ _ _ _ k E (odd_column _ digits_even)).
  rewrite convert_not_hex by reflexivity. rewrite Z.eqb_refl. cbn [andb].
  fold n.
  now replace (1 + n + 1 =? n + 3 - 1) with true by (symmetry; apply Z.eqb_eq; lia).
Qed.

Lemma odd_digit_line (buffer : list Z) :
  line_bytes l (":"%char :: digits) (n + 1) = inr buffer ->
  line_bytes l (":"%char :: digits ++ [h]) (n + 2) = inr buffer.
Proof.
  intros H. destruct (line_bytes_accepts _ _ _ _ H) as [Hlen [Hc [sum [Hd [Hs Hcount]]]]].
  rewrite line_bytes_tests by (try reflexivity; lia).
  rewrite decoded_odd. rewrite decoded_plain in Hd.
  destruct (feed digits 1 [] 0 0) as [[buffer' cur] sum'].
  inversion Hd; subst. cbn [Z.eqb negb].
  now replace (rd buffer 0 + 5 =? Z.of_nat (List.length buffer)) with true
    by (symmetry; apply Z.eqb_eq; exact Hcount).
Qed.

Lemma odd_digit_line_CR (buffer : list Z) :
  line_bytes l (":"%char :: digits ++ [CR]) (n + 2) = inr buffer ->
  line_bytes l (":"%char :: digits ++ [h; CR]) (n + 3) = inr buffer.
Proof.
  intros H. destruct (line_bytes_accepts _ _ _ _ H) as [Hlen [Hc [sum [Hd [Hs Hcount]]]]].
  rewrite line_bytes_tests by (try reflexivity; lia).
  rewrite decoded_odd_CR. rewrite decoded_plain_CR in Hd.
  destruct (feed digits 1 [] 0 0) as [[buffer' cur] sum'].
  inversion Hd; subst. cbn [Z.eqb negb].
  now replace (rd buffer 0 + 5 =? Z.of_nat (List.length buffer)) with true
    by (symmetry; apply Z.eqb_eq; exact Hcount).
Qed.

End OddDigit.

(** C10.  A line with an odd number of hexadecimal digits after the
    colon is accepted, as the record of the digits before the last one,
    whenever the line without its last digit is accepted; with or
    without a carriage return at the end of the line.  The line
    [:00000001FFF] is read as an end-of-file record by both revisions. *)
Theorem unpaired_digit_ignored :
  (forall l digits h buffer,
     Forall (fun c => nibble_of c <> None) digits ->
     Nat.even (List.length digits) = true ->
     nibble_of h <> None ->
     (line_bytes l (":"%char :: digits) (Z.of_nat (List.length digits) + 1)
      = inr buffer ->
      line_bytes l (":"%char :: digits ++ [h]) (Z.of_nat (List.length digits) + 2)
      = inr buffer)
     /\ (line_bytes l (":"%char :: digits ++ [CR]) (Z.of_nat (List.length digits) + 2)
         = inr buffer ->
         line_bytes l (":"%char :: digits ++ [h; CR])
           (Z.of_nat (List.length digits) + 3)
         = inr buffer))
  /\ Ordered.Parse (text_line ":00000001FFF") = inr [Ordered.mkHexRecord 0 0 1 [] 255]
  /\ Ordered.Parse (text_line ":00000001FFF") = Ordered.Parse (text_line ":00000001FF")
  /\ Keyed.Parse (text_line ":00000001FFF") = inr []
  /\ Keyed.Parse (text_line ":00000001FFF") = Keyed.Parse (text_line ":00000001FF").
Proof.
  split; [| repeat split; vm_compute; reflexivity].
  intros l digits h buffer Hd He Hh. split.
  - now apply odd_digit_line.
  - now apply odd_digit_line_CR.
Qed.

Lemma unpaired_digit_ignored_witness :
  let digits := text "00000001FF" in
  let h := "F"%char in
  let buffer := [0; 0; 0; 1; 255] in
  (Forall (fun c => nibble_of c <> None) digits
   /\ Nat.even (List.length digits) = true
   /\ nibble_of h <> None
   /\ line_bytes 1 (":"%char :: digits) (Z.of_nat (List.length digits) + 1) = inr buffer
   /\ line_bytes 1 (":"%char :: digits ++ [CR]) (Z.of_nat (List.length digits) + 2)
      = inr buffer)
  /\ line_bytes 1 (":"%char :: digits ++ [h]) (Z.of_nat (List.length digits) + 2)
     = inr buffer
  /\ line_bytes 1 (":"%char :: digits ++ [h; CR]) (Z.of_nat (List.length digits) + 3)
     = inr buffer.
Proof.
  cbv zeta.
  assert (Hd : Forall (fun c => nibble_of c <> None) (text "00000001FF")).
  { repeat constructor; vm_compute; discriminate. }
  assert (He : Nat.even (List.length (text "00000001FF")) = true) by reflexivity.
  assert (Hh : nibble_of "F" <> None) by (vm_compute; discriminate).
  assert (H1 : line_bytes 1 (":"%char :: text "00000001FF")
                 (Z.of_nat (List.length (text "00000001FF")) + 1)
               = inr [0; 0; 0; 1; 255]) by (vm_compute; reflexivity).
  assert (H2 : line_bytes 1 (":"%char :: text "00000001FF" ++ [CR])
                 (Z.of_nat (List.length (text "00000001FF")) + 2)
               = inr [0; 0; 0; 1; 255]) by (vm_compute; reflexivity).
  destruct (proj1 unpaired_digit_ignored 1 (text "00000001FF") "F"%char
              [0; 0; 0; 1; 255] Hd He Hh) as [T1 T2].
  split; [exact (conj Hd (conj He (conj Hh (conj H1 H2)))) |].
  split; [exact (T1 H1) | exact (T2 H2)].
Defined.

(** ** Decoding and encoding again *)

Lemma upper_hex_digit (c : ascii) :
  upper_hex c = true -> exists n, 0 <= n < 16 /\ hex_digit n = c.
Proof.
  assert (H : implb (upper_hex c)
                match nibble_of c with
                | Some n => Ascii.eqb (hex_digit n) c && (0 <=? n) && (n <? 16)
                | None => false
                end = true).
  { destruct c as [[] [] [] [] [] [] [] []]; vm_compute; reflexivity. }
  intros Hu. rewrite Hu in H. cbn [implb] in H.
  destruct (nibble_of c) as [n |]; [| discriminate].
  apply andb_prop in H. destruct H as [H H3]. apply andb_prop in H.
  destruct H as [H1 H2]. apply Ascii.eqb_eq in H1. exists n. split; [lia | exact H1].
Qed.

Lemma put_byte_nibbles (n1 n2 : Z) :
  0 <= n1 < 16 -> 0 <= n2 < 16 ->
  byte_ok (n1 * 16 + n2) /\ put_byte (n1 * 16 + n2) = [hex_digit n1; hex_digit n2].
Proof.
  intros H1 H2. split; [unfold byte_ok; lia |].
  pose proof (nibble_cases_bool
    (fun n1 => forallb
       (fun n2 => (Z.shiftr (n1 * 16 + n2) 4 =? n1) && (Z.land (n1 * 16 + n2) 15 =? n2))
       (map Z.of_nat (seq 0 16)))
    ltac:(vm_compute; reflexivity) n1 H1) as H.
  cbv beta in H.
  pose proof (nibble_cases_bool _ H n2 H2) as H'. cbv beta in H'.
  apply andb_prop in H'. destruct H' as [E1 E2].
  apply Z.eqb_eq in E1, E2. unfold put_byte. now rewrite E1, E2.
Qed.

Lemma upper_hex_digits (digits : list ascii) :
  forall k, List.length digits = (2 * k)%nat ->
    forallb upper_hex digits = true ->
    exists bytes, Forall byte_ok bytes /\ digits = flat_map put_byte bytes.
Proof.
  intros k. revert digits.
  induction k as [| k IH]; intros digits Hl Hu.
  - destruct digits; [| discriminate]. exists []. split; [constructor | reflexivity].
  - destruct digits as [| c1 [| c2 digits]]; try (simpl in Hl; lia).
    cbn [forallb] in Hu. apply andb_prop in Hu. destruct Hu as [U1 Hu].
    apply andb_prop in Hu. destruct Hu as [U2 Hu].
    destruct (upper_hex_digit c1 U1) as [n1 [R1 <-]].
    destruct (upper_hex_digit c2 U2) as [n2 [R2 <-]].
    destruct (IH digits ltac:(simpl in Hl; lia) Hu) as [bytes [Hb ->]].
    destruct (put_byte_nibbles n1 n2 R1 R2) as [Hok Hp].
    exists ((n1 * 16 + n2) :: bytes). split; [constructor; assumption |].
    cbn [flat_map]. now rewrite Hp.
Qed.

Lemma canonical_written (line : list ascii) :
  canonical_line line ->
  exists bytes, Forall byte_ok bytes /\ line = written_line bytes.
Proof.
  intros [digits [-> [Hu He]]]. apply Nat.even_spec in He. destruct He as [k Hk].
  destruct (upper_hex_digits digits k Hk Hu) as [bytes [Hb ->]].
  exists bytes. split; [exact Hb | reflexivity].
Qed.

Lemma written_line_length (bytes : list Z) :
  List.length (written_line bytes) = (2 * List.length bytes + 2)%nat.
Proof.
  unfold written_line. simpl. rewrite length_app, put_bytes_length. simpl. lia.
Qed.

Lemma written_line_plain (bytes : list Z) :
  Forall byte_ok bytes -> Forall (fun c => c <> LF) (written_line bytes).
Proof.
  intros Hb. unfold written_line.
  constructor; [intros E; vm_compute in E; discriminate |].
  apply Forall_app. split; [now apply put_bytes_plain |].
  constructor; [intros E; vm_compute in E; discriminate | constructor].
Qed.

Lemma decoded_written (l : Z) (bytes : list Z) :
  Forall byte_ok bytes ->
  decoded_bytes l (written_line bytes) (Z.of_nat (List.length (written_line bytes)))
  = inr (bytes, sum_bytes bytes mod 256).
Proof.
  intros Hb. unfold decoded_bytes. rewrite written_line_length.
  cbn [written_line tl].
  rewrite firstn_all2 by (rewrite length_app, put_bytes_length; simpl; lia).
  rewrite convert_put_bytes by (try assumption; try reflexivity; unfold byte_ok; lia).
  rewrite convert_not_hex by reflexivity. rewrite Z.eqb_refl. cbn [andb app].
  now replace (1 + 2 * Z.of_nat (List.length bytes)
               =? Z.of_nat (2 * List.length bytes + 2) - 1) with true
    by (symmetry; apply Z.eqb_eq; lia).
Qed.

Lemma getline_scan_split (line rest : list ascii) :
  forall room line' gcount rest',
    Forall (fun c => c <> LF) line ->
    getline_scan room (line ++ LF :: rest) = Some (line', gcount, rest') ->
    line' = line /\ gcount = Z.of_nat (List.length line) + 1 /\ rest' = rest.
Proof.
  induction line as [| c line IH]; intros room line' gcount rest' Hl H.
  - cbn [app getline_scan] in H. rewrite Ascii.eqb_refl in H.
    inversion H; subst. auto.
  - inversion Hl as [| ? ? Hc Hl']; subst. cbn [app getline_scan] in H.
    apply Ascii.eqb_neq in Hc. rewrite Hc in H.
    destruct room as [| room]; [discriminate |].
    destruct (getline_scan room (line ++ LF :: rest)) as [[[ln g] rs] |] eqn:E;
      [| discriminate].
    inversion H; subst. destruct (IH _ _ _ _ Hl' E) as [-> [-> ->]].
    repeat split. simpl List.length. lia.
Qed.

Lemma getline_split (line rest line' rest' : list ascii) (gcount : Z) :
  Forall (fun c => c <> LF) line ->
  getline (line ++ LF :: rest) = Some (line', gcount, rest') ->
  line' = line /\ gcount = Z.of_nat (List.length line) + 1 /\ rest' = rest.
Proof.
  intros Hl H. unfold getline in H.
  destruct (line ++ LF :: rest) eqn:E; [discriminate |].
  rewrite <- E in H. eapply getline_scan_split; eauto.
Qed.

Lemma Parse_canonical (lines : list (list ascii)) :
  forall fuel l fData image,
    Forall canonical_line lines ->
    Ordered.Parse_loop fuel l fData (join_lines lines) = inr image ->
    exists records,
      image = fData ++ records
      /\ (List.length records <= List.length lines)%nat
      /\ Ordered.Generate records
         = join_lines (firstn (List.length records) lines).
Proof.
  induction lines as [| line lines IH]; intros fuel l fData image Hc H.
  - destruct fuel; discriminate.
  - destruct fuel as [| fuel]; [discriminate |].
    inversion Hc as [| ? ? Hline Hc']; subst.
    destruct (canonical_written line Hline) as [bytes [Hb ->]].
    cbn [join_lines flat_map] in H. fold (join_lines lines) in H.
    rewrite <- app_assoc in H. cbn [app] in H.
    cbn [Ordered.Parse_loop] in H.
    destruct (getline (written_line bytes ++ LF :: join_lines lines))
      as [[[line' gcount] rest] |] eqn:Hg; [| discriminate].
    apply getline_split in Hg; [| now apply written_line_plain].
    destruct Hg as [-> [-> ->]].
    destruct (line_bytes l (written_line bytes)
                (Z.of_nat (List.length (written_line bytes)) + 1 - 1))
      as [e | buffer] eqn:Hl; [discriminate |].
    pose proof (line_bytes_inv _ _ _ _ Hl) as Hok. fold (record_bytes_ok buffer) in Hok.
    destruct (line_bytes_accepts _ _ _ _ Hl) as [_ [_ [sum [Hd _]]]].
    replace (Z.of_nat (List.length (written_line bytes)) + 1 - 1)
      with (Z.of_nat (List.length (written_line bytes))) in Hd by lia.
    rewrite decoded_written in Hd by exact Hb. inversion Hd; subst buffer.
    destruct (HexRecord_of_buffer bytes Hok) as [Hbuf _].
    assert (Hgen : Ordered.HexRecord_Generate (Ordered.HexRecord_of bytes)
                   = written_line bytes ++ [LF]).
    { unfold Ordered.HexRecord_Generate, written_line. rewrite Hbuf.
      cbn [app]. now rewrite <- app_assoc. }
    cbv zeta in H.
    destruct (Ordered.type (Ordered.HexRecord_of bytes) =? 1).
    + inversion H; subst image. exists [Ordered.HexRecord_of bytes].
      split; [reflexivity |]. split; [simpl; lia |].
      cbn [Ordered.Generate flat_map List.length firstn join_lines].
      now rewrite Hgen.
    + destruct (IH _ _ _ _ Hc' H) as [records [-> [Hlen Hrec]]].
      exists (Ordered.HexRecord_of bytes :: records).
      split; [now rewrite <- app_assoc |]. split; [simpl; lia |].
      cbn [Ordered.Generate flat_map List.length firstn join_lines].
      fold (Ordered.Generate records).
      fold (join_lines (firstn (List.length records) lines)).
      now rewrite Hgen, Hrec.
Qed.

(** C2, as amended.  In the ordered revision, a file whose lines are
    all in the form that [Generate] writes (a colon, an even number of
    uppercase hexadecimal digits, CR LF) and all read by [Parse], so
    that the file ends with its end-of-file record, is encoded again to
    the same characters; and the file encoded from the image of any
    accepted file is decoded to the same image.  In the address-keyed
    revision, the file encoded from the image of any accepted file is
    decoded to the same image: the payload at every address is that of
    the input. *)
Theorem decode_then_encode :
  (forall lines image,
     Forall canonical_line lines ->
     Ordered.Parse (join_lines lines) = inr image ->
     List.length image = List.length lines ->
     Ordered.Generate image = join_lines lines)
  /\ (forall input image,
        Ordered.Parse input = inr image ->
        Ordered.Parse (Ordered.Generate image) = inr image)
  /\ (forall input image,
        Keyed.Parse input = inr image ->
        Keyed.Parse (Keyed.Generate image) = inr image).
Proof.
  split; [| split].
  - intros lines image Hc H Hlen.
    destruct (Parse_canonical lines _ _ _ _ Hc H) as [records [Himg [_ Hgen]]].
    cbn [app] in Himg. subst records.
    now rewrite Hlen, firstn_all in Hgen.
  - intros input image H. apply Ordered_Parse_Generate. eapply Parse_decoded, H.
  - intros input image H. apply Keyed_Parse_Generate. eapply Keyed_Parse_ok, H.
Qed.

Lemma decode_then_encode_witness :
  let lines := [text ":021234000102B5" ++ [CR]; text ":00000001FF" ++ [CR]] in
  let input := text_line ":02000004ABCD82" ++ text_line ":021234000102b5"
                 ++ text_line ":00000001FF" in
  (Forall canonical_line lines
   /\ Ordered.Parse (join_lines lines)
      = inr [Ordered.mkHexRecord 2 0x1234 0 [1; 2] 181;
             Ordered.mkHexRecord 0 0 1 [] 255])
  /\ Ordered.Generate [Ordered.mkHexRecord 2 0x1234 0 [1; 2] 181;
                       Ordered.mkHexRecord 0 0 1 [] 255]
     = join_lines lines
  /\ Ordered.Parse (Ordered.Generate [Ordered.mkHexRecord 2 0x1234 0 [1; 2] 181;
                                      Ordered.mkHexRecord 0 0 1 [] 255])
     = inr [Ordered.mkHexRecord 2 0x1234 0 [1; 2] 181;
            Ordered.mkHexRecord 0 0 1 [] 255]
  /\ Keyed.Parse input = inr [(0xABCD1234, [1; 2])]
  /\ Keyed.Parse (Keyed.Generate [(0xABCD1234, [1; 2])]) = inr [(0xABCD1234, [1; 2])].
Proof.
  cbv zeta.
  assert (Hc : Forall canonical_line
                 [text ":021234000102B5" ++ [CR]; text ":00000001FF" ++ [CR]]).
  { constructor; [exists (text "021234000102B5"); repeat split |].
    constructor; [exists (text "00000001FF"); repeat split | constructor]. }
  assert (Ho : Ordered.Parse
                 (join_lines [text ":021234000102B5" ++ [CR]; text ":00000001FF" ++ [CR]])
               = inr [Ordered.mkHexRecord 2 0x1234 0 [1; 2] 181;
                      Ordered.mkHexRecord 0 0 1 [] 255])
    by (vm_compute; reflexivity).
  assert (Hk : Keyed.Parse (text_line ":02000004ABCD82" ++ text_line ":021234000102b5"
                              ++ text_line ":00000001FF")
               = inr [(0xABCD1234, [1; 2])]) by (vm_compute; reflexivity).
  split; [exact (conj Hc Ho) |].
  destruct decode_then_encode as [T1 [T2 T3]].
  split; [exact (T1 _ _ Hc Ho eq_refl) |].
  split; [exact (T2 _ _ Ho) |].
  split; [exact Hk | exact (T3 _ _ Hk)].
Defined.

(** C2 as stated fails.  Files that [Parse] accepts and that are not
    encoded again to the same characters: one with lowercase digits and
    one whose line ends with a line feed alone. *)
Lemma accepted_file_not_reproduced :
  let eof := Ordered.mkHexRecord 0 0 1 [] 255 in
  Ordered.Parse (text_line ":00000001ff") = inr [eof]
  /\ Ordered.Generate [eof] = text_line ":00000001FF"
  /\ Ordered.Generate [eof] <> text_line ":00000001ff"
  /\ Ordered.Parse (text ":00000001FF" ++ [LF]) = inr [eof]
  /\ Ordered.Generate [eof] <> text ":00000001FF" ++ [LF].
Proof.
  cbv zeta. repeat split; try (vm_compute; reflexivity);
    intros H; vm_compute in H; discriminate.
Qed.

(** * Further properties *)

(** ** The keystream generator: the state is a permutation *)

Section StatePermutation.

Import Arcfour.

Lemma wr_nat_swap_head (x v : Z) (t : list Z) (j : nat) :
  (j < List.length t)%nat ->
  Permutation (nth j t 0 :: wr_nat t j x) (x :: t).
Proof.
  revert j. induction t as [| y t IH]; intros j Hj; [simpl in Hj; lia |].
  destruct j as [| j]; cbn [nth wr_nat].
  - apply perm_swap.
  - simpl in Hj. apply Nat.succ_lt_mono in Hj.
    eapply perm_trans; [apply perm_swap |].
    eapply perm_trans; [apply perm_skip, IH, Hj |]. apply perm_swap.
Qed.

Lemma swap_nat_permutation (s : list Z) :
  forall i j, (i < List.length s)%nat -> (j < List.length s)%nat ->
    Permutation (wr_nat (wr_nat s i (nth j s 0)) j (nth i s 0)) s.
Proof.
  induction s as [| x t IH]; intros i j Hi Hj; [simpl in Hi; lia |].
  simpl in Hi, Hj. destruct i as [| i]; destruct j as [| j]; cbn [nth wr_nat].
  - apply Permutation_refl.
  - apply (wr_nat_swap_head x 0); lia.
  - apply (wr_nat_swap_head x 0); lia.
  - apply perm_skip. apply IH; lia.
Qed.

Lemma swap_permutation (state : list Z) (i j : Z) :
  0 <= i < Z.of_nat (List.length state) -> 0 <= j < Z.of_nat (List.length state) ->
  Permutation (swap state i j) state.
Proof.
  intros Hi Hj. unfold swap, wr, rd. apply swap_nat_permutation; lia.
Qed.

Lemma key_setup_loop_permutation (n : nat) :
  forall i j state key len,
    List.length state = 256%nat -> 0 <= i -> i + Z.of_nat n <= 256 ->
    Permutation (key_setup_loop n i j state key len) state.
Proof.
  induction n as [| n IH]; intros i j state key len Hl Hi Hn; simpl.
  - apply Permutation_refl.
  - set (j' := (j + rd state i + rd key (i mod len)) mod 256).
    assert (Hj' : 0 <= j' < 256) by (apply Z.mod_pos_bound; lia).
    assert (Hp : Permutation (swap state i j') state)
      by (apply swap_permutation; lia).
    eapply perm_trans; [| exact Hp].
    apply IH; [| lia | lia].
    rewrite (Permutation_length Hp). exact Hl.
Qed.

Lemma generate_from_permutation (n : nat) :
  forall i j state i' j' state' out,
    List.length state = 256%nat ->
    generate_from n i j state = (i', j', state', out) ->
    Permutation state' state.
Proof.
  induction n as [| n IH]; intros i j state i' j' state' out Hl H; simpl in H.
  - inversion H; subst. apply Permutation_refl.
  - set (i1 := (i + 1) mod 256) in *.
    set (j1 := (j + rd state i1) mod 256) in *.
    assert (Hi1 : 0 <= i1 < 256) by (apply Z.mod_pos_bound; lia).
    assert (Hj1 : 0 <= j1 < 256) by (apply Z.mod_pos_bound; lia).
    assert (Hp : Permutation (swap state i1 j1) state)
      by (apply swap_permutation; lia).
    destruct (generate_from n i1 j1 (swap state i1 j1))
      as [[[i2 j2] state2] out2] eqn:E.
    inversion H; subst.
    eapply perm_trans; [| exact Hp].
    eapply IH; [| exact E]. rewrite (Permutation_length Hp). exact Hl.
Qed.

End StatePermutation.

Lemma arcfour_key_setup_permutation (key : list Z) (len : Z) :
  Permutation (Arcfour.arcfour_key_setup key len) Arcfour.identity_state.
Proof.
  unfold Arcfour.arcfour_key_setup.
  apply key_setup_loop_permutation; [reflexivity | lia | simpl; lia].
Qed.

(** X1.  For a key of [len] bytes, [len] at least 1, [arcfour_key_setup]
    leaves in the state array a permutation of the 256 byte values. *)
Theorem key_setup_permutation (key : list Z) (len : Z) :
  1 <= len <= Z.of_nat (List.length key) ->
  Permutation (Arcfour.arcfour_key_setup key len) Arcfour.identity_state.
Proof. intros _. apply arcfour_key_setup_permutation. Qed.

Lemma key_setup_permutation_witness :
  1 <= 3 <= Z.of_nat (List.length [75; 101; 121])
  /\ Permutation (Arcfour.arcfour_key_setup [75; 101; 121] 3) Arcfour.identity_state
  /\ firstn 4 (Arcfour.arcfour_key_setup [75; 101; 121] 3) = [75; 51; 132; 157].
Proof.
  assert (H : 1 <= 3 <= Z.of_nat (List.length [75; 101; 121])) by (simpl; lia).
  split; [exact H |].
  split; [exact (key_setup_permutation [75; 101; 121] 3 H) |].
  vm_compute. reflexivity.
Defined.

(** X2.  [arcfour_generate_stream] keeps the state array a permutation
    of the 256 byte values, and writes [len] bytes. *)
Theorem generate_stream_permutation (state state' out : list Z) (len : nat) :
  Permutation state Arcfour.identity_state ->
  Arcfour.arcfour_generate_stream state len = (state', out) ->
  Permutation state' Arcfour.identity_state
  /\ List.length out = len /\ Forall byte_ok out.
Proof.
  intros Hp H.
  assert (Hl : List.length state = 256%nat) by (rewrite (Permutation_length Hp); reflexivity).
  assert (Hs : state_ok state).
  { split; [exact Hl |]. eapply Permutation_Forall; [apply Permutation_sym, Hp |].
    apply identity_state_ok. }
  destruct (arcfour_generate_stream_ok _ _ _ _ Hs H) as [_ [Ho Hlen]].
  split; [| split; assumption].
  unfold Arcfour.arcfour_generate_stream in H.
  destruct (Arcfour.generate_from len 0 0 state) as [[[i' j'] s'] o'] eqn:E.
  inversion H; subst.
  eapply perm_trans; [| exact Hp]. eapply generate_from_permutation; eauto.
Qed.

Lemma generate_stream_permutation_witness :
  let state := Arcfour.arcfour_key_setup [75; 101; 121] 3 in
  Permutation state Arcfour.identity_state
  /\ Permutation (fst (Arcfour.arcfour_generate_stream state 4)) Arcfour.identity_state
  /\ snd (Arcfour.arcfour_generate_stream state 4) = [235; 159; 119; 129].
Proof.
  cbv zeta.
  pose proof (arcfour_key_setup_permutation [75; 101; 121] 3) as Hp.
  split; [exact Hp |].
  destruct (Arcfour.arcfour_generate_stream
              (Arcfour.arcfour_key_setup [75; 101; 121] 3) 4) as [s o] eqn:E.
  split.
  - exact (proj1 (generate_stream_permutation _ _ _ _ Hp E)).
  - apply (f_equal snd) in E. vm_compute in E. symmetry. exact E.
Defined.

(** ** The keystream generator: what of the key is read *)

Lemma key_setup_loop_ext (key key' : list Z) (len len' : Z) (n : nat) :
  forall i j state,
    0 <= i -> i + Z.of_nat n <= 256 ->
    (forall k, 0 <= k < 256 -> rd key (k mod len) = rd key' (k mod len')) ->
    Arcfour.key_setup_loop n i j state key len
    = Arcfour.key_setup_loop n i j state key' len'.
Proof.
  induction n as [| n IH]; intros i j state Hi Hn Hk; [reflexivity |].
  cbn [Arcfour.key_setup_loop]. rewrite (Hk i) by lia. apply IH; [lia | lia | exact Hk].
Qed.

Lemma rd_repeated (key : list Z) (k : Z) :
  key <> [] -> 0 <= k ->
  rd (key ++ key) (k mod (2 * Z.of_nat (List.length key)))
  = rd key (k mod Z.of_nat (List.length key)).
Proof.
  intros Hne Hk. set (n := Z.of_nat (List.length key)).
  assert (Hn : 0 < n) by (destruct key; [congruence | subst n; simpl; lia]).
  pose proof (Z.mod_pos_bound k (2 * n) ltac:(lia)) as Hr.
  pose proof (Z.div_mod k (2 * n) ltac:(lia)) as Hd.
  set (r := k mod (2 * n)) in *. set (q := k / (2 * n)) in *.
  unfold rd. destruct (Z.lt_ge_cases r n) as [Hlt | Hge].
  - rewrite app_nth1 by (subst n; lia).
    f_equal. f_equal. apply Z.mod_unique with (q := 2 * q); lia.
  - rewrite app_nth2 by (subst n; lia).
    replace (k mod n) with (r - n)
      by (apply Z.mod_unique with (q := 2 * q + 1); lia).
    f_equal. subst n. lia.
Qed.

(** X3.  [arcfour_key_setup] reads the key at the indices [i % len]
    only, so that a key and the same key written twice, with twice the
    length, set up the same state: the two give the same cipher. *)
Theorem key_setup_repeated_key (key : list Z) :
  key <> [] ->
  Arcfour.arcfour_key_setup (key ++ key) (2 * Z.of_nat (List.length key))
  = Arcfour.arcfour_key_setup key (Z.of_nat (List.length key)).
Proof.
  intros Hne. unfold Arcfour.arcfour_key_setup.
  apply key_setup_loop_ext; [lia | simpl; lia |].
  intros k Hk. apply rd_repeated; [exact Hne | lia].
Qed.

Lemma key_setup_repeated_key_witness :
  let key := [75; 101; 121] in
  key <> []
  /\ Arcfour.arcfour_key_setup [75; 101; 121; 75; 101; 121] 6
     = Arcfour.arcfour_key_setup key 3.
Proof.
  cbv zeta. assert (H : [75; 101; 121] <> []) by discriminate.
  split; [exact H |]. exact (key_setup_repeated_key [75; 101; 121] H).
Defined.

(** ** [Parse] and the state it leaves *)

Lemma Ordered_Parse_run_result (fuel : nat) :
  forall l fData input,
    Ordered.Parse_loop fuel l fData input
    = result_of (OrderedFile.Parse_run fuel l fData input).
Proof.
  induction fuel as [| fuel IH]; intros l fData input; [reflexivity |].
  cbn [Ordered.Parse_loop OrderedFile.Parse_run].
  destruct (getline input) as [[[line gcount] rest] |]; [| reflexivity].
  destruct (line_bytes l line (gcount - 1)); [reflexivity |]. cbv zeta.
  destruct (Ordered.type _ =? 1); [reflexivity | apply IH].
Qed.

Lemma Keyed_Parse_run_result (fuel : nat) :
  forall l extended fData input,
    Keyed.Parse_loop fuel l extended fData input
    = result_of (KeyedFile.Parse_run fuel l extended fData input).
Proof.
  induction fuel as [| fuel IH]; intros l extended fData input; [reflexivity |].
  cbn [Keyed.Parse_loop KeyedFile.Parse_run].
  destruct (getline input) as [[[line gcount] rest] |]; [| reflexivity].
  destruct (line_bytes l line (gcount - 1)) as [e | buffer]; [reflexivity |]. cbv zeta.
  destruct (rd buffer 3 =? 0); [apply IH |].
  destruct (rd buffer 3 =? 1); [destruct (negb (rd buffer 0 =? 0)); reflexivity |].
  destruct (rd buffer 3 =? 4); [| reflexivity].
  destruct (negb (rd buffer 0 =? 2)); [reflexivity | apply IH].
Qed.

(** The records that [Parse] has pushed are well formed, and none but
    the last, on success, is of type 1. *)
Lemma Ordered_Parse_run_state (fuel : nat) :
  forall l fData input res fData',
    OrderedFile.Parse_run fuel l fData input = (res, fData') ->
    Forall record_ok fData -> Forall (fun r => Ordered.type r <> 1) fData ->
    Forall record_ok fData'
    /\ match res with
       | None => exists front last,
                   fData' = front ++ [last]
                   /\ Forall (fun r => Ordered.type r <> 1) front
                   /\ Ordered.type last = 1
       | Some _ => Forall (fun r => Ordered.type r <> 1) fData'
       end.
Proof.
  induction fuel as [| fuel IH]; intros l fData input res fData' H Hok Hty.
  - inversion H; subst. auto.
  - cbn [OrderedFile.Parse_run] in H.
    destruct (getline input) as [[[line gcount] rest] |];
      [| inversion H; subst; auto].
    destruct (line_bytes l line (gcount - 1)) as [e | buffer] eqn:Hl;
      [inversion H; subst; auto |].
    apply line_bytes_inv in Hl. fold (record_bytes_ok buffer) in Hl.
    destruct (HexRecord_of_buffer buffer Hl) as [_ Hr].
    cbv zeta in H.
    assert (Hok' : Forall record_ok (fData ++ [Ordered.HexRecord_of buffer])).
    { apply Forall_app. split; [exact Hok | constructor; [exact Hr | constructor]]. }
    destruct (Z.eqb_spec (Ordered.type (Ordered.HexRecord_of buffer)) 1) as [E | E].
    + inversion H; subst. split; [exact Hok' |].
      exists fData, (Ordered.HexRecord_of buffer). auto.
    + eapply IH; [exact H | exact Hok' |].
      apply Forall_app. split; [exact Hty | constructor; [exact E | constructor]].
Qed.

Lemma Keyed_Parse_run_state (fuel : nat) :
  forall l extended fData input res fData',
    KeyedFile.Parse_run fuel l extended fData input = (res, fData') ->
    image_ok fData -> 0 <= extended < 2 ^ 32 -> image_ok fData'.
Proof.
  induction fuel as [| fuel IH]; intros l extended fData input res fData' H Hm He.
  - inversion H; subst. exact Hm.
  - cbn [KeyedFile.Parse_run] in H.
    destruct (getline input) as [[[line gcount] rest] |];
      [| inversion H; subst; exact Hm].
    destruct (line_bytes l line (gcount - 1)) as [e | buffer] eqn:Hl;
      [inversion H; subst; exact Hm |].
    apply line_bytes_inv in Hl. fold (record_bytes_ok buffer) in Hl.
    cbv zeta in H.
    destruct (rd buffer 3 =? 0).
    + eapply IH; [exact H | | exact He].
      apply map_insert_ok; [| | exact Hm].
      * apply lor_range; [lia | exact He |].
        pose proof (offset_in_range (rd buffer 1) (rd buffer 2)
          ltac:(apply record_bytes_rd; [exact Hl | lia])
          ltac:(apply record_bytes_rd; [exact Hl | lia])). lia.
      * apply firstn_skipn_payload; [apply Hl |].
        apply record_bytes_rd; [exact Hl | lia].
    + destruct (rd buffer 3 =? 1).
      { destruct (negb (rd buffer 0 =? 0)); inversion H; subst; exact Hm. }
      destruct (rd buffer 3 =? 4); [| inversion H; subst; exact Hm].
      destruct (negb (rd buffer 0 =? 2)); [inversion H; subst; exact Hm |].
      eapply IH; [exact H | exact Hm |]. apply Z.mod_pos_bound. lia.
Qed.

(** ** The cipher pass keeps images well formed *)

Lemma UpdateChecksum_record_ok (r : Ordered.HexRecord) :
  byte_ok (Ordered.size r) -> 0 <= Ordered.address r < 2 ^ 16 ->
  byte_ok (Ordered.type r) -> Forall byte_ok (Ordered.data r) ->
  Z.of_nat (List.length (Ordered.data r)) = Ordered.size r ->
  record_ok (Ordered.UpdateChecksum r).
Proof.
  intros Hsz Ha Ht Hd Hl. destruct r as [sz a t d c].
  cbn [Ordered.size Ordered.address Ordered.type Ordered.data] in *.
  unfold record_ok, Ordered.UpdateChecksum.
  cbn [Ordered.size Ordered.address Ordered.type Ordered.data Ordered.checksum].
  repeat split; try assumption; try apply Hsz; try apply Ht; try apply Ha;
    try apply Z.mod_pos_bound; try lia.
  unfold Ordered.record_buffer.
  cbn [Ordered.size Ordered.address Ordered.type Ordered.data Ordered.checksum].
  rewrite firstn_all2 by lia. rewrite fold_checksum.
  rewrite !sum_bytes_app. cbn [sum_bytes fold_right].
  change (fold_right Z.add 0 d) with (sum_bytes d).
  change 255 with (Z.ones 8). rewrite Z.land_ones by lia. change (2 ^ 8) with 256.
  assert (Hsh : Z.shiftr a 8 mod 256 = Z.shiftr a 8).
  { apply Z.mod_small. rewrite Z.shiftr_div_pow2 by lia.
    split; [apply Z.div_pos; lia | apply Z.div_lt_upper_bound; lia]. }
  rewrite Hsh.
  set (S := sz + Z.shiftr a 8 + a mod 256 + t + sum_bytes d).
  replace (sz + (Z.shiftr a 8 + (a mod 256 + (t + 0)))
           + (sum_bytes d + (- (S mod 256) mod 256 + 0)))
    with (S + (- (S mod 256)) mod 256) by (unfold S; lia).
  rewrite Zplus_mod_idemp_r.
  pose proof (Z.div_mod S 256 ltac:(lia)) as HS.
  replace (S + - (S mod 256)) with (S / 256 * 256) by lia.
  apply Z.mod_mul. lia.
Qed.

Lemma Ordered_Cipher_loop_ok (image : Ordered.IntelHex) :
  forall state,
    Forall record_ok image -> Forall record_ok (Ordered.Cipher_loop state image).
Proof.
  induction image as [| r image IH]; intros state Hi; [constructor |].
  inversion Hi as [| ? ? Hr Hi']; subst. cbn [Ordered.Cipher_loop].
  destruct (Arcfour.arcfour_generate_stream state (List.length (Ordered.data r)))
    as [st stream].
  destruct Hr as [Hsz [Ha [Ht [Hd [Hl _]]]]].
  constructor; [| now apply IH].
  apply UpdateChecksum_record_ok;
    cbn [Ordered.size Ordered.address Ordered.type Ordered.data]; try assumption.
  - now apply xor_stream_bytes.
  - now rewrite xor_stream_length.
Qed.

Lemma Ordered_Cipher_loop_types (image : Ordered.IntelHex) :
  forall state, map Ordered.type (Ordered.Cipher_loop state image) = map Ordered.type image.
Proof.
  induction image as [| r image IH]; intros state; [reflexivity |].
  cbn [Ordered.Cipher_loop].
  destruct (Arcfour.arcfour_generate_stream state (List.length (Ordered.data r)))
    as [st stream].
  cbn [map]. now rewrite IH.
Qed.

Lemma Keyed_Cipher_loop_ok (image : Keyed.IntelHex) :
  forall state, image_ok image -> image_ok (Keyed.Cipher_loop state image).
Proof.
  intros state [Hs Ha]. split.
  - now rewrite (proj1 (Keyed_Cipher_loop_keys image state)).
  - clear Hs. revert state. induction Ha as [| [k v] image [Hk [Hb Hl]] Ha IH];
      intros state; [constructor |].
    cbn [Keyed.Cipher_loop fst snd] in *.
    destruct (Arcfour.arcfour_generate_stream state (List.length v)) as [st stream].
    constructor; [| apply IH]. cbn [fst snd]. split; [exact Hk |].
    split; [now apply xor_stream_bytes | now rewrite xor_stream_length].
Qed.

(** ** Reading what was written, with the state left *)

Lemma Ordered_run_written (fuel : nat) (l : Z) (fData : Ordered.IntelHex)
  (r : Ordered.HexRecord) (rest : list ascii) :
  record_ok r ->
  OrderedFile.Parse_run (S fuel) l fData (Ordered.HexRecord_Generate r ++ rest)
  = if Ordered.type r =? 1 then (None, fData ++ [r])
    else OrderedFile.Parse_run fuel (l + 1) (fData ++ [r]) rest.
Proof.
  intros Hr. destruct (record_buffer_ok r Hr) as [Hok Hof].
  cbn [OrderedFile.Parse_run]. unfold Ordered.HexRecord_Generate. cbn [app].
  rewrite <- app_assoc.
  rewrite getline_written, line_bytes_written by exact Hok.
  cbv zeta. now rewrite Hof.
Qed.

Lemma Ordered_run_records (records : Ordered.IntelHex) :
  forall fData fuel l rest,
    Forall record_ok records ->
    Forall (fun r => Ordered.type r <> 1) records ->
    (List.length (Ordered.Generate records ++ rest) < fuel)%nat ->
    exists fuel',
      (List.length rest < fuel')%nat
      /\ OrderedFile.Parse_run fuel l fData (Ordered.Generate records ++ rest)
         = OrderedFile.Parse_run fuel' (l + Z.of_nat (List.length records))
             (fData ++ records) rest.
Proof.
  induction records as [| r records IH]; intros fData fuel l rest Hok Hty Hf.
  - exists fuel. cbn [Ordered.Generate flat_map app List.length] in *.
    now rewrite Z.add_0_r, app_nil_r.
  - inversion Hok; subst. inversion Hty; subst.
    cbn [Ordered.Generate flat_map] in *. fold (Ordered.Generate records) in *.
    rewrite <- app_assoc in *.
    pose proof (HexRecord_Generate_length r (Ordered.Generate records ++ rest)).
    destruct fuel as [| fuel]; [lia |].
    rewrite Ordered_run_written by assumption.
    destruct (Z.eqb_spec (Ordered.type r) 1); [contradiction |].
    destruct (IH (fData ++ [r]) fuel (l + 1) rest) as [fuel' [Hf' E]];
      try assumption; try lia.
    exists fuel'. split; [exact Hf' |]. rewrite E. f_equal.
    + simpl List.length. lia.
    + now rewrite <- app_assoc.
Qed.

Lemma Ordered_run_no_end (records : Ordered.IntelHex) :
  Forall record_ok records -> Forall (fun r => Ordered.type r <> 1) records ->
  OrderedFile.Parse_run (S (List.length (Ordered.Generate records))) 1 []
    (Ordered.Generate records)
  = (Some ios_failure, records).
Proof.
  intros Hok Hty.
  destruct (Ordered_run_records records [] (S (List.length (Ordered.Generate records)))
              1 [] Hok Hty) as [fuel' [_ E]].
  { rewrite app_nil_r. lia. }
  rewrite app_nil_r in E. rewrite E. cbn [app].
  destruct fuel'; reflexivity.
Qed.

Lemma Ordered_run_image (image : Ordered.IntelHex) (junk : list ascii) :
  decoded image ->
  OrderedFile.Parse_run (S (List.length (Ordered.Generate image ++ junk))) 1 []
    (Ordered.Generate image ++ junk)
  = (None, image).
Proof.
  intros [Hok [front [last [-> [Hfr Hla]]]]].
  apply Forall_app in Hok. destruct Hok as [Hok Hl]. inversion Hl; subst.
  unfold Ordered.Generate. rewrite flat_map_app. cbn [flat_map].
  rewrite app_nil_r, <- app_assoc. fold (Ordered.Generate front).
  destruct (Ordered_run_records front []
              (S (List.length (Ordered.Generate front
                                 ++ Ordered.HexRecord_Generate last ++ junk)))
              1 (Ordered.HexRecord_Generate last ++ junk) Hok Hfr ltac:(lia))
    as [fuel' [Hf' E]].
  rewrite E. cbn [app].
  pose proof (HexRecord_Generate_length last junk).
  destruct fuel' as [| fuel']; [lia |].
  rewrite Ordered_run_written by assumption. now rewrite Hla.
Qed.

Lemma Keyed_Parse_records_then (rs : list record) :
  forall fuel l bank image rest,
    Forall record_valid rs ->
    (List.length (flat_map write_record rs ++ rest) < fuel)%nat ->
    exists fuel',
      (List.length rest < fuel')%nat
      /\ Keyed.Parse_loop fuel l bank image (flat_map write_record rs ++ rest)
         = Keyed.Parse_loop fuel' (l + Z.of_nat (List.length rs))
             (bank_after bank rs) (store bank image rs) rest.
Proof.
  induction rs as [| r rs IH]; intros fuel l bank image rest Hv Hf.
  - exists fuel. cbn [flat_map app List.length bank_after store] in *.
    now rewrite Z.add_0_r.
  - inversion Hv as [| ? ? Hr Hv']; subst.
    cbn [flat_map] in *. rewrite <- app_assoc in *.
    pose proof (write_record_length r (flat_map write_record rs ++ rest)) as Hlen.
    destruct fuel as [| fuel]; [lia |].
    replace (l + Z.of_nat (List.length (r :: rs)))
      with (l + 1 + Z.of_nat (List.length rs)) by (simpl List.length; lia).
    destruct r as [address payload | b0 b1]; cbn [write_record store bank_after] in *.
    + destruct Hr as [Ha Hp]. rewrite Parse_data_record by assumption.
      apply IH; [exact Hv' | lia].
    + destruct Hr as [H0 H1]. rewrite Parse_extended_record by assumption.
      rewrite Z.mod_small by now apply bank_in_range.
      apply IH; [exact Hv' | lia].
Qed.

Lemma Keyed_Parse_Generate_then (rest : Keyed.IntelHex) :
  forall acc extended fuel l junk,
    image_ok (acc ++ rest) ->
    (List.length (Keyed.Generate_loop extended rest ++ Keyed.WriteRecord 1 0 [] ++ junk)
     < fuel)%nat ->
    Keyed.Parse_loop fuel l extended acc
      (Keyed.Generate_loop extended rest ++ Keyed.WriteRecord 1 0 [] ++ junk)
    = inr (acc ++ rest).
Proof.
  induction rest as [| [first second] rest IH]; intros acc extended fuel l junk Hok Hf.
  - destruct fuel as [| fuel]; [lia |]. cbn [Keyed.Generate_loop app].
    rewrite Parse_eof_record. now rewrite app_nil_r.
  - destruct Hok as [Hs Ha].
    assert (Hkv : 0 <= first < 2 ^ 32 /\ payload_ok second).
    { rewrite Forall_app in Ha. destruct Ha as [_ Ha].
      inversion Ha; subst. assumption. }
    destruct Hkv as [Hk Hv].
    assert (Hlast : Keyed.map_insert first second acc = acc ++ [(first, second)]).
    { apply map_insert_last. rewrite map_app in Hs. cbn [map fst] in Hs.
      clear - Hs. induction acc as [| [k v] acc IHa]; [constructor |].
      cbn [map fst app] in Hs. inversion Hs as [| ? ? Hs' Hall]; subst.
      constructor; [| now apply IHa].
      rewrite Forall_app in Hall. destruct Hall as [_ Hall].
      inversion Hall; subst. assumption. }
    assert (Hok' : image_ok ((acc ++ [(first, second)]) ++ rest)).
    { rewrite <- app_assoc. split; assumption. }
    assert (Hm : 0 <= first mod 2 ^ 16 < 2 ^ 16) by (apply Z.mod_pos_bound; lia).
    cbn [Keyed.Generate_loop] in *.
    destruct (Z.land first 0xffff0000 =? extended) eqn:E; cbn [negb] in *.
    + apply Z.eqb_eq in E. subst extended. rewrite <- app_assoc in Hf.
      rewrite <- app_assoc.
      pose proof (WriteRecord_length 0 (first mod 2 ^ 16) second
                    (Keyed.Generate_loop (Z.land first 0xffff0000) rest
                       ++ Keyed.WriteRecord 1 0 [] ++ junk)) as Hlen.
      destruct fuel as [| fuel]; [lia |].
      rewrite Parse_data_record by assumption.
      rewrite key_split, Hlast by exact Hk.
      rewrite IH by (try assumption; lia). now rewrite <- app_assoc.
    + rewrite <- !app_assoc in Hf. rewrite <- !app_assoc.
      pose proof (WriteRecord_length 0 (first mod 2 ^ 16) second
                    (Keyed.Generate_loop (Z.land first 0xffff0000) rest
                       ++ Keyed.WriteRecord 1 0 [] ++ junk))
        as Hlen.
      pose proof (WriteRecord_length 4 0
                    [Z.shiftr first 24 mod 256; Z.shiftr first 16 mod 256]
                    (Keyed.WriteRecord 0 (first mod 2 ^ 16) second
                       ++ Keyed.Generate_loop (Z.land first 0xffff0000) rest
                       ++ Keyed.WriteRecord 1 0 [] ++ junk)) as Hlen'.
      destruct fuel as [| [| fuel]]; [lia | lia |].
      rewrite Parse_extended_record by apply byte_ok_mod.
      rewrite bank_of_key by exact Hk.
      rewrite Parse_data_record by assumption.
      rewrite key_split, Hlast by exact Hk.
      rewrite IH by (try assumption; lia). now rewrite <- app_assoc.
Qed.

(** ** What [Parse] returns *)

(** X4.  Every image that [Parse] returns in the ordered revision holds
    at least one record; its last record is of type 1 and no other is;
    every record has fields within their types, as many payload bytes
    as its size says, and a checksum that brings the sum of its bytes to
    zero modulo 256. *)
Theorem Ordered_Parse_image (input : list ascii) (image : Ordered.IntelHex) :
  Ordered.Parse input = inr image ->
  (exists front last,
     image = front ++ [last]
     /\ Forall (fun r => Ordered.type r <> 1) front /\ Ordered.type last = 1)
  /\ Forall (fun r =>
               byte_ok (Ordered.size r) /\ 0 <= Ordered.address r < 2 ^ 16
               /\ byte_ok (Ordered.type r) /\ byte_ok (Ordered.checksum r)
               /\ Forall byte_ok (Ordered.data r)
               /\ Z.of_nat (List.length (Ordered.data r)) = Ordered.size r
               /\ sum_bytes (Ordered.record_buffer r) mod 256 = 0) image.
Proof.
  intros H. unfold Ordered.Parse in H. rewrite Ordered_Parse_run_result in H.
  destruct (OrderedFile.Parse_run (S (List.length input)) 1 [] input)
    as [[e |] fData] eqn:E; [discriminate |].
  cbn [result_of] in H. inversion H; subst fData.
  destruct (Ordered_Parse_run_state _ _ _ _ _ _ E (Forall_nil _) (Forall_nil _))
    as [Hok Hex].
  split; [exact Hex |].
  eapply Forall_impl; [| exact Hok].
  intros r [Hsz [Ha [Ht [Hd [Hl [Hc Hs]]]]]]. auto 10.
Qed.

Lemma Ordered_Parse_image_witness :
  let input := text_line ":021234000102B5" ++ text_line ":00000001FF" in
  let image := [Ordered.mkHexRecord 2 0x1234 0 [1; 2] 181;
                Ordered.mkHexRecord 0 0 1 [] 255] in
  Ordered.Parse input = inr image
  /\ exists front last,
       image = front ++ [last]
       /\ Forall (fun r => Ordered.type r <> 1) front /\ Ordered.type last = 1.
Proof.
  cbv zeta.
  assert (H : Ordered.Parse (text_line ":021234000102B5" ++ text_line ":00000001FF")
              = inr [Ordered.mkHexRecord 2 0x1234 0 [1; 2] 181;
                     Ordered.mkHexRecord 0 0 1 [] 255]) by (vm_compute; reflexivity).
  split; [exact H |]. exact (proj1 (Ordered_Parse_image _ _ H)).
Defined.

(** X5.  Every image that [Parse] returns in the address-keyed revision
    has its addresses in strictly ascending order and within 32 bits,
    and payloads of at most 255 bytes. *)
Theorem Keyed_Parse_image (input : list ascii) (image : Keyed.IntelHex) :
  Keyed.Parse input = inr image ->
  StronglySorted Z.lt (map fst image)
  /\ Forall (fun kv =>
               0 <= fst kv < 2 ^ 32 /\ Forall byte_ok (snd kv)
               /\ (List.length (snd kv) <= 255)%nat) image.
Proof.
  intros H. unfold Keyed.Parse in H. rewrite Keyed_Parse_run_result in H.
  destruct (KeyedFile.Parse_run (S (List.length input)) 1 0 [] input)
    as [[e |] fData] eqn:E; [discriminate |].
  cbn [result_of] in H. inversion H; subst fData.
  assert (H0 : image_ok []) by (split; constructor).
  destruct (Keyed_Parse_run_state _ _ _ _ _ _ _ E H0 ltac:(lia)) as [Hs Ha].
  split; [exact Hs |]. eapply Forall_impl; [| exact Ha].
  intros kv [Hk [Hb Hl]]. auto.
Qed.

Lemma Keyed_Parse_image_witness :
  let input := text_line ":021234000304B1" ++ text_line ":020010000102EB"
                 ++ text_line ":00000001FF" in
  Keyed.Parse input = inr [(0x10, [1; 2]); (0x1234, [3; 4])]
  /\ StronglySorted Z.lt (map fst [(0x10, [1; 2]); (0x1234, [3; 4])]).
Proof.
  cbv zeta.
  assert (H : Keyed.Parse (text_line ":021234000304B1" ++ text_line ":020010000102EB"
                             ++ text_line ":00000001FF")
              = inr [(0x10, [1; 2]); (0x1234, [3; 4])]) by (vm_compute; reflexivity).
  split; [exact H |]. exact (proj1 (Keyed_Parse_image _ _ H)).
Defined.

(** X6.  A file of well-formed records that ends without an end-of-file
    record, the empty file among them, is not accepted and is not
    reported as a [ParseError] either: [Parse] fails with the
    [std::ios_base::failure] of the read past the end, in both
    revisions. *)
Theorem Parse_without_end_of_file :
  (forall records,
     Forall record_ok records -> Forall (fun r => Ordered.type r <> 1) records ->
     Ordered.Parse (Ordered.Generate records) = inl ios_failure)
  /\ (forall rs,
        Forall record_valid rs ->
        Keyed.Parse (flat_map write_record rs) = inl ios_failure).
Proof.
  split.
  - intros records Hok Hty. unfold Ordered.Parse.
    rewrite Ordered_Parse_run_result, Ordered_run_no_end by assumption. reflexivity.
  - intros rs Hv. unfold Keyed.Parse.
    destruct (Keyed_Parse_records_then rs (S (List.length (flat_map write_record rs)))
                1 0 [] [] Hv) as [fuel' [_ E]].
    { rewrite app_nil_r. lia. }
    rewrite app_nil_r in E. rewrite E. destruct fuel'; reflexivity.
Qed.

Lemma Parse_without_end_of_file_witness :
  let r := Ordered.mkHexRecord 2 0x1234 0 [1; 2] 181 in
  (Forall record_ok [r] /\ Forall (fun r => Ordered.type r <> 1) [r]
   /\ Forall record_valid [Data 0x1234 [1; 2]])
  /\ Ordered.Parse (text_line ":021234000102B5") = inl ios_failure
  /\ Keyed.Parse (text_line ":021234000102B5") = inl ios_failure
  /\ Ordered.Parse [] = inl ios_failure
  /\ Keyed.Parse [] = inl ios_failure.
Proof.
  cbv zeta.
  assert (Hr : Forall record_ok [Ordered.mkHexRecord 2 0x1234 0 [1; 2] 181]).
  { constructor; [| constructor]. unfold record_ok, byte_ok. simpl.
    repeat split; try lia; repeat constructor; lia. }
  assert (Ht : Forall (fun r => Ordered.type r <> 1)
                 [Ordered.mkHexRecord 2 0x1234 0 [1; 2] 181]).
  { constructor; [simpl; lia | constructor]. }
  assert (Hv : Forall record_valid [Data 0x1234 [1; 2]]).
  { constructor; [| constructor]. split; [lia |]. split; [| simpl; lia].
    repeat constructor; unfold byte_ok; lia. }
  destruct Parse_without_end_of_file as [T1 T2].
  split; [exact (conj Hr (conj Ht Hv)) |].
  split; [exact (T1 _ Hr Ht) |]. split; [exact (T2 _ Hv) |].
  split; [exact (T1 [] (Forall_nil _) (Forall_nil _)) | exact (T2 [] (Forall_nil _))].
Defined.

(** X7.  [Parse] stops at the end-of-file record: the file that
    [Generate] writes for a well-formed image, followed by any
    characters at all, is decoded to that image, in both revisions.  In
    the ordered revision the records may be of any type, and the
    end-of-file record may carry an address and a payload. *)
Theorem Parse_stops_at_end_of_file :
  (forall image junk,
     decoded image ->
     Ordered.Parse (Ordered.Generate image ++ junk) = inr image)
  /\ (forall image junk,
        image_ok image ->
        Keyed.Parse (Keyed.Generate image ++ junk) = inr image).
Proof.
  split.
  - intros image junk Hd. unfold Ordered.Parse.
    now rewrite Ordered_Parse_run_result, Ordered_run_image.
  - intros image junk Hok. unfold Keyed.Parse, Keyed.Generate.
    rewrite <- app_assoc.
    apply (Keyed_Parse_Generate_then image [] 0); [exact Hok | lia].
Qed.

Lemma Parse_stops_at_end_of_file_witness :
  let image := [Ordered.mkHexRecord 1 0x10 2 [7] 230;
                Ordered.mkHexRecord 1 0x20 1 [9] 213] in
  let keyed := [(0xABCD1234, [1; 2])] in
  (decoded image /\ image_ok keyed)
  /\ Ordered.Parse (Ordered.Generate image ++ text "not a record") = inr image
  /\ Keyed.Parse (Keyed.Generate keyed ++ text "not a record") = inr keyed.
Proof.
  cbv zeta.
  assert (Hd : decoded [Ordered.mkHexRecord 1 0x10 2 [7] 230;
                        Ordered.mkHexRecord 1 0x20 1 [9] 213]).
  { split.
    - constructor; [| constructor; [| constructor]];
        unfold record_ok, byte_ok; simpl;
        repeat split; try lia; repeat constructor; lia.
    - exists [Ordered.mkHexRecord 1 0x10 2 [7] 230],
             (Ordered.mkHexRecord 1 0x20 1 [9] 213).
      split; [reflexivity |]. split; [| reflexivity].
      constructor; [simpl; lia | constructor]. }
  assert (Hk : image_ok [(0xABCD1234, [1; 2])]).
  { split; [simpl; repeat constructor |].
    constructor; [| constructor]. simpl. split; [lia |].
    split; [repeat constructor; unfold byte_ok; lia | simpl; lia]. }
  destruct Parse_stops_at_end_of_file as [T1 T2].
  split; [exact (conj Hd Hk) |].
  split; [exact (T1 _ _ Hd) | exact (T2 _ _ Hk)].
Defined.

(** ** Lines too long, lines without a line feed *)

Lemma getline_scan_full (s : list ascii) :
  forall room,
    (room < List.length s)%nat ->
    Forall (fun c => c <> LF) (firstn (S room) s) ->
    getline_scan room s = None.
Proof.
  induction s as [| c s IH]; intros room Hr Hs; [simpl in Hr; lia |].
  cbn [firstn] in Hs. inversion Hs as [| ? ? Hc Hs']; subst.
  cbn [getline_scan]. apply Ascii.eqb_neq in Hc. rewrite Hc.
  destruct room as [| room]; [reflexivity |].
  rewrite IH; [reflexivity | simpl in Hr; lia | exact Hs'].
Qed.

Lemma getline_full (s : list ascii) :
  (1025 < List.length s)%nat ->
  Forall (fun c => c <> LF) (firstn 1026 s) ->
  getline s = None.
Proof.
  intros Hl Hs. unfold getline. destruct s as [| c s]; [reflexivity |].
  now apply getline_scan_full.
Qed.

(** X8.  A line of more than 1025 characters, the size of the buffer
    that [Parse] reads into, is not reported as a [ParseError]: at any
    turn of the loop, if the next 1026 characters of the input hold no
    line feed, [Parse] fails with [std::ios_base::failure], in both
    revisions. *)
Theorem Parse_line_too_long (fuel : nat) (l extended : Z) (input : list ascii) :
  (1025 < List.length input)%nat ->
  Forall (fun c => c <> LF) (firstn 1026 input) ->
  (forall fData, Ordered.Parse_loop (S fuel) l fData input = inl ios_failure)
  /\ (forall fData, Keyed.Parse_loop (S fuel) l extended fData input = inl ios_failure)
  /\ Ordered.Parse input = inl ios_failure
  /\ Keyed.Parse input = inl ios_failure.
Proof.
  intros Hl Hs. pose proof (getline_full input Hl Hs) as Hg.
  repeat split; intros;
    unfold Ordered.Parse, Keyed.Parse;
    cbn [Ordered.Parse_loop Keyed.Parse_loop]; now rewrite Hg.
Qed.

Lemma Parse_line_too_long_witness :
  let input := ":"%char :: repeat "0"%char 1025 ++ [LF] in
  (1025 < List.length input)%nat
  /\ Forall (fun c => c <> LF) (firstn 1026 input)
  /\ Ordered.Parse input = inl ios_failure
  /\ Keyed.Parse input = inl ios_failure.
Proof.
  cbv zeta.
  assert (Hl : (1025 < List.length (":"%char :: repeat "0"%char 1025 ++ [LF]))%nat).
  { cbn [List.length]. rewrite length_app, repeat_length. cbn [List.length]. lia. }
  assert (Hs : Forall (fun c => c <> LF)
                 (firstn 1026 (":"%char :: repeat "0"%char 1025 ++ [LF]))).
  { rewrite (firstn_cons 1025).
    constructor; [intros E; vm_compute in E; discriminate |].
    rewrite firstn_app, repeat_length, Nat.sub_diag, firstn_all2
      by (rewrite repeat_length; lia).
    cbn [firstn]. rewrite app_nil_r. apply Forall_forall. intros c Hc.
    apply repeat_spec in Hc. subst c. intros E. vm_compute in E. discriminate. }
  split; [exact Hl |]. split; [exact Hs |].
  destruct (Parse_line_too_long 0 1 0 _ Hl Hs) as [_ [_ [T3 T4]]].
  split; [exact T3 | exact T4].
Defined.

Lemma getline_scan_end (line : list ascii) :
  forall room,
    Forall (fun c => c <> LF) line -> (List.length line <= room)%nat ->
    getline_scan room line = Some (line, Z.of_nat (List.length line), []).
Proof.
  induction line as [| c line IH]; intros room Hl Hr; [reflexivity |].
  inversion Hl as [| ? ? Hc Hl']; subst. simpl in Hr.
  destruct room as [| room]; [lia |].
  cbn [getline_scan]. apply Ascii.eqb_neq in Hc. rewrite Hc.
  rewrite IH by (try assumption; lia). f_equal. f_equal. f_equal.
  simpl List.length. lia.
Qed.

Lemma getline_end (line : list ascii) :
  line <> [] -> Forall (fun c => c <> LF) line -> (List.length line <= 1025)%nat ->
  getline line = Some (line, Z.of_nat (List.length line), []).
Proof.
  intros Hne Hl Hr. unfold getline. destruct line as [| c line]; [congruence |].
  now apply getline_scan_end.
Qed.

(** The line of a record read with its carriage return left out of the
    length, as happens when no line feed follows it. *)
Lemma line_bytes_written_short (l : Z) (bytes : list Z) :
  record_bytes_ok bytes ->
  line_bytes l (written_line bytes)
    (Z.of_nat (List.length (written_line bytes)) - 1) = inr bytes.
Proof.
  intros Hok. pose proof (record_bytes_length bytes Hok) as Hlen.
  destruct Hok as [Hb [Hs Hc]].
  rewrite written_line_length. rewrite line_bytes_tests;
    [| lia | reflexivity].
  unfold decoded_bytes. cbn [written_line tl].
  replace (Z.to_nat (Z.of_nat (2 * List.length bytes + 2) - 1 - 1))
    with (List.length (flat_map put_byte bytes)) by (rewrite put_bytes_length; lia).
  rewrite firstn_app, Nat.sub_diag, firstn_all. cbn [firstn]. rewrite app_nil_r.
  rewrite <- (app_nil_r (flat_map put_byte bytes)).
  rewrite convert_put_bytes by (try assumption; try reflexivity; unfold byte_ok; lia).
  cbn [convert app]. rewrite Z.add_0_l, Hs. cbn [Z.eqb negb].
  now replace (rd bytes 0 + 5 =? Z.of_nat (List.length bytes)) with true
    by (symmetry; apply Z.eqb_eq; exact Hc).
Qed.

(** The line of a record without carriage return nor line feed, at the
    end of the input: the last digit is not looked at. *)
Lemma line_bytes_unterminated (l : Z) (bytes : list Z) :
  record_bytes_ok bytes ->
  let line := ":"%char :: flat_map put_byte bytes in
  exists e,
    line_bytes l line (Z.of_nat (List.length line) - 1) = inl e
    /\ pe_line e = l
    /\ (pe_message e = "checksum error"%string
        \/ pe_message e = "mismatched length"%string).
Proof.
  intros Hok line. pose proof (record_bytes_length bytes Hok) as Hlen.
  destruct Hok as [Hb [Hs Hc]].
  destruct (exists_last (l := bytes)) as [front [b E]];
    [destruct bytes; [simpl in Hlen; lia | discriminate] |].
  subst bytes. rewrite length_app in Hlen. simpl in Hlen.
  apply Forall_app in Hb. destruct Hb as [Hf Hb]. inversion Hb as [| ? ? Hb1 _]; subst.
  assert (Hll : List.length line = (2 * List.length front + 3)%nat).
  { subst line. simpl. rewrite put_bytes_length, length_app. simpl. lia. }
  rewrite Hll. rewrite line_bytes_tests; [| lia | reflexivity].
  unfold decoded_bytes. subst line. cbn [tl].
  rewrite flat_map_app. cbn [flat_map put_byte app].
  replace (Z.to_nat (Z.of_nat (2 * List.length front + 3) - 1 - 1))
    with (List.length (flat_map put_byte front) + 1)%nat
    by (rewrite put_bytes_length; lia).
  rewrite firstn_app_2. cbn [firstn].
  rewrite convert_put_bytes by (try assumption; try reflexivity; unfold byte_ok; lia).
  destruct (put_byte_read b Hb1) as [E1 _].
  rewrite (convert_hex_odd _ _ _ _ _ _ _ _ _ _ E1)
    by (rewrite Z.odd_add, Z.odd_mul; reflexivity).
  cbn [convert app]. rewrite Z.add_0_l.
  destruct (Z.eqb_spec (sum_bytes front mod 256) 0) as [Hz | Hz]; cbn [negb].
  - assert (Hrd : rd front 0 = rd (front ++ [b]) 0).
    { unfold rd. rewrite app_nth1 by lia. reflexivity. }
    rewrite Hrd.
    replace (rd (front ++ [b]) 0 + 5 =? Z.of_nat (List.length front)) with false
      by (symmetry; apply Z.eqb_neq; rewrite length_app in Hc; simpl in Hc; lia).
    cbn [negb]. eexists. split; [reflexivity |]. split; [reflexivity | now right].
  - eexists. split; [reflexivity |]. split; [reflexivity | now left].
Qed.

(** X9.  The last line of a file need not end with a line feed if it
    ends with a carriage return: at any turn of the loop, in both
    revisions, [Parse] goes on from the line of a record followed by
    nothing as from the same line followed by a line feed.  With neither
    carriage return nor line feed, the last digit of the line is not
    looked at, and the line is rejected with a [ParseError]. *)
Theorem Parse_last_line (fuel : nat) (l extended : Z) (bytes : list Z) :
  record_bytes_ok bytes ->
  (forall fData,
     Ordered.Parse_loop (S fuel) l fData (written_line bytes)
     = Ordered.Parse_loop (S fuel) l fData (written_line bytes ++ [LF]))
  /\ (forall fData,
        Keyed.Parse_loop (S fuel) l extended fData (written_line bytes)
        = Keyed.Parse_loop (S fuel) l extended fData (written_line bytes ++ [LF]))
  /\ (exists e,
        (forall fData,
           Ordered.Parse_loop (S fuel) l fData (":"%char :: flat_map put_byte bytes)
           = inl (parse_error e))
        /\ (forall fData,
              Keyed.Parse_loop (S fuel) l extended fData
                (":"%char :: flat_map put_byte bytes)
              = inl (parse_error e))
        /\ pe_line e = l
        /\ (pe_message e = "checksum error"%string
            \/ pe_message e = "mismatched length"%string)).
Proof.
  intros Hok. pose proof (record_bytes_length bytes Hok) as Hlen.
  assert (Hplain : Forall (fun c => c <> LF) (written_line bytes))
    by (apply written_line_plain, Hok).
  assert (Hg1 : getline (written_line bytes)
                = Some (written_line bytes,
                        Z.of_nat (List.length (written_line bytes)), [])).
  { apply getline_end; [discriminate | exact Hplain |].
    rewrite written_line_length. lia. }
  assert (Hg2 : getline (written_line bytes ++ [LF])
                = Some (written_line bytes,
                        Z.of_nat (List.length (written_line bytes)) + 1, [])).
  { apply getline_line; [exact Hplain |]. rewrite written_line_length. lia. }
  pose proof (line_bytes_written_short l bytes Hok) as Hb1.
  pose proof (line_bytes_written l bytes Hok) as Hb2.
  split; [| split].
  - intros fData. cbn [Ordered.Parse_loop]. now rewrite Hg1, Hg2, Hb1, Hb2.
  - intros fData. cbn [Keyed.Parse_loop]. now rewrite Hg1, Hg2, Hb1, Hb2.
  - destruct (line_bytes_unterminated l bytes Hok) as [e [He [Hl Hm]]].
    assert (Hg3 : getline (":"%char :: flat_map put_byte bytes)
                  = Some (":"%char :: flat_map put_byte bytes,
                          Z.of_nat (List.length (":"%char :: flat_map put_byte bytes)),
                          [])).
    { apply getline_end; [discriminate | |].
      - constructor; [intros E; vm_compute in E; discriminate |].
        apply put_bytes_plain, Hok.
      - simpl. rewrite put_bytes_length. lia. }
    exists e. split; [| split; [| split; assumption]].
    + intros fData. cbn [Ordered.Parse_loop]. now rewrite Hg3, He.
    + intros fData. cbn [Keyed.Parse_loop]. now rewrite Hg3, He.
Qed.

Lemma Parse_last_line_witness :
  let bytes := [0; 0; 0; 1; 255] in
  record_bytes_ok bytes
  /\ written_line bytes = text ":00000001FF" ++ [CR]
  /\ Ordered.Parse_loop 1 1 [] (written_line bytes)
     = Ordered.Parse_loop 1 1 [] (written_line bytes ++ [LF])
  /\ Keyed.Parse_loop 1 1 0 [] (written_line bytes)
     = Keyed.Parse_loop 1 1 0 [] (written_line bytes ++ [LF])
  /\ Ordered.Parse (text ":00000001FF")
     = inl (parse_error (checksum_error 1 (text ":00000001FF") 10)).
Proof.
  cbv zeta.
  assert (Hok : record_bytes_ok [0; 0; 0; 1; 255]).
  { split; [repeat constructor; unfold byte_ok; lia |].
    split; reflexivity. }
  destruct (Parse_last_line 0 1 0 _ Hok) as [T1 [T2 _]].
  split; [exact Hok |]. split; [reflexivity |].
  split; [exact (T1 []) |]. split; [exact (T2 []) |].
  vm_compute. reflexivity.
Defined.

(** ** The records that the address-keyed revision rejects *)

Lemma written_rd0 (type address : Z) (data : list Z) :
  payload_ok data ->
  rd (written_bytes type address data) 0 = Z.of_nat (List.length data).
Proof.
  intros [_ Hl]. unfold written_bytes, rd. cbn [app Z.to_nat nth].
  apply Z.mod_small. lia.
Qed.

Lemma Keyed_Parse_written_record (fuel : nat) (l extended : Z)
  (fData : Keyed.IntelHex) (rest : list ascii) (type address : Z) (data : list Z) :
  byte_ok type -> payload_ok data ->
  let line := written_line (written_bytes type address data) in
  let count := Z.of_nat (List.length data) in
  Keyed.Parse_loop (S fuel) l extended fData
    (Keyed.WriteRecord type address data ++ rest)
  = if type =? 0 then
      Keyed.Parse_loop fuel (l + 1) extended
        (Keyed.map_insert
           (Z.lor extended (Z.lor (Z.shiftl (Z.shiftr address 8 mod 256) 8)
                                  (address mod 256)))
           data fData) rest
    else if type =? 1 then
      if negb (count =? 0) then
        inl (parse_error (mkParseError l 9 "end-of-file record has data" line))
      else inr fData
    else if type =? 4 then
      if negb (count =? 2) then
        inl (parse_error
               (mkParseError l 9 "wrong size for extended address record" line))
      else
        Keyed.Parse_loop fuel (l + 1)
          (Z.lor (Z.shiftl (rd (written_bytes type address data) 4) 24)
                 (Z.shiftl (rd (written_bytes type address data) 5) 16) mod 2 ^ 32)
          fData rest
    else inl (parse_error (mkParseError l 8 "unhandled record type" line)).
Proof.
  intros Ht Hd line count.
  destruct (Parse_written l rest type address data Ht Hd) as [Hg Hb].
  cbn [Keyed.Parse_loop]. rewrite Hg, Hb. cbv zeta.
  rewrite written_payload, written_rd0 by exact Hd.
  rewrite written_rd1, written_rd2, written_rd3. reflexivity.
Qed.

(** X10.  After any well-formed data and extended-address records, the
    address-keyed revision rejects, with the number of the line: a
    record of a type other than 0, 1 and 4; an end-of-file record that
    carries a payload; an extended-address record whose payload is not
    of two bytes. *)
Theorem Keyed_Parse_rejects (rs : list record) (type address : Z) (data : list Z)
  (rest : list ascii) :
  Forall record_valid rs -> byte_ok type -> payload_ok data ->
  let line := written_line (written_bytes type address data) in
  let l := Z.of_nat (List.length rs) + 1 in
  let input := flat_map write_record rs ++ Keyed.WriteRecord type address data ++ rest in
  (type <> 0 -> type <> 1 -> type <> 4 ->
   Keyed.Parse input
   = inl (parse_error (mkParseError l 8 "unhandled record type" line)))
  /\ (type = 1 -> data <> [] ->
      Keyed.Parse input
      = inl (parse_error (mkParseError l 9 "end-of-file record has data" line)))
  /\ (type = 4 -> List.length data <> 2%nat ->
      Keyed.Parse input
      = inl (parse_error
               (mkParseError l 9 "wrong size for extended address record" line))).
Proof.
  intros Hv Ht Hd line l input.
  destruct (Keyed_Parse_records_then rs (S (List.length input)) 1 0 []
              (Keyed.WriteRecord type address data ++ rest) Hv ltac:(subst input; lia))
    as [fuel' [Hf' E]].
  pose proof (WriteRecord_length type address data rest) as Hlen.
  destruct fuel' as [| fuel']; [lia |].
  rewrite Keyed_Parse_written_record in E by assumption.
  replace (1 + Z.of_nat (List.length rs)) with l in E by (subst l; lia).
  unfold Keyed.Parse. fold input in E |- *.
  split; [| split].
  - intros H0 H1 H4. rewrite E.
    destruct (Z.eqb_spec type 0); [contradiction |].
    destruct (Z.eqb_spec type 1); [contradiction |].
    destruct (Z.eqb_spec type 4); [contradiction | reflexivity].
  - intros -> Hne. rewrite E. cbn [Z.eqb].
    destruct (Z.eqb_spec (Z.of_nat (List.length data)) 0) as [Hz | Hz];
      [destruct data; [contradiction | simpl in Hz; lia] | reflexivity].
  - intros -> Hne. rewrite E. cbn [Z.eqb].
    destruct (Z.eqb_spec (Z.of_nat (List.length data)) 2) as [Hz | Hz];
      [lia | reflexivity].
Qed.

Lemma Keyed_Parse_rejects_witness :
  let rs := [Data 0x1234 [1; 2]] in
  (Forall record_valid rs /\ byte_ok 2 /\ payload_ok [7])
  /\ flat_map write_record rs ++ Keyed.WriteRecord 2 0x10 [7] ++ []
     = text_line ":021234000102B5" ++ text_line ":0100100207E6"
  /\ Keyed.Parse (text_line ":021234000102B5" ++ text_line ":0100100207E6")
     = inl (parse_error
              (mkParseError 2 8 "unhandled record type" (text ":0100100207E6" ++ [CR])))
  /\ Ordered.Parse (text_line ":021234000102B5" ++ text_line ":0100100207E6"
                      ++ text_line ":00000001FF")
     = inr [Ordered.mkHexRecord 2 0x1234 0 [1; 2] 181;
            Ordered.mkHexRecord 1 0x10 2 [7] 230;
            Ordered.mkHexRecord 0 0 1 [] 255].
Proof.
  cbv zeta.
  assert (Hv : Forall record_valid [Data 0x1234 [1; 2]]).
  { constructor; [| constructor]. split; [lia |]. split; [| simpl; lia].
    repeat constructor; unfold byte_ok; lia. }
  assert (Ht : byte_ok 2) by (unfold byte_ok; lia).
  assert (Hd : payload_ok [7]).
  { split; [repeat constructor; unfold byte_ok; lia | simpl; lia]. }
  assert (E : flat_map write_record [Data 0x1234 [1; 2]]
                ++ Keyed.WriteRecord 2 0x10 [7] ++ []
              = text_line ":021234000102B5" ++ text_line ":0100100207E6")
    by (vm_compute; reflexivity).
  split; [exact (conj Hv (conj Ht Hd)) |]. split; [exact E |].
  split; [| vm_compute; reflexivity].
  rewrite <- E.
  exact (proj1 (Keyed_Parse_rejects _ 2 0x10 [7] [] Hv Ht Hd)
           ltac:(lia) ltac:(lia) ltac:(lia)).
Defined.

(** ** Where a [ParseError] points *)

Lemma convert_error_place (len l : Z) (line : list ascii) (cs : list ascii) :
  forall i buffer cur sum e,
    convert cs i len l line buffer cur sum = inl e ->
    pe_line e = l /\ pe_data e = line
    /\ exists (k : nat) (c : ascii),
         pe_column e = i + Z.of_nat k /\ nth_error cs k = Some c
         /\ nibble_of c = None.
Proof.
  induction cs as [| c cs IH]; intros i buffer cur sum e H; [discriminate |].
  destruct (nibble_of c) as [n |] eqn:E.
  - assert (Hrec : exists buffer' cur' sum',
               convert cs (i + 1) len l line buffer' cur' sum' = inl e).
    { destruct (Z.odd i) eqn:Hi.
      - rewrite (convert_hex_odd _ _ _ _ _ _ _ _ _ n E Hi) in H. eauto.
      - rewrite (convert_hex_even _ _ _ _ _ _ _ _ _ n E Hi) in H. cbv zeta in H. eauto. }
    destruct Hrec as [b' [c' [s' Hrec]]].
    destruct (IH _ _ _ _ _ Hrec) as [Hl [Hd [k [c0 [Hk [Hn Hc]]]]]].
    split; [exact Hl |]. split; [exact Hd |].
    exists (S k), c0. split; [lia |]. split; assumption.
  - rewrite convert_not_hex in H by exact E.
    destruct ((ord c =? ord CR) && (i =? len - 1)); [discriminate |].
    inversion H; subst. cbn [pe_line pe_data pe_column].
    split; [reflexivity |]. split; [reflexivity |].
    exists 0%nat, c. split; [lia |]. split; [reflexivity | exact E].
Qed.

Lemma line_bytes_error_place (l : Z) (line : list ascii) (len : Z) (e : ParseError) :
  line_bytes l line len = inl e ->
  pe_line e = l /\ pe_data e = line
  /\ (pe_message e = "not an hexadecimal character"%string ->
      1 <= pe_column e
      /\ exists c, nth_error line (Z.to_nat (pe_column e)) = Some c
                   /\ nibble_of c = None).
Proof.
  unfold line_bytes. intros H.
  destruct ((len <? 10) || negb (Ascii.eqb (nth 0 line zero) ":")).
  { inversion H; subst. cbn. repeat split; discriminate. }
  destruct (convert _ 1 len l line [] 0 0) as [e' | [buffer sum]] eqn:E.
  - inversion H; subst e'.
    destruct (convert_error_place _ _ _ _ _ _ _ _ _ E) as [Hl [Hd [k [c [Hk [Hn Hc]]]]]].
    split; [exact Hl |]. split; [exact Hd |]. intros _. split; [lia |].
    exists c. split; [| exact Hc].
    rewrite Hk. replace (Z.to_nat (1 + Z.of_nat k)) with (S k) by lia.
    assert (Hin : nth_error (tl line) k = Some c).
    { assert (Hlt : (k < List.length (firstn (Z.to_nat (len - 1)) (tl line)))%nat)
        by (apply nth_error_Some; congruence).
      rewrite nth_error_firstn in Hn.
      destruct (Nat.ltb_spec k (Z.to_nat (len - 1))); [exact Hn | discriminate]. }
    destruct line; [destruct k; discriminate | exact Hin].
  - destruct (negb (sum =? 0)).
    { inversion H; subst. cbn. repeat split; discriminate. }
    cbv zeta in H.
    destruct (negb (rd buffer 0 + 5 =? Z.of_nat (List.length buffer)));
      [| discriminate].
    inversion H; subst. cbn. repeat split; discriminate.
Qed.

Lemma getline_scan_inv (s : list ascii) :
  forall room line gcount rest,
    getline_scan room s = Some (line, gcount, rest) ->
    Forall (fun c => c <> LF) line
    /\ (s = line ++ LF :: rest \/ (s = line /\ rest = [])).
Proof.
  induction s as [| c s IH]; intros room line gcount rest H; cbn [getline_scan] in H.
  - inversion H; subst. split; [constructor | right; auto].
  - destruct (Ascii.eqb_spec c LF) as [-> | Hc].
    + inversion H; subst. split; [constructor | left; reflexivity].
    + destruct room as [| room]; [discriminate |].
      destruct (getline_scan room s) as [[[ln g] rs] |] eqn:E; [| discriminate].
      inversion H; subst. destruct (IH _ _ _ _ E) as [Hl Hs].
      split; [constructor; assumption |].
      destruct Hs as [-> | [-> ->]]; [left | right]; auto.
Qed.

Lemma getline_inv (s line rest : list ascii) (gcount : Z) :
  getline s = Some (line, gcount, rest) ->
  Forall (fun c => c <> LF) line
  /\ (s = line ++ LF :: rest \/ (s = line /\ rest = [])).
Proof.
  unfold getline. destruct s as [| c s]; [discriminate |].
  apply getline_scan_inv.
Qed.

(** ** The place that a [ParseError] reports *)

Lemma error_place_here (l : Z) (s line rest : list ascii) (e : ParseError) :
  Forall (fun c => c <> LF) line ->
  s = line ++ LF :: rest \/ (s = line /\ rest = []) ->
  pe_line e = l -> pe_data e = line ->
  (pe_message e = "not an hexadecimal character"%string -> reports_column e) ->
  error_place l s e.
Proof.
  intros Hl Hs El Ed Hc. split; [| exact Hc].
  exists [].
  destruct Hs as [-> | [-> ->]].
  - exists (LF :: rest). cbn [join_lines flat_map app List.length]. rewrite Ed.
    split; [reflexivity |]. split; [lia |]. split; [constructor |].
    split; [exact Hl |]. right. now exists rest.
  - exists []. cbn [join_lines flat_map app List.length]. rewrite Ed, app_nil_r.
    split; [reflexivity |]. split; [lia |]. split; [constructor |].
    split; [exact Hl |]. now left.
Qed.

Lemma error_place_next (l : Z) (s line rest : list ascii) (e : ParseError) :
  Forall (fun c => c <> LF) line ->
  s = line ++ LF :: rest ->
  error_place (l + 1) rest e -> error_place l s e.
Proof.
  intros Hl -> [[lines [rest' [-> [Hn [Hls [Hd Hr]]]]]] Hc]. split; [| exact Hc].
  exists (line :: lines), rest'.
  split; [cbn [join_lines flat_map]; now rewrite <- !app_assoc |].
  split; [simpl List.length; lia |].
  split; [constructor; assumption |]. split; assumption.
Qed.

Lemma Ordered_Parse_loop_end (fuel : nat) (l : Z) (fData : Ordered.IntelHex) :
  Ordered.Parse_loop fuel l fData [] = inl ios_failure.
Proof. destruct fuel; reflexivity. Qed.

Lemma Keyed_Parse_loop_end (fuel : nat) (l extended : Z) (fData : Keyed.IntelHex) :
  Keyed.Parse_loop fuel l extended fData [] = inl ios_failure.
Proof. destruct fuel; reflexivity. Qed.

Lemma Ordered_Parse_loop_error_place (fuel : nat) :
  forall l fData input e,
    Ordered.Parse_loop fuel l fData input = inl (parse_error e) ->
    error_place l input e.
Proof.
  induction fuel as [| fuel IH]; intros l fData input e H; [discriminate |].
  cbn [Ordered.Parse_loop] in H.
  destruct (getline input) as [[[line gcount] rest] |] eqn:Hg; [| discriminate].
  destruct (getline_inv _ _ _ _ Hg) as [Hl Hs].
  destruct (line_bytes l line (gcount - 1)) as [e' | buffer] eqn:Hb.
  - inversion H; subst e'.
    destruct (line_bytes_error_place _ _ _ _ Hb) as [El [Ed Hc]].
    apply (error_place_here l input line rest); try assumption.
    intros Hm. unfold reports_column. rewrite Ed. exact (Hc Hm).
  - cbv zeta in H. destruct (Ordered.type _ =? 1); [discriminate |].
    destruct Hs as [Hs | [_ ->]].
    + apply (error_place_next l input line rest); [exact Hl | exact Hs |].
      eapply IH, H.
    + rewrite Ordered_Parse_loop_end in H. discriminate.
Qed.

Lemma Keyed_Parse_loop_error_place (fuel : nat) :
  forall l extended fData input e,
    Keyed.Parse_loop fuel l extended fData input = inl (parse_error e) ->
    error_place l input e.
Proof.
  induction fuel as [| fuel IH]; intros l extended fData input e H; [discriminate |].
  cbn [Keyed.Parse_loop] in H.
  destruct (getline input) as [[[line gcount] rest] |] eqn:Hg; [| discriminate].
  destruct (getline_inv _ _ _ _ Hg) as [Hl Hs].
  destruct (line_bytes l line (gcount - 1)) as [e' | buffer] eqn:Hb.
  - inversion H; subst e'.
    destruct (line_bytes_error_place _ _ _ _ Hb) as [El [Ed Hc]].
    apply (error_place_here l input line rest); try assumption.
    intros Hm. unfold reports_column. rewrite Ed. exact (Hc Hm).
  - cbv zeta in H.
    assert (Hrec : forall extended' fData',
               Keyed.Parse_loop fuel (l + 1) extended' fData' rest
               = inl (parse_error e) -> error_place l input e).
    { intros extended' fData' H'. destruct Hs as [Hs | [_ ->]].
      - apply (error_place_next l input line rest); [exact Hl | exact Hs |].
        eapply IH, H'.
      - rewrite Keyed_Parse_loop_end in H'. discriminate. }
    assert (Hhere : forall column message,
               message <> "not an hexadecimal character"%string ->
               e = mkParseError l column message line -> error_place l input e).
    { intros column message Hm ->.
      apply (error_place_here l input line rest); try assumption; try reflexivity.
      cbn [pe_message]. intros E. contradiction. }
    destruct (rd buffer 3 =? 0); [eapply Hrec, H |].
    destruct (rd buffer 3 =? 1).
    { destruct (negb (rd buffer 0 =? 0)); [| discriminate].
      injection H as <-. eapply Hhere; [| reflexivity]. discriminate. }
    destruct (rd buffer 3 =? 4).
    { destruct (negb (rd buffer 0 =? 2)); [| eapply Hrec, H].
      injection H as <-. eapply Hhere; [| reflexivity]. discriminate. }
    injection H as <-. eapply Hhere; [| reflexivity]. discriminate.
Qed.



Lemma c_str_plain (s : list ascii) :
  Forall (fun c => c <> zero) s -> c_str s = s.
Proof.
  induction 1 as [| c s Hc _ IH]; [reflexivity |].
  cbn [c_str]. apply Ascii.eqb_neq in Hc. now rewrite Hc, IH.
Qed.

(** X12.  When [Parse] reports a character that is not hexadecimal, the
    column it gives is that of such a character in the line it gives;
    and, the line holding no null character, the text of [what] has
    that line as its second line and, as its third, the caret under
    that character. *)
Theorem ParseError_caret (input : list ascii) (e : ParseError) :
  Ordered.Parse input = inl (parse_error e)
  \/ Keyed.Parse input = inl (parse_error e) ->
  pe_message e = "not an hexadecimal character"%string ->
  Forall (fun c => c <> zero) (pe_data e) ->
  reports_column e
  /\ what e
     = (text "Parse error at " ++ decimal (pe_line e) ++ [":"%char]
          ++ decimal (pe_column e) ++ text ": not an hexadecimal character")
         ++ [LF] ++ pe_data e
         ++ [LF] ++ repeat " "%char (Z.to_nat (pe_column e)) ++ ["^"%char].
Proof.
  intros H Hm Hz.
  assert (Hp : error_place 1 input e).
  { destruct H as [H | H].
    - eapply Ordered_Parse_loop_error_place, H.
    - eapply Keyed_Parse_loop_error_place, H. }
  split; [exact (proj2 Hp Hm) |].
  unfold what. rewrite Hm, (c_str_plain (pe_data e)) by exact Hz.
  unfold text. cbn [list_ascii_of_string c_str Ascii.eqb Bool.eqb].
  now rewrite <- !app_assoc.
Qed.

Lemma ParseError_caret_witness :
  let input := text_line ":021234000102B5" ++ text_line ":01001002O7E6" in
  let e := mkParseError 2 9 "not an hexadecimal character"
             (text ":01001002O7E6" ++ [CR]) in
  (Keyed.Parse input = inl (parse_error e)
   /\ Forall (fun c => c <> zero) (pe_data e))
  /\ nth_error (pe_data e) 9 = Some "O"%char
  /\ reports_column e
  /\ what e
     = text "Parse error at 2:9: not an hexadecimal character" ++ [LF]
         ++ text ":01001002O7E6" ++ [CR; LF]
         ++ text "         ^".
Proof.
  cbv zeta.
  assert (H : Keyed.Parse (text_line ":021234000102B5" ++ text_line ":01001002O7E6")
              = inl (parse_error
                       (mkParseError 2 9 "not an hexadecimal character"
                          (text ":01001002O7E6" ++ [CR]))))
    by (vm_compute; reflexivity).
  assert (Hz : Forall (fun c => c <> zero)
                 (pe_data (mkParseError 2 9 "not an hexadecimal character"
                             (text ":01001002O7E6" ++ [CR])))).
  { apply Forall_forall. intros c Hc E. subst c. vm_compute in Hc.
    repeat (destruct Hc as [Hc | Hc]; [discriminate |]). exact Hc. }
  split; [exact (conj H Hz) |]. split; [reflexivity |].
  split; [exact (proj1 (ParseError_caret _ _ (or_intror H) eq_refl Hz)) |].
  vm_compute. reflexivity.
Defined.

(** ** The cipher pass and the files *)

Lemma setup_state (key : list Z) (len : Z) :
  exists state discarded,
    Arcfour.arcfour_generate_stream (Arcfour.arcfour_key_setup key len) 256
    = (state, discarded)
    /\ state_ok state.
Proof.
  pose proof (arcfour_key_setup_ok key len) as Hs.
  destruct (Arcfour.arcfour_generate_stream (Arcfour.arcfour_key_setup key len) 256)
    as [state discarded] eqn:E.
  exists state, discarded. split; [reflexivity |].
  exact (proj1 (arcfour_generate_stream_ok _ _ _ _ Hs E)).
Qed.

Lemma Ordered_Cipher_ok (key : list Z) (len : Z) (image : Ordered.IntelHex) :
  Forall record_ok image -> Forall record_ok (Ordered.Cipher key len image).
Proof.
  intros H. unfold Ordered.Cipher.
  destruct (setup_state key len) as [state [discarded [-> _]]].
  now apply Ordered_Cipher_loop_ok.
Qed.

Lemma Ordered_Cipher_types (key : list Z) (len : Z) (image : Ordered.IntelHex) :
  map Ordered.type (Ordered.Cipher key len image) = map Ordered.type image.
Proof.
  unfold Ordered.Cipher.
  destruct (setup_state key len) as [state [discarded [-> _]]].
  apply Ordered_Cipher_loop_types.
Qed.


Lemma Keyed_Cipher_ok (key : list Z) (len : Z) (image : Keyed.IntelHex) :
  image_ok image -> image_ok (Keyed.Cipher key len image).
Proof.
  intros H. unfold Keyed.Cipher.
  destruct (setup_state key len) as [state [discarded [-> _]]].
  now apply Keyed_Cipher_loop_ok.
Qed.


Lemma types_without_end (a b : Ordered.IntelHex) :
  map Ordered.type a = map Ordered.type b ->
  Forall (fun r => Ordered.type r <> 1) b ->
  Forall (fun r => Ordered.type r <> 1) a.
Proof.
  revert b. induction a as [| x a IH]; intros [| y b] E H; try discriminate;
    [constructor |].
  cbn [map] in E. injection E as Ex Ea. inversion H as [| ? ? Hy Hb]; subst.
  constructor; [congruence | now apply (IH b)].
Qed.

Lemma types_with_end (a b : Ordered.IntelHex) :
  map Ordered.type a = map Ordered.type b ->
  (exists front last,
     b = front ++ [last]
     /\ Forall (fun r => Ordered.type r <> 1) front /\ Ordered.type last = 1) ->
  exists front last,
    a = front ++ [last]
    /\ Forall (fun r => Ordered.type r <> 1) front /\ Ordered.type last = 1.
Proof.
  intros E [front [last [-> [Hf Hl]]]].
  rewrite map_app in E. apply map_eq_app in E.
  destruct E as [front' [tail [-> [Ef Et]]]].
  destruct tail as [| last' [| ? ?]]; try discriminate.
  exists front', last'. split; [reflexivity |].
  split; [now apply (types_without_end front' front) |].
  cbn [map] in Et. injection Et as Et. congruence.
Qed.

Lemma Ordered_Cipher_decoded (key : list Z) (len : Z) (image : Ordered.IntelHex) :
  decoded image -> decoded (Ordered.Cipher key len image).
Proof.
  intros [Hok Hend]. split; [now apply Ordered_Cipher_ok |].
  apply (types_with_end _ image); [apply Ordered_Cipher_types | exact Hend].
Qed.

(** X13.  The file written after a cipher pass is accepted by [Parse],
    which gives the ciphered image back: the cipher pass leaves every
    checksum right, in both revisions. *)
Theorem ciphered_file_accepted (key : list Z) (len : Z) (input : list ascii) :
  1 <= len <= Z.of_nat (List.length key) ->
  (forall image, Ordered.Parse input = inr image ->
     Ordered.Parse (Ordered.Generate (Ordered.Cipher key len image))
     = inr (Ordered.Cipher key len image))
  /\ (forall image, Keyed.Parse input = inr image ->
        Keyed.Parse (Keyed.Generate (Keyed.Cipher key len image))
        = inr (Keyed.Cipher key len image)).
Proof.
  intros _. split; intros image H.
  - apply Ordered_Parse_Generate, Ordered_Cipher_decoded, (Parse_decoded input), H.
  - apply Keyed_Parse_Generate, Keyed_Cipher_ok, (Keyed_Parse_ok input), H.
Qed.

Lemma ciphered_file_accepted_witness :
  let key := [75; 101; 121] in
  let input := text_line ":021234000102B5" ++ text_line ":00000001FF" in
  1 <= 3 <= Z.of_nat (List.length key)
  /\ Ordered.Parse input
     = inr [Ordered.mkHexRecord 2 0x1234 0 [1; 2] 181; Ordered.mkHexRecord 0 0 1 [] 255]
  /\ Ordered.Generate
       (Ordered.Cipher key 3
          [Ordered.mkHexRecord 2 0x1234 0 [1; 2] 181; Ordered.mkHexRecord 0 0 1 [] 255])
     = text_line ":02123400A3E62F" ++ text_line ":00000001FF"
  /\ Ordered.Parse (text_line ":02123400A3E62F" ++ text_line ":00000001FF")
     = inr (Ordered.Cipher key 3
              [Ordered.mkHexRecord 2 0x1234 0 [1; 2] 181;
               Ordered.mkHexRecord 0 0 1 [] 255])
  /\ Keyed.Parse (Keyed.Generate (Keyed.Cipher key 3 [(0x1234, [1; 2])]))
     = inr (Keyed.Cipher key 3 [(0x1234, [1; 2])]).
Proof.
  cbv zeta.
  assert (H : 1 <= 3 <= Z.of_nat (List.length [75; 101; 121])) by (simpl; lia).
  destruct (ciphered_file_accepted [75; 101; 121] 3
              (text_line ":021234000102B5" ++ text_line ":00000001FF") H)
    as [Ho Hk].
  assert (Hp : Ordered.Parse (text_line ":021234000102B5" ++ text_line ":00000001FF")
               = inr [Ordered.mkHexRecord 2 0x1234 0 [1; 2] 181;
                      Ordered.mkHexRecord 0 0 1 [] 255])
    by (vm_compute; reflexivity).
  assert (Hg : Ordered.Generate
                 (Ordered.Cipher [75; 101; 121] 3
                    [Ordered.mkHexRecord 2 0x1234 0 [1; 2] 181;
                     Ordered.mkHexRecord 0 0 1 [] 255])
               = text_line ":02123400A3E62F" ++ text_line ":00000001FF")
    by (vm_compute; reflexivity).
  split; [exact H |]. split; [exact Hp |]. split; [exact Hg |].
  split; [rewrite <- Hg; exact (Ho _ Hp) |].
  apply Hk. vm_compute. reflexivity.
Defined.

(** X14.  The cipher pass changes payload bytes only: in the ordered
    revision every record keeps its size, address and type and the
    number of its payload bytes; in the address-keyed revision every
    payload keeps its address and its length. *)
Theorem cipher_keeps_layout (key : list Z) (len : Z) :
  1 <= len <= Z.of_nat (List.length key) ->
  (forall image,
     map (fun r => (Ordered.size r, Ordered.address r, Ordered.type r,
                    List.length (Ordered.data r)))
       (Ordered.Cipher key len image)
     = map (fun r => (Ordered.size r, Ordered.address r, Ordered.type r,
                      List.length (Ordered.data r))) image)
  /\ (forall image,
        map (fun kv => (fst kv, List.length (snd kv))) (Keyed.Cipher key len image)
        = map (fun kv => (fst kv, List.length (snd kv))) image).
Proof.
  intros _. split; intros image.
  - unfold Ordered.Cipher.
    destruct (Arcfour.arcfour_generate_stream _ 256) as [state discarded].
    clear discarded. revert state.
    induction image as [| r image IH]; intros state; [reflexivity |].
    cbn [Ordered.Cipher_loop].
    destruct (Arcfour.arcfour_generate_stream state _) as [state' stream].
    cbn [map]. rewrite IH. f_equal.
    rewrite UpdateChecksum_size, UpdateChecksum_address, UpdateChecksum_type,
      UpdateChecksum_data.
    cbn [Ordered.size Ordered.address Ordered.type Ordered.data].
    now rewrite xor_stream_length.
  - unfold Keyed.Cipher.
    destruct (Arcfour.arcfour_generate_stream _ 256) as [state discarded].
    clear discarded. revert state.
    induction image as [| [first second] image IH]; intros state; [reflexivity |].
    cbn [Keyed.Cipher_loop].
    destruct (Arcfour.arcfour_generate_stream state _) as [state' stream].
    cbn [map fst snd]. now rewrite IH, xor_stream_length.
Qed.

Lemma cipher_keeps_layout_witness :
  let key := [75; 101; 121] in
  1 <= 3 <= Z.of_nat (List.length key)
  /\ Keyed.Cipher key 3 [(0xABCD1234, [1; 2]); (0xABCD2000, [3])]
     = [(0xABCD1234, [163; 230]); (0xABCD2000, [159])]
  /\ map (fun kv => (fst kv, List.length (snd kv)))
       (Keyed.Cipher key 3 [(0xABCD1234, [1; 2]); (0xABCD2000, [3])])
     = [(0xABCD1234, 2%nat); (0xABCD2000, 1%nat)].
Proof.
  cbv zeta.
  assert (H : 1 <= 3 <= Z.of_nat (List.length [75; 101; 121])) by (simpl; lia).
  split; [exact H |]. split; [vm_compute; reflexivity |].
  exact (proj2 (cipher_keeps_layout [75; 101; 121] 3 H)
           [(0xABCD1234, [1; 2]); (0xABCD2000, [3])]).
Defined.

(** ** The lines that [Generate] writes *)

Lemma put_byte_upper (b : Z) :
  byte_ok b -> forallb upper_hex (put_byte b) = true.
Proof.
  intros Hb.
  exact (byte_cases_bool (fun b => forallb upper_hex (put_byte b))
           ltac:(vm_compute; reflexivity) b Hb).
Qed.

Lemma put_bytes_upper (bytes : list Z) :
  Forall byte_ok bytes -> forallb upper_hex (flat_map put_byte bytes) = true.
Proof.
  induction 1 as [| b bytes Hb _ IH]; [reflexivity |].
  cbn [flat_map]. rewrite forallb_app, IH, put_byte_upper by exact Hb. reflexivity.
Qed.

Lemma written_line_canonical (bytes : list Z) :
  Forall byte_ok bytes -> canonical_line (written_line bytes).
Proof.
  intros H. exists (flat_map put_byte bytes).
  split; [reflexivity |]. split; [now apply put_bytes_upper |].
  rewrite put_bytes_length. apply Nat.even_spec. now exists (List.length bytes).
Qed.

Lemma HexRecord_Generate_line (r : Ordered.HexRecord) :
  Ordered.HexRecord_Generate r = written_line (Ordered.record_buffer r) ++ [LF].
Proof.
  unfold Ordered.HexRecord_Generate, written_line. cbn [app].
  now rewrite <- app_assoc.
Qed.

Lemma WriteRecord_line (type address : Z) (data : list Z) :
  Keyed.WriteRecord type address data
  = written_line (written_bytes type address data) ++ [LF].
Proof.
  rewrite WriteRecord_written. unfold written_line. cbn [app].
  now rewrite <- app_assoc.
Qed.

Lemma Keyed_Generate_loop_lines (image : Keyed.IntelHex) :
  forall extended,
    Forall (fun kv => payload_ok (snd kv)) image ->
    exists lines,
      Keyed.Generate_loop extended image = join_lines lines
      /\ Forall canonical_line lines
      /\ (List.length image <= List.length lines <= 2 * List.length image)%nat.
Proof.
  assert (Hline : forall type address data,
             byte_ok type -> payload_ok data ->
             canonical_line (written_line (written_bytes type address data))).
  { intros type address data Ht Hd. apply written_line_canonical.
    exact (proj1 (written_bytes_ok type address data Ht Hd)). }
  induction image as [| [first second] image IH]; intros extended Hok.
  - exists []. split; [reflexivity |]. split; [constructor | simpl; lia].
  - inversion Hok as [| ? ? Hv Hok']; subst. cbn [snd] in Hv.
    cbn [Keyed.Generate_loop].
    destruct (negb (Z.land first 4294901760 =? extended)).
    + destruct (IH (Z.land first 4294901760) Hok') as [lines [E [Hc Hn]]].
      exists (written_line (written_bytes 4 0 [Z.shiftr first 24 mod 256;
                                               Z.shiftr first 16 mod 256])
                :: written_line (written_bytes 0 (first mod 2 ^ 16) second) :: lines).
      split; [| split].
      * cbn [join_lines flat_map]. fold (join_lines lines).
        now rewrite E, !WriteRecord_line.
      * constructor; [| constructor; [| exact Hc]].
        -- apply Hline; [unfold byte_ok; lia |].
           split; [| simpl; lia].
           constructor; [| constructor; [| constructor]]; unfold byte_ok;
             apply Z.mod_pos_bound; lia.
        -- apply Hline; [unfold byte_ok; lia | exact Hv].
      * simpl List.length. lia.
    + destruct (IH extended Hok') as [lines [E [Hc Hn]]].
      exists (written_line (written_bytes 0 (first mod 2 ^ 16) second) :: lines).
      split; [| split].
      * cbn [join_lines flat_map]. fold (join_lines lines).
        now rewrite E, !WriteRecord_line.
      * constructor; [| exact Hc]. apply Hline; [unfold byte_ok; lia | exact Hv].
      * simpl List.length. lia.
Qed.

(** X15.  Every line that [Generate] writes is a colon, an even number
    of uppercase hexadecimal digits, and CR LF: one line for each record
    in the ordered revision; in the address-keyed revision one line for
    each payload, one for the end of the file, and at most one more for
    each payload. *)
Theorem Generate_writes_canonical_lines :
  (forall image,
     Forall record_ok image ->
     exists lines,
       Ordered.Generate image = join_lines lines
       /\ Forall canonical_line lines
       /\ List.length lines = List.length image)
  /\ (forall image,
        image_ok image ->
        exists lines,
          Keyed.Generate image = join_lines lines
          /\ Forall canonical_line lines
          /\ (List.length image + 1 <= List.length lines
              <= 2 * List.length image + 1)%nat).
Proof.
  split.
  - induction 1 as [| r image Hr _ [lines [E [Hc Hn]]]].
    + exists []. split; [reflexivity |]. split; [constructor | reflexivity].
    + exists (written_line (Ordered.record_buffer r) :: lines).
      split; [| split].
      * cbn [Ordered.Generate flat_map join_lines]. fold (Ordered.Generate image).
        fold (join_lines lines). now rewrite E, HexRecord_Generate_line.
      * constructor; [| exact Hc]. apply written_line_canonical.
        exact (proj1 (proj1 (record_buffer_ok r Hr))).
      * simpl List.length. now rewrite Hn.
  - intros image [_ Hok].
    destruct (Keyed_Generate_loop_lines image 0) as [lines [E [Hc Hn]]].
    { eapply Forall_impl; [| exact Hok]. intros kv [_ Hv]. exact Hv. }
    exists (lines ++ [written_line (written_bytes 1 0 [])]).
    split; [| split].
    + unfold Keyed.Generate, join_lines. rewrite flat_map_app. cbn [flat_map].
      fold (join_lines lines). now rewrite E, WriteRecord_line, app_nil_r.
    + apply Forall_app. split; [exact Hc |]. constructor; [| constructor].
      apply written_line_canonical.
      apply (written_bytes_ok 1 0 []); [unfold byte_ok; lia |].
      split; [constructor | simpl; lia].
    + rewrite length_app. simpl List.length. lia.
Qed.

Lemma Generate_writes_canonical_lines_witness :
  let image := [Ordered.mkHexRecord 2 0x1234 0 [10; 171] 3;
                Ordered.mkHexRecord 0 0 1 [] 255] in
  let keyed := [(0xABCD1234, [10; 171])] in
  (Forall record_ok image /\ image_ok keyed)
  /\ Ordered.Generate image = text_line ":021234000AAB03" ++ text_line ":00000001FF"
  /\ Keyed.Generate keyed
     = text_line ":02000004ABCD82" ++ text_line ":021234000AAB03"
         ++ text_line ":00000001FF"
  /\ (exists lines,
        Ordered.Generate image = join_lines lines /\ Forall canonical_line lines
        /\ List.length lines = 2%nat)
  /\ (exists lines,
        Keyed.Generate keyed = join_lines lines /\ Forall canonical_line lines
        /\ (2 <= List.length lines <= 3)%nat).
Proof.
  cbv zeta.
  assert (Ho : Forall record_ok [Ordered.mkHexRecord 2 0x1234 0 [10; 171] 3;
                                 Ordered.mkHexRecord 0 0 1 [] 255]).
  { constructor; [| constructor; [| constructor]];
      unfold record_ok, byte_ok;
      cbn [Ordered.size Ordered.address Ordered.type Ordered.data Ordered.checksum
           List.length];
      (split; [lia |]); (split; [lia |]); (split; [lia |]);
      (split; [repeat (constructor; [lia |]); constructor |]);
      (split; [reflexivity |]); (split; [lia |]); vm_compute; reflexivity. }
  assert (Hk : image_ok [(0xABCD1234, [10; 171])]).
  { split; [repeat constructor |]. constructor; [| constructor].
    cbn [fst snd]. split; [lia |]. split; [| simpl; lia].
    repeat (constructor; [unfold byte_ok; lia |]). constructor. }
  split; [exact (conj Ho Hk) |].
  split; [vm_compute; reflexivity |]. split; [vm_compute; reflexivity |].
  split.
  - exact (proj1 Generate_writes_canonical_lines _ Ho).
  - exact (proj2 Generate_writes_canonical_lines _ Hk).
Defined.

Lemma low_key (first : Z) :
  0 <= first < 2 ^ 16 -> Z.land first 0xffff0000 = 0.
Proof.
  intros H. change 0xffff0000 with (Z.shiftl (Z.ones 16) 16).
  apply Z.bits_inj'. intros n Hn. rewrite Z.land_spec, Z.bits_0.
  destruct (Z.lt_ge_cases n 16).
  - rewrite Z.shiftl_spec_low by lia. apply andb_false_r.
  - now rewrite (testbit_above first 16 n H) by lia.
Qed.

Lemma high_key (first : Z) :
  2 ^ 16 <= first < 2 ^ 32 -> Z.land first 0xffff0000 <> 0.
Proof.
  intros H E.
  pose proof (key_split first ltac:(lia)) as Hs. rewrite E in Hs.
  rewrite Z.lor_0_l in Hs.
  pose proof (Z.mod_pos_bound first (2 ^ 16) ltac:(lia)). lia.
Qed.

(** X16.  In the address-keyed revision [Generate] writes no
    extended-address record for an image whose addresses are all below
    [2 ^ 16]: the file is the data records in ascending order of the
    addresses and the end-of-file record.  When the lowest address is
    [2 ^ 16] or more, the file starts with the extended-address record
    of its upper 16 bits. *)
Theorem Generate_extended_address_records (image : Keyed.IntelHex) :
  (Forall (fun kv => 0 <= fst kv < 2 ^ 16) image ->
   Keyed.Generate image
   = flat_map (fun kv => Keyed.WriteRecord 0 (fst kv) (snd kv)) image
       ++ Keyed.WriteRecord 1 0 [])
  /\ (forall first second rest,
        image = (first, second) :: rest -> 2 ^ 16 <= first < 2 ^ 32 ->
        exists tail,
          Keyed.Generate image
          = Keyed.WriteRecord 4 0 [Z.shiftr first 24; Z.shiftr first 16 mod 256]
              ++ Keyed.WriteRecord 0 (first mod 2 ^ 16) second ++ tail).
Proof.
  split.
  - intros H. unfold Keyed.Generate. f_equal.
    induction H as [| [first second] rest Hk _ IH]; [reflexivity |].
    cbn [fst] in Hk. cbn [Keyed.Generate_loop flat_map fst snd].
    rewrite (low_key first Hk). cbn [Z.eqb negb].
    now rewrite IH, Z.mod_small by exact Hk.
  - intros first second rest -> Hk. unfold Keyed.Generate.
    cbn [Keyed.Generate_loop].
    destruct (Z.eqb_spec (Z.land first 4294901760) 0) as [E | _];
      [now apply high_key in E |].
    cbn [negb]. eexists. rewrite <- !app_assoc.
    replace (Z.shiftr first 24 mod 256) with (Z.shiftr first 24); [reflexivity |].
    symmetry. apply Z.mod_small. rewrite Z.shiftr_div_pow2 by lia.
    split; [apply Z.div_pos; lia |].
    apply Z.div_lt_upper_bound; [lia |]. change (2 ^ 24 * 256) with (2 ^ 32). lia.
Qed.

Lemma Generate_extended_address_records_witness :
  (Forall (fun kv => 0 <= fst kv < 2 ^ 16) [(0x10, [1; 2]); (0x1234, [3; 4])]
   /\ 2 ^ 16 <= 0xABCD1234 < 2 ^ 32)
  /\ Keyed.Generate [(0x10, [1; 2]); (0x1234, [3; 4])]
     = text_line ":020010000102EB" ++ text_line ":021234000304B1"
         ++ text_line ":00000001FF"
  /\ exists tail,
       Keyed.Generate [(0xABCD1234, [1; 2])]
       = text_line ":02000004ABCD82" ++ text_line ":021234000102B5" ++ tail.
Proof.
  assert (H1 : Forall (fun kv => 0 <= fst kv < 2 ^ 16)
                 [(0x10, [1; 2]); (0x1234, [3; 4])]).
  { repeat (constructor; [cbn [fst]; lia |]). constructor. }
  assert (H2 : 2 ^ 16 <= 0xABCD1234 < 2 ^ 32) by lia.
  split; [exact (conj H1 H2) |]. split.
  - rewrite (proj1 (Generate_extended_address_records _) H1).
    vm_compute. reflexivity.
  - destruct (proj2 (Generate_extended_address_records [(0xABCD1234, [1; 2])])
                _ _ _ eq_refl H2) as [tail E].
    exists tail. rewrite E. vm_compute. reflexivity.
Defined.

(** ** [Read] and [Write] *)

Lemma Ordered_Read_accepted (input : list ascii) (image old : Ordered.IntelHex) :
  Ordered.Parse input = inr image ->
  OrderedFile.Read (Some input) old = (true, image, []).
Proof.
  unfold Ordered.Parse, OrderedFile.Read. rewrite Ordered_Parse_run_result.
  destruct (OrderedFile.Parse_run _ 1 [] input) as [[[| e] |] fData];
    cbn [result_of]; intros H; try discriminate.
  now inversion H.
Qed.

Lemma Ordered_Read_rejected (input : list ascii) (e : error) (old : Ordered.IntelHex) :
  Ordered.Parse input = inl e ->
  exists o c, OrderedFile.Read (Some input) old = (false, o, c).
Proof.
  unfold Ordered.Parse, OrderedFile.Read. rewrite Ordered_Parse_run_result.
  destruct (OrderedFile.Parse_run _ 1 [] input) as [[[| e'] |] fData];
    cbn [result_of]; intros H; try discriminate; eauto.
Qed.






Lemma image_ok_nil : image_ok [].
Proof. split; constructor. Qed.

Lemma Keyed_Read_state (input : list ascii) (old o : Keyed.IntelHex)
  (r : bool) (c : list diagnostic) :
  KeyedFile.Read (Some input) old = (r, o, c) -> image_ok o.
Proof.
  unfold KeyedFile.Read.
  destruct (KeyedFile.Parse_run _ 1 0 [] input) as [res fData] eqn:E.
  pose proof (Keyed_Parse_run_state _ _ _ _ _ _ _ E image_ok_nil ltac:(lia)) as Hok.
  destruct res as [[| e] |]; intros H; inversion H; subst; exact Hok.
Qed.


Section KeyedRun.

Variables (fuel : nat) (l extended : Z) (fData : Keyed.IntelHex) (rest : list ascii).

Lemma Keyed_run_data_record (address : Z) (data : list Z) :
  0 <= address < 2 ^ 16 -> payload_ok data ->
  KeyedFile.Parse_run (S fuel) l extended fData (Keyed.WriteRecord 0 address data ++ rest)
  = KeyedFile.Parse_run fuel (l + 1) extended
      (Keyed.map_insert (Z.lor extended address) data fData) rest.
Proof.
  intros Ha Hd.
  destruct (Parse_written l rest 0 address data ltac:(unfold byte_ok; lia) Hd)
    as [Hg Hb].
  cbn [KeyedFile.Parse_run]. rewrite Hg, Hb. cbv zeta.
  rewrite written_payload by exact Hd.
  rewrite written_rd1, written_rd2, written_rd3, address_bytes by exact Ha.
  reflexivity.
Qed.

Lemma Keyed_run_extended_record (b0 b1 : Z) :
  byte_ok b0 -> byte_ok b1 ->
  KeyedFile.Parse_run (S fuel) l extended fData (Keyed.WriteRecord 4 0 [b0; b1] ++ rest)
  = KeyedFile.Parse_run fuel (l + 1)
      (Z.lor (Z.shiftl b0 24) (Z.shiftl b1 16) mod 2 ^ 32) fData rest.
Proof.
  intros H0 H1.
  assert (Hd : payload_ok [b0; b1]) by (split; [auto | simpl; lia]).
  destruct (Parse_written l rest 4 0 [b0; b1] ltac:(unfold byte_ok; lia) Hd)
    as [Hg Hb].
  cbn [KeyedFile.Parse_run]. rewrite Hg, Hb. reflexivity.
Qed.

End KeyedRun.

Lemma Keyed_run_records (rs : list record) :
  forall fuel l bank image rest,
    Forall record_valid rs ->
    (List.length (flat_map write_record rs ++ rest) < fuel)%nat ->
    exists fuel',
      (List.length rest < fuel')%nat
      /\ KeyedFile.Parse_run fuel l bank image (flat_map write_record rs ++ rest)
         = KeyedFile.Parse_run fuel' (l + Z.of_nat (List.length rs))
             (bank_after bank rs) (store bank image rs) rest.
Proof.
  induction rs as [| r rs IH]; intros fuel l bank image rest Hv Hf.
  - exists fuel. cbn [flat_map app List.length bank_after store] in *.
    now rewrite Z.add_0_r.
  - inversion Hv as [| ? ? Hr Hv']; subst.
    cbn [flat_map] in *. rewrite <- app_assoc in *.
    pose proof (write_record_length r (flat_map write_record rs ++ rest)) as Hlen.
    destruct fuel as [| fuel]; [lia |].
    replace (l + Z.of_nat (List.length (r :: rs)))
      with (l + 1 + Z.of_nat (List.length rs)) by (simpl List.length; lia).
    destruct r as [address payload | b0 b1]; cbn [write_record store bank_after] in *.
    + destruct Hr as [Ha Hp]. rewrite Keyed_run_data_record by assumption.
      apply IH; [exact Hv' | lia].
    + destruct Hr as [H0 H1]. rewrite Keyed_run_extended_record by assumption.
      rewrite Z.mod_small by now apply bank_in_range.
      apply IH; [exact Hv' | lia].
Qed.

(** X17.  A [Read] that fails leaves in the object what was read before
    the line that ends it, neither the former content nor nothing: the
    records of the lines before, in the ordered revision; the payloads
    of the data records before, in the address-keyed revision. *)
Theorem Read_failure_leaves_partial_image (rest : list ascii) (d : diagnostic) :
  (forall records old,
     Forall record_ok records -> Forall (fun r => Ordered.type r <> 1) records ->
     first_line_diagnostic (1 + Z.of_nat (List.length records)) rest = Some d ->
     OrderedFile.Read (Some (Ordered.Generate records ++ rest)) old
     = (false, records, [d]))
  /\ (forall rs old,
        Forall record_valid rs ->
        first_line_diagnostic (1 + Z.of_nat (List.length rs)) rest = Some d ->
        KeyedFile.Read (Some (flat_map write_record rs ++ rest)) old
        = (false, store 0 [] rs, [d])).
Proof.
  split.
  - intros records old Hok Hty Hd. unfold OrderedFile.Read.
    destruct (Ordered_run_records records []
                (S (List.length (Ordered.Generate records ++ rest))) 1 rest Hok Hty)
      as [fuel' [Hf E]]; [lia |].
    rewrite E. cbn [app]. destruct fuel' as [| fuel']; [lia |].
    cbn [OrderedFile.Parse_run]. unfold first_line_diagnostic in Hd.
    destruct (getline rest) as [[[line gcount] rest'] |].
    + destruct (line_bytes _ line (gcount - 1)); [| discriminate].
      now inversion Hd.
    + now inversion Hd.
  - intros rs old Hv Hd. unfold KeyedFile.Read.
    destruct (Keyed_run_records rs
                (S (List.length (flat_map write_record rs ++ rest))) 1 0 [] rest Hv)
      as [fuel' [Hf E]]; [lia |].
    rewrite E. destruct fuel' as [| fuel']; [lia |].
    cbn [KeyedFile.Parse_run]. unfold first_line_diagnostic in Hd.
    destruct (getline rest) as [[[line gcount] rest'] |].
    + destruct (line_bytes _ line (gcount - 1)); [| discriminate].
      now inversion Hd.
    + now inversion Hd.
Qed.

Lemma Read_failure_leaves_partial_image_witness :
  let r := Ordered.mkHexRecord 2 0x1234 0 [1; 2] 181 in
  let d := parse_diagnostic
             (what (mkParseError 2 0 "not starting with ':' or too short"
                      (text "no record" ++ [CR]))) in
  (Forall record_ok [r] /\ Forall (fun r => Ordered.type r <> 1) [r]
   /\ Forall record_valid [Data 0x1234 [1; 2]]
   /\ first_line_diagnostic 2 (text_line "no record") = Some d)
  /\ OrderedFile.Read (Some (text_line ":021234000102B5" ++ text_line "no record"))
       [Ordered.mkHexRecord 0 0 1 [] 255]
     = (false, [r], [d])
  /\ KeyedFile.Read (Some (text_line ":021234000102B5" ++ text_line "no record"))
       [(0, [7])]
     = (false, [(0x1234, [1; 2])], [d]).
Proof.
  cbv zeta.
  assert (Ho : Forall record_ok [Ordered.mkHexRecord 2 0x1234 0 [1; 2] 181]).
  { constructor; [| constructor].
    unfold record_ok, byte_ok;
      cbn [Ordered.size Ordered.address Ordered.type Ordered.data Ordered.checksum
           List.length];
      (split; [lia |]); (split; [lia |]); (split; [lia |]);
      (split; [repeat (constructor; [lia |]); constructor |]);
      (split; [reflexivity |]); (split; [lia |]); vm_compute; reflexivity. }
  assert (Ht : Forall (fun r => Ordered.type r <> 1)
                 [Ordered.mkHexRecord 2 0x1234 0 [1; 2] 181]).
  { constructor; [discriminate | constructor]. }
  assert (Hv : Forall record_valid [Data 0x1234 [1; 2]]).
  { constructor; [| constructor]. split; [lia |]. split; [| simpl; lia].
    repeat (constructor; [unfold byte_ok; lia |]). constructor. }
  assert (Hd : first_line_diagnostic 2 (text_line "no record")
               = Some (parse_diagnostic
                         (what (mkParseError 2 0 "not starting with ':' or too short"
                                  (text "no record" ++ [CR])))))
    by (vm_compute; reflexivity).
  split; [exact (conj Ho (conj Ht (conj Hv Hd))) |].
  destruct (Read_failure_leaves_partial_image (text_line "no record")
              (parse_diagnostic
                 (what (mkParseError 2 0 "not starting with ':' or too short"
                          (text "no record" ++ [CR])))))
    as [Fo Fk].
  split.
  - exact (Fo _ [Ordered.mkHexRecord 0 0 1 [] 255] Ho Ht Hd).
  - exact (Fk _ [(0, [7])] Hv Hd).
Defined.

(** ** hexcrypt's [main] *)

Lemma content_stored (fs : filesystem) (name : string) (written : list ascii) :
  content (store_file fs name (Some written)) name = Some written.
Proof. cbn [store_file content]. now rewrite String.eqb_refl. Qed.



Lemma key_size (keyfile : list ascii) :
  keyfile <> [] -> (Z.of_nat (List.length keyfile) =? 0) = false.
Proof. destruct keyfile; [contradiction | reflexivity]. Qed.

Lemma Ordered_Parse_no_end (records : Ordered.IntelHex) :
  Forall record_ok records -> Forall (fun r => Ordered.type r <> 1) records ->
  Ordered.Parse (Ordered.Generate records) = inl ios_failure.
Proof.
  intros Hok Hty. unfold Ordered.Parse.
  rewrite Ordered_Parse_run_result, Ordered_run_no_end by assumption. reflexivity.
Qed.

Lemma Ordered_Read_rejected_state (input : list ascii) (e : error)
  (old : Ordered.IntelHex) :
  Ordered.Parse input = inl e ->
  exists o c,
    OrderedFile.Read (Some input) old = (false, o, c)
    /\ Forall record_ok o /\ Forall (fun r => Ordered.type r <> 1) o.
Proof.
  unfold Ordered.Parse, OrderedFile.Read. rewrite Ordered_Parse_run_result.
  destruct (OrderedFile.Parse_run _ 1 [] input) as [res fData] eqn:E.
  destruct (Ordered_Parse_run_state _ _ _ _ _ _ E (Forall_nil _) (Forall_nil _))
    as [Hok Hty].
  destruct res as [[| e'] |]; cbn [result_of]; intros H; try discriminate; eauto.
Qed.

Lemma Ordered_Cipher_nil (key : list Z) (len : Z) : Ordered.Cipher key len [] = [].
Proof.
  unfold Ordered.Cipher. now destruct (Arcfour.arcfour_generate_stream _ 256).
Qed.

Lemma Keyed_Cipher_nil (key : list Z) (len : Z) : Keyed.Cipher key len [] = [].
Proof.
  unfold Keyed.Cipher. now destruct (Arcfour.arcfour_generate_stream _ 256).
Qed.



(** X19.  In the address-keyed revision [main], given four arguments,
    a key file that is not empty and an output file that can be
    written, ends with the status 0 and leaves an output file that
    [Parse] accepts, whatever the input file holds.  When the input
    file cannot be opened, the message about the input is all that is
    sent to [std::cerr] and the output is the end-of-file record. *)
Theorem Keyed_main_output_accepted (argv0 argv1 argv2 argv3 : string)
  (fs : filesystem) (keyfile : list ascii) :
  content fs argv2 = Some keyfile -> keyfile <> [] -> writable fs argv3 = true ->
  exists cerr fs' image,
    Hexcrypt.main KeyedIntelHex [argv0; argv1; argv2; argv3] fs
    = Hexcrypt.exited 0 cerr fs'
    /\ content fs' argv3 = Some (Keyed.Generate image)
    /\ Keyed.Parse (Keyed.Generate image) = inr image
    /\ (content fs argv1 = None ->
        cerr = [cant_read_input]
        /\ Keyed.Generate image = text_line ":00000001FF").
Proof.
  intros Hkey Hne Hw. pose proof (key_size keyfile Hne) as Hs.
  unfold Hexcrypt.main, KeyedIntelHex. cbn [Read Write Cipher fresh].
  destruct (content fs argv1) as [source |] eqn:Hin.
  - destruct (KeyedFile.Read (Some source) []) as [[r o] c] eqn:ER.
    pose proof (Keyed_Read_state _ _ _ _ _ ER) as Hok.
    rewrite Hkey, Hs, Hw.
    eexists _, _, _. split; [reflexivity |].
    split; [apply content_stored |].
    split; [apply Keyed_Parse_Generate, Keyed_Cipher_ok, Hok | discriminate].
  - cbn [KeyedFile.Read]. rewrite Hkey, Hs, Hw.
    eexists _, _, _. split; [reflexivity |].
    split; [apply content_stored |].
    split; [apply Keyed_Parse_Generate, Keyed_Cipher_ok, image_ok_nil |].
    intros _. split; [reflexivity |]. now rewrite Keyed_Cipher_nil.
Qed.

Lemma Keyed_main_output_accepted_witness :
  let fs := {| content := fun n =>
                 if String.eqb n "keyfile" then Some (text "Key") else None;
               writable := fun _ => true |} in
  (content fs "keyfile" = Some (text "Key") /\ text "Key" <> []
   /\ writable fs "output.hex" = true /\ content fs "input.hex" = None)
  /\ exists fs',
       Hexcrypt.main KeyedIntelHex ["hexcrypt"; "input.hex"; "keyfile"; "output.hex"]%string
         fs
       = Hexcrypt.exited 0 [cant_read_input] fs'
       /\ content fs' "output.hex" = Some (text_line ":00000001FF").
Proof.
  cbv zeta.
  set (fs := {| content := fun n =>
                  if String.eqb n "keyfile" then Some (text "Key") else None;
                writable := fun _ => true |}).
  assert (H1 : content fs "keyfile" = Some (text "Key")) by reflexivity.
  assert (H2 : text "Key" <> []) by discriminate.
  assert (H3 : writable fs "output.hex" = true) by reflexivity.
  assert (H4 : content fs "input.hex" = None) by reflexivity.
  split; [exact (conj H1 (conj H2 (conj H3 H4))) |].
  destruct (Keyed_main_output_accepted "hexcrypt" "input.hex" "keyfile" "output.hex"
              fs (text "Key") H1 H2 H3)
    as [cerr [fs' [image [E [Hc [_ Hn]]]]]].
  destruct (Hn H4) as [-> Hg].
  exists fs'. split; [exact E |]. now rewrite Hc, Hg.
Defined.

(** X20.  In the ordered revision [main], given four arguments, a key
    file that is not empty and an output file that can be written, ends
    with the status 0 and leaves an output file that [Parse] accepts if
    and only if it accepted the input file: after a failed [Read] the
    records read so far are ciphered and written, without an
    end-of-file record.  When the input file cannot be opened the
    output file is empty. *)
Theorem Ordered_main_output_accepted_iff (argv0 argv1 argv2 argv3 : string)
  (fs : filesystem) (keyfile : list ascii) :
  content fs argv2 = Some keyfile -> keyfile <> [] -> writable fs argv3 = true ->
  exists cerr fs' out,
    Hexcrypt.main OrderedIntelHex [argv0; argv1; argv2; argv3] fs
    = Hexcrypt.exited 0 cerr fs'
    /\ content fs' argv3 = Some out
    /\ ((exists image, Ordered.Parse out = inr image)
        <-> (exists source image,
               content fs argv1 = Some source /\ Ordered.Parse source = inr image))
    /\ (content fs argv1 = None -> cerr = [cant_read_input] /\ out = []).
Proof.
  intros Hkey Hne Hw. pose proof (key_size keyfile Hne) as Hs.
  unfold Hexcrypt.main, OrderedIntelHex. cbn [Read Write Cipher fresh].
  destruct (content fs argv1) as [source |] eqn:Hin.
  - destruct (Ordered.Parse source) as [e | image] eqn:HP.
    + destruct (Ordered_Read_rejected_state source e [] HP) as [o [c [-> [Hok Hty]]]].
      rewrite Hkey, Hs, Hw.
      eexists _, _, _. split; [reflexivity |].
      split; [apply content_stored |]. split; [| discriminate].
      rewrite Ordered_Parse_no_end.
      * split; [intros [image H]; discriminate |].
        intros [source' [image [Hsrc H]]]. congruence.
      * now apply Ordered_Cipher_ok.
      * apply (types_without_end _ o); [apply Ordered_Cipher_types | exact Hty].
    + rewrite (Ordered_Read_accepted _ _ _ HP), Hkey, Hs, Hw.
      eexists _, _, _. split; [reflexivity |].
      split; [apply content_stored |]. split; [| discriminate].
      split; [intros _; now exists source, image |].
      intros _. eexists.
      apply Ordered_Parse_Generate, Ordered_Cipher_decoded, (Parse_decoded source), HP.
  - cbn [OrderedFile.Read]. rewrite Hkey, Hs, Hw.
    eexists _, _, _. split; [reflexivity |].
    split; [apply content_stored |].
    rewrite Ordered_Cipher_nil. split.
    + split; [intros [image H]; discriminate |].
      intros [source [image [H _]]]. discriminate.
    + intros _. split; reflexivity.
Qed.

Lemma Ordered_main_output_accepted_iff_witness :
  let source := text_line ":021234000102B5" in
  let fs := {| content := fun n =>
                 if String.eqb n "input.hex" then Some source
                 else if String.eqb n "keyfile" then Some (text "Key")
                 else None;
               writable := fun _ => true |} in
  (content fs "keyfile" = Some (text "Key") /\ text "Key" <> []
   /\ writable fs "output.hex" = true)
  /\ Ordered.Parse source = inl ios_failure
  /\ exists cerr fs' out,
       Hexcrypt.main OrderedIntelHex
         ["hexcrypt"; "input.hex"; "keyfile"; "output.hex"]%string fs
       = Hexcrypt.exited 0 cerr fs'
       /\ cerr = [cant_read_input]
       /\ content fs' "output.hex" = Some out
       /\ Ordered.Parse out = inl ios_failure.
Proof.
  cbv zeta.
  set (source := text_line ":021234000102B5").
  set (fs := {| content := fun n =>
                  if String.eqb n "input.hex" then Some source
                  else if String.eqb n "keyfile" then Some (text "Key")
                  else None;
                writable := fun _ => true |}).
  assert (H1 : content fs "keyfile" = Some (text "Key")) by reflexivity.
  assert (H2 : text "Key" <> []) by discriminate.
  assert (H3 : writable fs "output.hex" = true) by reflexivity.
  assert (HP : Ordered.Parse source = inl ios_failure) by (vm_compute; reflexivity).
  split; [exact (conj H1 (conj H2 H3)) |]. split; [exact HP |].
  destruct (Ordered_main_output_accepted_iff "hexcrypt" "input.hex" "keyfile"
              "output.hex" fs (text "Key") H1 H2 H3)
    as [cerr [fs' [out [E [Hc _]]]]].
  assert (M : Hexcrypt.main OrderedIntelHex
                ["hexcrypt"; "input.hex"; "keyfile"; "output.hex"]%string fs
              = Hexcrypt.exited 0 [cant_read_input]
                  (store_file fs "output.hex" (Some (text_line ":02123400A3E62F"))))
    by (vm_compute; reflexivity).
  exists cerr, fs', out. split; [exact E |].
  pose proof E as E'. rewrite M in E'. injection E' as Hcerr Hfs.
  split; [now symmetry |]. split; [exact Hc |].
  rewrite <- Hfs in Hc. vm_compute in Hc. injection Hc as <-.
  vm_compute. reflexivity.
Defined.

(** ** The test program *)

Section Runs.

Variable H : IntelHexClass.
Variable good : object H -> Prop.

Hypothesis good_fresh : good (fresh H).
Hypothesis Cipher_fresh : Cipher H Test.key 18 (fresh H) = fresh H.
Hypothesis Read_missing :
  forall o, Read H None o = (false, o, [cant_read_input]).
Hypothesis Read_good :
  forall input old r o c, Read H (Some input) old = (r, o, c) -> good o.
Hypothesis Read_clears :
  forall input old old', Read H (Some input) old = Read H (Some input) old'.
Hypothesis Cipher_good : forall o, good o -> good (Cipher H Test.key 18 o).
Hypothesis Cipher_twice :
  forall o, good o -> Cipher H Test.key 18 (Cipher H Test.key 18 o) = o.
Hypothesis Write_Read :
  forall o old,
    good o ->
    exists written r c,
      Write H true o = (true, Some written, [])
      /\ Read H (Some written) old = (r, o, c).
Hypothesis equal_refl : forall o, equal H o o = true.


End Runs.





(** ** The two revisions *)

Lemma extended_address_bytes (buffer : list Z) :
  rd buffer 0 = 2 -> rd buffer 0 + 5 = Z.of_nat (List.length buffer) ->
  rd (firstn (Z.to_nat (rd buffer 0)) (skipn 4 buffer)) 0 = rd buffer 4
  /\ rd (firstn (Z.to_nat (rd buffer 0)) (skipn 4 buffer)) 1 = rd buffer 5.
Proof.
  intros H0 Hl. rewrite H0 in *.
  do 6 (destruct buffer as [| ? buffer]; [simpl in Hl; lia |]).
  split; reflexivity.
Qed.

Lemma Parse_loops_agree (fuel : nat) :
  forall l extended fData records input image,
    Keyed.Parse_loop fuel l extended fData input = inr image ->
    exists records',
      Ordered.Parse_loop fuel l records input = inr (records ++ records')
      /\ replay extended fData records' = image.
Proof.
  induction fuel as [| fuel IH]; intros l extended fData records input image H;
    [discriminate |].
  cbn [Keyed.Parse_loop] in H. cbn [Ordered.Parse_loop].
  destruct (getline input) as [[[line gcount] rest] |]; [| discriminate].
  destruct (line_bytes l line (gcount - 1)) as [e | buffer] eqn:Hb; [discriminate |].
  destruct (line_bytes_inv _ _ _ _ Hb) as [_ [_ Hlen]].
  cbv zeta in H. cbv zeta.
  change (Ordered.type (Ordered.HexRecord_of buffer)) with (rd buffer 3).
  destruct (Z.eqb_spec (rd buffer 3) 0) as [E0 | E0].
  - rewrite E0. cbn [Z.eqb].
    destruct (IH _ _ _ (records ++ [Ordered.HexRecord_of buffer]) _ _ H)
      as [records' [-> <-]].
    exists (Ordered.HexRecord_of buffer :: records').
    split; [now rewrite <- app_assoc |].
    cbn [replay]. change (Ordered.type (Ordered.HexRecord_of buffer)) with (rd buffer 3).
    rewrite E0. reflexivity.
  - destruct (Z.eqb_spec (rd buffer 3) 1) as [E1 | E1].
    + destruct (negb (rd buffer 0 =? 0)); [discriminate |].
      inversion H; subst image.
      exists [Ordered.HexRecord_of buffer]. split; [reflexivity |].
      cbn [replay]. change (Ordered.type (Ordered.HexRecord_of buffer)) with (rd buffer 3).
      rewrite E1. reflexivity.
    + destruct (Z.eqb_spec (rd buffer 3) 4) as [E4 | E4]; [| discriminate].
      destruct (Z.eqb_spec (rd buffer 0) 2) as [E2 | E2]; [| discriminate].
      cbn [negb] in H.
      destruct (IH _ _ _ (records ++ [Ordered.HexRecord_of buffer]) _ _ H)
        as [records' [-> <-]].
      exists (Ordered.HexRecord_of buffer :: records').
      split; [now rewrite <- app_assoc |].
      cbn [replay]. change (Ordered.type (Ordered.HexRecord_of buffer)) with (rd buffer 3).
      rewrite E4. cbn [Z.eqb].
      change (Ordered.data (Ordered.HexRecord_of buffer))
        with (firstn (Z.to_nat (rd buffer 0)) (skipn 4 buffer)).
      destruct (extended_address_bytes buffer E2 Hlen) as [-> ->]. reflexivity.
Qed.

(** X22.  An input that the address-keyed revision accepts is accepted
    by the ordered revision, and the image of the first is that of the
    records of the second: each data record inserted at its address in
    the bank set by the extended-address record before it. *)
Theorem revisions_agree (input : list ascii) (image : Keyed.IntelHex) :
  Keyed.Parse input = inr image ->
  exists records,
    Ordered.Parse input = inr records /\ replay 0 [] records = image.
Proof.
  intros H. exact (Parse_loops_agree _ 1 0 [] [] input image H).
Qed.

Lemma revisions_agree_witness :
  let input := text_line ":02000004ABCD82" ++ text_line ":021234000102B5"
                 ++ text_line ":00000001FF" in
  Keyed.Parse input = inr [(0xABCD1234, [1; 2])]
  /\ Ordered.Parse input
     = inr [Ordered.mkHexRecord 2 0 4 [0xAB; 0xCD] 0x82;
            Ordered.mkHexRecord 2 0x1234 0 [1; 2] 0xB5;
            Ordered.mkHexRecord 0 0 1 [] 0xFF]
  /\ exists records,
       Ordered.Parse input = inr records
       /\ replay 0 [] records = [(0xABCD1234, [1; 2])].
Proof.
  cbv zeta.
  assert (H : Keyed.Parse (text_line ":02000004ABCD82" ++ text_line ":021234000102B5"
                             ++ text_line ":00000001FF")
              = inr [(0xABCD1234, [1; 2])]) by (vm_compute; reflexivity).
  split; [exact H |]. split; [vm_compute; reflexivity |].
  exact (revisions_agree _ _ H).
Defined.

(** ** [UpdateChecksum] *)

(** X23.  Whatever the checksum it held, a record whose fields are in
    range holds after [UpdateChecksum] the checksum byte that brings
    the sum of the bytes written by [Generate] to zero modulo 256, which
    is the test of [Parse]; a second call changes nothing. *)
Theorem UpdateChecksum_sums_to_zero (r : Ordered.HexRecord) :
  byte_ok (Ordered.size r) -> 0 <= Ordered.address r < 2 ^ 16 ->
  byte_ok (Ordered.type r) -> Forall byte_ok (Ordered.data r) ->
  Z.of_nat (List.length (Ordered.data r)) = Ordered.size r ->
  byte_ok (Ordered.checksum (Ordered.UpdateChecksum r))
  /\ sum_bytes (Ordered.record_buffer (Ordered.UpdateChecksum r)) mod 256 = 0
  /\ Ordered.UpdateChecksum (Ordered.UpdateChecksum r) = Ordered.UpdateChecksum r
  /\ forall rest,
       Ordered.Parse (Ordered.HexRecord_Generate (Ordered.UpdateChecksum r)
                        ++ text_line ":00000001FF" ++ rest)
       = if Ordered.type r =? 1 then inr [Ordered.UpdateChecksum r]
         else inr [Ordered.UpdateChecksum r; Ordered.mkHexRecord 0 0 1 [] 255].
Proof.
  intros Hsz Ha Ht Hd Hl.
  pose proof (UpdateChecksum_record_ok r Hsz Ha Ht Hd Hl) as Hok.
  split; [apply Hok |]. split; [apply Hok |]. split.
  - pose proof (UpdateChecksum_ok (Ordered.UpdateChecksum r)
                  (Ordered.checksum (Ordered.UpdateChecksum r)) Hok) as E.
    now destruct (Ordered.UpdateChecksum r).
  - intros rest.
    assert (Heof : record_ok (Ordered.mkHexRecord 0 0 1 [] 255)).
    { unfold record_ok, byte_ok;
        cbn [Ordered.size Ordered.address Ordered.type Ordered.data Ordered.checksum
             List.length];
        (split; [lia |]); (split; [lia |]); (split; [lia |]);
        (split; [constructor |]);
        (split; [reflexivity |]); (split; [lia |]); vm_compute; reflexivity. }
    unfold Ordered.Parse.
    change (text_line ":00000001FF")
      with (Ordered.HexRecord_Generate (Ordered.mkHexRecord 0 0 1 [] 255)).
    set (tail := Ordered.HexRecord_Generate (Ordered.mkHexRecord 0 0 1 [] 255) ++ rest).
    pose proof (HexRecord_Generate_length (Ordered.UpdateChecksum r) tail) as Hlt.
    rewrite Parse_written_record by exact Hok.
    rewrite UpdateChecksum_type.
    destruct (Ordered.type r =? 1); [reflexivity |].
    destruct (List.length (Ordered.HexRecord_Generate (Ordered.UpdateChecksum r) ++ tail))
      as [| fuel]; [lia |].
    unfold tail. rewrite Parse_written_record by exact Heof. reflexivity.
Qed.

Lemma UpdateChecksum_sums_to_zero_witness :
  let r := Ordered.mkHexRecord 2 0x1234 0 [1; 2] 0 in
  (byte_ok (Ordered.size r) /\ 0 <= Ordered.address r < 2 ^ 16
   /\ byte_ok (Ordered.type r) /\ Forall byte_ok (Ordered.data r)
   /\ Z.of_nat (List.length (Ordered.data r)) = Ordered.size r)
  /\ Ordered.UpdateChecksum r = Ordered.mkHexRecord 2 0x1234 0 [1; 2] 0xB5
  /\ sum_bytes (Ordered.record_buffer (Ordered.UpdateChecksum r)) mod 256 = 0.
Proof.
  cbv zeta.
  assert (H1 : byte_ok 2) by (unfold byte_ok; lia).
  assert (H2 : 0 <= 0x1234 < 2 ^ 16) by lia.
  assert (H3 : byte_ok 0) by (unfold byte_ok; lia).
  assert (H4 : Forall byte_ok [1; 2]).
  { repeat (constructor; [unfold byte_ok; lia |]). constructor. }
  assert (H5 : Z.of_nat (List.length [1; 2]) = 2) by reflexivity.
  split; [exact (conj H1 (conj H2 (conj H3 (conj H4 H5)))) |].
  split; [vm_compute; reflexivity |].
  exact (proj1 (proj2 (UpdateChecksum_sums_to_zero
                         (Ordered.mkHexRecord 2 0x1234 0 [1; 2] 0) H1 H2 H3 H4 H5))).
Defined.
